(** * bolt-mev-boost: constraints cache, inclusion proofs and the versioned
      bid envelope

    A shallow embedding of [server/proofs.go] (both revisions of the file:
    the multi-fork one and the Deneb-only one) and of the constraints cache
    of the [server] package, with the properties of the specification
    stated over it.

    Conventions.
    - A Go [[]byte] and a Go [string] are lists of [Byte.byte].
    - A Go [error] result is an [option error] ([None] is [nil]); a function
      that returns [(value, error)] is a [res]; a run-time panic is the third
      outcome of [res].
    - A Go pointer that may be [nil] is an [option]; a slice whose nil-ness
      is observable (it is printed as [null]) is a [slice].
    - A Go map is a reference: the maps of the cache live in a store and are
      named by locations. *)

From Stdlib Require Import ZArith NArith List Bool Lia.
From Stdlib Require Import Strings.Byte Strings.String DecimalPos DecimalN.
From stdpp Require Import base option list gmap.

Import ListNotations.
Local Open Scope Z_scope.
Set Warnings "-register-all".

(* ================================================================== *)
(** * Bytes *)

#[global] Instance byte_eq_dec : EqDecision byte := Byte.byte_eq_dec.

(** A byte string written as a string literal. *)
Definition bs (s : string) : list byte := list_byte_of_string s.

(** The value of a byte, as Go's [int(c)]. *)
Definition code (c : byte) : N := Byte.to_N c.

(** The byte of a number below 256. *)
Definition byte_of (n : N) : byte :=
  match Byte.of_N n with Some b => b | None => x00 end.

Definition quote : byte := x22.      (* the double quote *)
Definition backslash : byte := x5c.  (* the backslash *)

(** [bytes.HasPrefix] *)
Fixpoint HasPrefix (s prefix : list byte) : bool :=
  match prefix, s with
  | [], _ => true
  | p :: prefix', c :: s' => bool_decide (c = p) && HasPrefix s' prefix'
  | _ :: _, [] => false
  end.

(** [bytes.HasSuffix] *)
Definition HasSuffix (s suffix : list byte) : bool :=
  HasPrefix (rev s) (rev suffix).

(** [strings.TrimPrefix] *)
Definition TrimPrefix (s prefix : list byte) : list byte :=
  if HasPrefix s prefix then drop (length prefix) s else s.

(* ================================================================== *)
(** * Errors and outcomes *)

(** [consensusSpec.DataVersion], an unsigned integer whose zero value is
    not one of the forks of a builder bid. *)
Inductive DataVersion :=
| DataVersionUnknown
| DataVersionPhase0
| DataVersionAltair
| DataVersionBellatrix
| DataVersionCapella
| DataVersionDeneb
| DataVersionElectra.

#[global] Instance DataVersion_eq_dec : EqDecision DataVersion.
Proof. solve_decision. Defined.

(** The errors the package creates or hands on, one constructor per
    [errors.New] / [fmt.Errorf] site or library error. *)
Inductive error :=
| ErrInputMissing                       (* "input missing" *)
| ErrInvalidPrefix                      (* "invalid prefix" *)
| ErrInvalidSuffix                      (* "invalid suffix" *)
| ErrNilTransaction                     (* "cannot add nil transaction" *)
| ErrUnknownDataVersion (v : DataVersion)
    (* MarshalJSON: "unknown [or unsupported] data version %d" *)
| ErrFailedToUnmarshal (v : DataVersion)
    (* UnmarshalJSON: "failed to unmarshal VersionedSignedBuilderBidWithProofs: ..." *)
| ErrUnrecognisedDataVersion (tok : list byte)
    (* DataVersion.UnmarshalJSON: "unrecognised data version %s" *)
| ErrJSONSyntax                         (* json.SyntaxError *)
| ErrJSONType                           (* json.UnmarshalTypeError *)
| ErrExternal (msg : list byte).        (* an error of an external codec *)

(** The taxonomy of the specification. *)
Inductive ErrorKind :=
| MalformedInput
| DecodeError
| UnsupportedVersion
| InvalidHexEncoding.

Definition error_kind (e : error) : ErrorKind :=
  match e with
  | ErrInputMissing | ErrInvalidPrefix | ErrInvalidSuffix => InvalidHexEncoding
  | ErrNilTransaction => MalformedInput
  | ErrUnknownDataVersion _ | ErrFailedToUnmarshal _
  | ErrUnrecognisedDataVersion _ => UnsupportedVersion
  | ErrJSONSyntax | ErrJSONType | ErrExternal _ => DecodeError
  end.

Inductive panic :=
| NilPointerDereference   (* "invalid memory address or nil pointer dereference" *)
| NilMapAssignment.       (* "assignment to entry in nil map" *)

(** The outcome of a call that returns [(value, error)]. *)
Inductive res (A : Type) :=
| Ok (a : A)
| Err (e : error)
| Panic (p : panic).
Arguments Ok {A} a.
Arguments Err {A} e.
Arguments Panic {A} p.

#[global] Instance res_ret : MRet res := fun A a => Ok a.
#[global] Instance res_bind : MBind res := fun A B f m =>
  match m with
  | Ok a => f a
  | Err e => Err e
  | Panic p => Panic p
  end.

(** The outcome of a method that returns an [error] only. *)
Definition failed {A} (r : res A) : res unit :=
  match r with
  | Ok _ => Ok tt
  | Err e => Err e
  | Panic p => Panic p
  end.

(** A Go slice: [None] is the nil slice. *)
Definition slice (A : Type) : Type := option (list A).

(** The elements of a slice, as [range] and [len] see them. *)
Definition elems {A} (s : slice A) : list A := default [] s.

(* ================================================================== *)
(** * encoding/hex and the [%#x] verb *)

Module hex.

(** [reverseHexTable]: the value of a hexadecimal digit; [None] stands
    for the table's 0xff. *)
Definition fromHexChar (c : byte) : option N :=
  let n := code c in
  if (48 <=? n)%N && (n <=? 57)%N then Some (n - 48)%N
  else if (97 <=? n)%N && (n <=? 102)%N then Some (n - 87)%N
  else if (65 <=? n)%N && (n <=? 70)%N then Some (n - 55)%N
  else None.

Inductive decode_error :=
| InvalidByteError (c : byte)
| ErrLength.

(** [(a << 4) | b] *)
Definition join (a b : N) : byte := byte_of (N.lor (N.shiftl a 4) b).

(** [hex.DecodeString]: the bytes decoded before the first error, and
    that error. *)
Fixpoint DecodeString (src : list byte) : list byte * option decode_error :=
  match src with
  | [] => ([], None)
  | [p] =>
      match fromHexChar p with
      | None => ([], Some (InvalidByteError p))
      | Some _ => ([], Some ErrLength)
      end
  | p :: q :: rest =>
      match fromHexChar p, fromHexChar q with
      | None, _ => ([], Some (InvalidByteError p))
      | Some _, None => ([], Some (InvalidByteError q))
      | Some a, Some b =>
          let '(out, e) := DecodeString rest in (join a b :: out, e)
      end
  end.

(** ["0123456789abcdef"[n]] *)
Definition digit (n : N) : byte :=
  if (n <? 10)%N then byte_of (48 + n) else byte_of (87 + n).

Fixpoint digits (b : list byte) : list byte :=
  match b with
  | [] => []
  | c :: b' => digit (N.shiftr (code c) 4) :: digit (N.land (code c) 15) :: digits b'
  end.

(** [fmt.Sprintf("%#x", b)]: nothing at all for an empty slice, the
    digits after a single [0x] otherwise. *)
Definition sharp_x (b : list byte) : list byte :=
  match b with
  | [] => []
  | _ :: _ => bs "0x" ++ digits b
  end.

End hex.

(* ================================================================== *)
(** * unicode/utf8 and unicode/utf16, as far as encoding/json uses them *)

Module utf8.

Definition RuneError : N := 65533.   (* U+FFFD *)
Definition MaxRune : N := 1114111.   (* U+10FFFF *)

Definition between (lo hi : N) (c : byte) : bool :=
  (lo <=? code c)%N && (code c <=? hi)%N.

Definition cont : byte -> bool := between 128 191.

(** [utf8.DecodeRune] on a lead byte above 0x7f: the size of the
    well-formed sequence that starts [s], or [0] where Go answers
    [(RuneError, 1)]. *)
Definition seq_size (s : list byte) : nat :=
  match s with
  | b0 :: b1 :: tl =>
      let two := between 194 223 b0 && cont b1 in
      let second3 :=
        (between 224 224 b0 && between 160 191 b1)
        || ((between 225 236 b0 || between 238 239 b0) && cont b1)
        || (between 237 237 b0 && between 128 159 b1) in
      let second4 :=
        (between 240 240 b0 && between 144 191 b1)
        || (between 241 243 b0 && cont b1)
        || (between 244 244 b0 && between 128 143 b1) in
      if two then 2%nat
      else match tl with
           | b2 :: tl' =>
               if second3 && cont b2 then 3%nat
               else match tl' with
                    | b3 :: _ => if second4 && cont b2 && cont b3 then 4%nat else 0%nat
                    | [] => 0%nat
                    end
           | [] => 0%nat
           end
  | _ => 0%nat
  end.

Definition is_surrogate (r : N) : bool := (55296 <=? r)%N && (r <? 57344)%N.

(** [utf8.EncodeRune] *)
Definition EncodeRune (r : N) : list byte :=
  let r := if is_surrogate r || (MaxRune <? r)%N then RuneError else r in
  if (r <=? 127)%N then [byte_of r]
  else if (r <=? 2047)%N then
    [byte_of (N.lor 192 (N.shiftr r 6)); byte_of (N.lor 128 (N.land r 63))]
  else if (r <=? 65535)%N then
    [byte_of (N.lor 224 (N.shiftr r 12));
     byte_of (N.lor 128 (N.land (N.shiftr r 6) 63));
     byte_of (N.lor 128 (N.land r 63))]
  else
    [byte_of (N.lor 240 (N.shiftr r 18));
     byte_of (N.lor 128 (N.land (N.shiftr r 12) 63));
     byte_of (N.lor 128 (N.land (N.shiftr r 6) 63));
     byte_of (N.lor 128 (N.land r 63))].

(** [utf16.DecodeRune] *)
Definition DecodeSurrogates (r1 r2 : N) : N :=
  if (55296 <=? r1)%N && (r1 <? 56320)%N && (56320 <=? r2)%N && (r2 <? 57344)%N
  then (N.lor (N.shiftl (r1 - 55296) 10) (r2 - 56320) + 65536)%N
  else RuneError.

End utf8.

(* ================================================================== *)
(** * encoding/json: a string literal decoded into a Go string *)

Module jsonstr.

(** The scanner's [isSpace]. *)
Definition isSpace (c : byte) : bool :=
  bool_decide (c = x20) || bool_decide (c = x09)
  || bool_decide (c = x0d) || bool_decide (c = x0a).

(** [getu4] on the four digits that follow a backslash and a [u]. *)
Definition getu4 (a b c d : byte) : option N :=
  match hex.fromHexChar a, hex.fromHexChar b, hex.fromHexChar c, hex.fromHexChar d with
  | Some a, Some b, Some c, Some d => Some (((a * 16 + b) * 16 + c) * 16 + d)%N
  | _, _, _, _ => None
  end.

(** The second half of a surrogate pair, when the text goes on with one. *)
Definition next_u4 (s : list byte) : option N :=
  match s with
  | e :: u :: a :: b :: c :: d :: _ =>
      if bool_decide (e = backslash) && bool_decide (u = x75) then getu4 a b c d else None
  | _ => None
  end.

(** The body of a string literal, read after its opening quote: the
    decoded string and the text left after the closing quote.  The scanner
    of [checkValid] and [unquoteBytes] are run in one pass: an escape other
    than the eight short ones and [u] with four hexadecimal digits, a byte
    below 0x20 and a missing closing quote make the literal invalid; a byte
    above 0x7f is copied when it starts a well-formed UTF-8 sequence
    ([skip] counts the bytes of that sequence still to copy) and replaced by
    U+FFFD otherwise. *)
Fixpoint unquote (skip : nat) (s : list byte) {struct s} : option (list byte * list byte) :=
  match s with
  | [] => None
  | c :: rest =>
      match skip with
      | S k => match unquote k rest with
               | Some (out, tl) => Some (c :: out, tl)
               | None => None
               end
      | O =>
          if bool_decide (c = quote) then Some ([], rest)
          else if bool_decide (c = backslash) then
            match rest with
            | [] => None
            | e :: rest1 =>
                let short (b : byte) :=
                  match unquote 0 rest1 with
                  | Some (out, tl) => Some (b :: out, tl)
                  | None => None
                  end in
                if bool_decide (e = quote) || bool_decide (e = backslash)
                   || bool_decide (e = x2f) then short e
                else if bool_decide (e = x62) then short x08
                else if bool_decide (e = x66) then short x0c
                else if bool_decide (e = x6e) then short x0a
                else if bool_decide (e = x72) then short x0d
                else if bool_decide (e = x74) then short x09
                else if bool_decide (e = x75) then
                  match rest1 with
                  | a :: b :: c' :: d :: rest2 =>
                      match getu4 a b c' d with
                      | None => None
                      | Some rr =>
                          let single (r : N) :=
                            match unquote 0 rest2 with
                            | Some (out, tl) => Some (utf8.EncodeRune r ++ out, tl)
                            | None => None
                            end in
                          if utf8.is_surrogate rr then
                            match next_u4 rest2, rest2 with
                            | Some rr1, _ :: _ :: _ :: _ :: _ :: _ :: rest3 =>
                                let dec := utf8.DecodeSurrogates rr rr1 in
                                if bool_decide (dec = utf8.RuneError) then single utf8.RuneError
                                else match unquote 0 rest3 with
                                     | Some (out, tl) => Some (utf8.EncodeRune dec ++ out, tl)
                                     | None => None
                                     end
                            | _, _ => single utf8.RuneError
                            end
                          else single rr
                      end
                  | _ => None
                  end
                else None
            end
          else if (code c <? 32)%N then None
          else if (code c <? 128)%N then
            match unquote 0 rest with
            | Some (out, tl) => Some (c :: out, tl)
            | None => None
            end
          else
            match utf8.seq_size (c :: rest) with
            | O => match unquote 0 rest with
                   | Some (out, tl) => Some (utf8.EncodeRune utf8.RuneError ++ out, tl)
                   | None => None
                   end
            | S k => match unquote k rest with
                     | Some (out, tl) => Some (c :: out, tl)
                     | None => None
                     end
            end
      end
  end.

Fixpoint skip_space (s : list byte) : list byte :=
  match s with
  | c :: s' => if isSpace c then skip_space s' else s
  | [] => []
  end.

(** What [json.Unmarshal(input, &data)] stores in a [string]: the decoded
    literal when [input] is one JSON string between optional white space,
    and nothing ([None]: [data] keeps its value) when [input] is not valid
    JSON or is a JSON value of another kind. *)
Definition Unmarshal (input : list byte) : option (list byte) :=
  match skip_space input with
  | c :: body =>
      if bool_decide (c = quote) then
        match unquote 0 body with
        | Some (out, tl) => if forallb isSpace tl then Some out else None
        | None => None
        end
      else None
  | [] => None
  end.

End jsonstr.

(* ================================================================== *)
(** * HexBytes *)

Definition HexBytes : Type := list byte.

(** [func (h HexBytes) MarshalJSON() ([]byte, error)] *)
Definition HexBytes_MarshalJSON (h : HexBytes) : res (list byte) :=
  Ok ([quote] ++ hex.sharp_x h ++ [quote]).

(** [func (h *HexBytes) UnmarshalJSON(input []byte) error]: the receiver
    after the call and the error returned. *)
Definition HexBytes_UnmarshalJSON (h : HexBytes) (input : list byte)
  : HexBytes * option error :=
  if bool_decide (length input = 0%nat) then (h, Some ErrInputMissing)
  else if negb (HasPrefix input [quote; x30; x78]) then (h, Some ErrInvalidPrefix)
  else if negb (HasSuffix input [quote]) then (h, Some ErrInvalidSuffix)
  else
    (* var data string; json.Unmarshal(input, &data): the error is dropped *)
    let data := default [] (jsonstr.Unmarshal input) in
    (* res, _ := hex.DecodeString(strings.TrimPrefix(data, "0x")) *)
    let '(res, _) := hex.DecodeString (TrimPrefix data (bs "0x")) in
    (res, None).

(** [bytes.Equal]: the same length and the same bytes; a nil slice and an
    empty one are equal. *)
Fixpoint bytes_Equal (a b : list byte) : bool :=
  match a, b with
  | [], [] => true
  | x :: a', y :: b' => bool_decide (x = y) && bytes_Equal a' b'
  | _, _ => false
  end.

(** [func (h HexBytes) Equal(other HexBytes) bool] *)
Definition HexBytes_Equal (h other : HexBytes) : bool := bytes_Equal h other.

(* ================================================================== *)
(** * InclusionProof and its construction from a multiproof *)

(** [phase0.Hash32] and [phase0.BLSSignature] are byte arrays of a fixed
    size; the size plays no part here. *)
Definition Hash32 : Type := list byte.
Definition BLSSignature : Type := list byte.

(** [fastssz.Multiproof] *)
Record Multiproof := {
  Indices : slice Z;             (* []int *)
  Leaves : slice (list byte);    (* [][]byte *)
  Hashes : slice (list byte);    (* [][]byte *)
}.

Record InclusionProof := {
  TransactionHashes : slice Hash32;
  GeneralizedIndexes : slice Z;            (* []uint64 *)
  MerkleHashes : slice (option HexBytes);  (* []*HexBytes *)
}.

(** The conversion [uint64(idx)] of a Go [int]. *)
Definition uint64 (idx : Z) : Z := idx mod 2 ^ 64.

(** [dst := make([]B, len(src)); for i, x := range src { dst[i] = f(x) }] *)
Definition make_and_fill {A B} (zero : B) (f : A -> B) (src : list A) : list B :=
  foldl (fun dst ix => <[ix.1 := f ix.2]> dst)
        (replicate (length src) zero)
        (imap pair src).

(** [func InclusionProofFromMultiProof(mp *fastSsz.Multiproof) *InclusionProof] *)
Definition InclusionProofFromMultiProof (mp : option Multiproof) : res InclusionProof :=
  match mp with
  | None => Panic NilPointerDereference
  | Some mp =>
      let merkleHashes := make_and_fill None (fun h => Some (h : HexBytes)) (elems (Hashes mp)) in
      let leaves := make_and_fill None (fun h => Some (h : HexBytes)) (elems (Leaves mp)) in
      let generalIndexes := make_and_fill 0 uint64 (elems (Indices mp)) in
      Ok {| TransactionHashes := None;
            GeneralizedIndexes := Some generalIndexes;
            MerkleHashes := Some merkleHashes |}
  end.

(* ================================================================== *)
(** * encoding/json on values *)

(** A JSON text is taken as the value it denotes.  String and number
    tokens keep their literal text, because an [UnmarshalJSON] method is
    handed the raw token; the keys of an object are decoded. *)
Inductive json :=
| JNull
| JBool (b : bool)
| JNumber (lit : list byte)
| JString (lit : list byte)
| JArray (vs : list json)
| JObject (fs : list (list byte * json)).

Module jsonlib.

(** The text of a value in compact form: what an [UnmarshalJSON] method
    receives for it (for an array or an object, up to white space). *)
Fixpoint raw (j : json) : list byte :=
  match j with
  | JNull => bs "null"
  | JBool true => bs "true"
  | JBool false => bs "false"
  | JNumber lit => lit
  | JString lit => lit
  | JArray vs =>
      bs "[" ++ (fix go (l : list json) : list byte :=
                   match l with
                   | [] => []
                   | [v] => raw v
                   | v :: l' => raw v ++ bs "," ++ go l'
                   end) vs ++ bs "]"
  | JObject fs =>
      bs "{" ++ (fix go (l : list (list byte * json)) : list byte :=
                   match l with
                   | [] => []
                   | [(k, v)] => [quote] ++ k ++ [quote] ++ bs ":" ++ raw v
                   | (k, v) :: l' => [quote] ++ k ++ [quote] ++ bs ":" ++ raw v ++ bs "," ++ go l'
                   end) fs ++ bs "}"
  end.

(** Key folding: [foldName] maps the ASCII letters to upper case, and
    the Kelvin sign and the long s to the letters they fold to.  The other
    runes are left as they are: none of them folds to an ASCII letter, and
    the names of the fields are ASCII. *)
Fixpoint foldName (k : list byte) : list byte :=
  match k with
  | [] => []
  | c :: k' =>
      if (97 <=? code c)%N && (code c <=? 122)%N then byte_of (code c - 32) :: foldName k'
      else match k' with
           | d :: k'' =>
               if bool_decide (c = xc5) && bool_decide (d = xbf) then x53 :: foldName k''
               else match k'' with
                    | e :: k3 =>
                        if bool_decide (c = xe2) && bool_decide (d = x84) && bool_decide (e = xaa)
                        then x4b :: foldName k3
                        else c :: foldName k'
                    | [] => c :: foldName k'
                    end
           | [] => [c]
           end
  end.

(** The fields of a Go struct, by their [json] tag: how a value is
    stored into each. *)
Definition fields (S : Type) : Type := list (list byte * (json -> S -> res S)).

(** The field a key selects: an exact match first, a match up to
    folding otherwise. *)
Definition select {S} (fds : fields S) (key : list byte) : option (json -> S -> res S) :=
  match list_find (fun f => f.1 = key) fds with
  | Some (_, f) => Some f.2
  | None =>
      match list_find (fun f => foldName f.1 = foldName key) fds with
      | Some (_, f) => Some f.2
      | None => None
      end
  end.

(** [json.Unmarshal] into a struct whose value is [s] before the call:
    [null] leaves it alone, the members of an object are stored in the
    order of the text (a key that selects no field is skipped), any other
    value is a type error.  The first error ends the call. *)
Definition Unmarshal_struct {S} (fds : fields S) (s : S) (data : json) : res S :=
  match data with
  | JNull => Ok s
  | JObject kvs =>
      foldl (fun acc kv =>
               s ← acc;
               match select fds kv.1 with
               | Some store => store kv.2 s
               | None => Ok s
               end) (Ok s) kvs
  | _ => Err ErrJSONType
  end.

(** Into a pointer: [null] sets it to nil; another value is decoded into
    the pointee, allocated at its zero value when the pointer is nil. *)
Definition Unmarshal_ptr {T} (zero : T) (dec : T -> json -> res T) (p : option T) (data : json)
  : res (option T) :=
  match data with
  | JNull => Ok None
  | _ => t ← dec (default zero p) data; Ok (Some t)
  end.

(** Into a slice: [null] sets it to nil, an array is decoded element by
    element, each into a zero value. *)
Definition Unmarshal_slice {T} (dec : json -> res T) (data : json) : res (slice T) :=
  match data with
  | JNull => Ok None
  | JArray vs => l ← mapM dec vs; Ok (Some l)
  | _ => Err ErrJSONType
  end.

Definition Marshal_ptr {T} (enc : T -> res json) (p : option T) : res json :=
  match p with
  | None => Ok JNull
  | Some t => enc t
  end.

Definition Marshal_slice {T} (enc : T -> res json) (s : slice T) : res json :=
  match s with
  | None => Ok JNull
  | Some l => vs ← mapM enc l; Ok (JArray vs)
  end.

(** The token a [MarshalJSON] method returned, once [json.Marshal] has
    checked it: the methods of this package return string literals. *)
Definition of_literal (lit : list byte) : res json :=
  match jsonstr.Unmarshal lit with
  | Some _ => Ok (JString lit)
  | None => Err ErrJSONSyntax
  end.

(** ** Unsigned integers in decimal *)

Fixpoint digits_of_uint (u : Decimal.uint) : list byte :=
  match u with
  | Decimal.Nil => []
  | Decimal.D0 u => x30 :: digits_of_uint u
  | Decimal.D1 u => x31 :: digits_of_uint u
  | Decimal.D2 u => x32 :: digits_of_uint u
  | Decimal.D3 u => x33 :: digits_of_uint u
  | Decimal.D4 u => x34 :: digits_of_uint u
  | Decimal.D5 u => x35 :: digits_of_uint u
  | Decimal.D6 u => x36 :: digits_of_uint u
  | Decimal.D7 u => x37 :: digits_of_uint u
  | Decimal.D8 u => x38 :: digits_of_uint u
  | Decimal.D9 u => x39 :: digits_of_uint u
  end.

Fixpoint uint_of_digits (l : list byte) : option Decimal.uint :=
  match l with
  | [] => Some Decimal.Nil
  | c :: l' =>
      u ← uint_of_digits l';
      match code c with
      | 48 => Some (Decimal.D0 u) | 49 => Some (Decimal.D1 u)
      | 50 => Some (Decimal.D2 u) | 51 => Some (Decimal.D3 u)
      | 52 => Some (Decimal.D4 u) | 53 => Some (Decimal.D5 u)
      | 54 => Some (Decimal.D6 u) | 55 => Some (Decimal.D7 u)
      | 56 => Some (Decimal.D8 u) | 57 => Some (Decimal.D9 u)
      | _ => None
      end%N
  end.

(** A [uint64] as [json.Marshal] prints it. *)
Definition Marshal_uint64 (n : Z) : res json :=
  Ok (JNumber (digits_of_uint (N.to_uint (Z.to_N n)))).

(** A value stored into a [uint64] that is zero before: [null] leaves it
    alone; for a number token [strconv.ParseUint] accepts decimal digits
    only, and no value above the range of the type. *)
Definition Unmarshal_uint64 (data : json) : res Z :=
  match data with
  | JNull => Ok 0
  | JNumber lit =>
      match lit, uint_of_digits lit with
      | _ :: _, Some u =>
          let n := Z.of_N (N.of_uint u) in
          if n <? 2 ^ 64 then Ok n else Err ErrJSONType
      | _, _ => Err ErrJSONType
      end
  | _ => Err ErrJSONType
  end.

End jsonlib.

(** The JSON methods of a type of another package. *)
Record codec (T : Type) := {
  marshal : T -> res json;       (* [MarshalJSON], checked by [json.Marshal] *)
  unmarshal : json -> res T;     (* [UnmarshalJSON] on a token, into a fresh value *)
}.
Arguments marshal {T} c t.
Arguments unmarshal {T} c j.

(** ** The JSON form of an InclusionProof *)

(** An element of [[]*HexBytes]. *)
Definition HexBytes_ptr_Marshal (p : option HexBytes) : res json :=
  jsonlib.Marshal_ptr (fun h => lit ← HexBytes_MarshalJSON h; jsonlib.of_literal lit) p.

Definition HexBytes_ptr_Unmarshal (data : json) : res (option HexBytes) :=
  jsonlib.Unmarshal_ptr ([] : HexBytes)
    (fun h tok =>
       match HexBytes_UnmarshalJSON h (jsonlib.raw tok) with
       | (h', None) => Ok h'
       | (_, Some e) => Err e
       end) None data.

Section InclusionProofJSON.

Variable Hash32_json : codec Hash32.

(** [json.Marshal] of an [InclusionProof]: the three tagged fields, in
    the order of the struct. *)
Definition InclusionProof_Marshal (p : InclusionProof) : res json :=
  th ← jsonlib.Marshal_slice (marshal Hash32_json) (TransactionHashes p);
  gi ← jsonlib.Marshal_slice jsonlib.Marshal_uint64 (GeneralizedIndexes p);
  mh ← jsonlib.Marshal_slice HexBytes_ptr_Marshal (MerkleHashes p);
  Ok (JObject [(bs "transaction_hashes", th);
               (bs "generalized_indexes", gi);
               (bs "merkle_hashes", mh)]).

Definition InclusionProof_fields : jsonlib.fields InclusionProof :=
  [(bs "transaction_hashes", fun j p =>
      l ← jsonlib.Unmarshal_slice (unmarshal Hash32_json) j;
      Ok {| TransactionHashes := l;
            GeneralizedIndexes := GeneralizedIndexes p;
            MerkleHashes := MerkleHashes p |});
   (bs "generalized_indexes", fun j p =>
      l ← jsonlib.Unmarshal_slice jsonlib.Unmarshal_uint64 j;
      Ok {| TransactionHashes := TransactionHashes p;
            GeneralizedIndexes := l;
            MerkleHashes := MerkleHashes p |});
   (bs "merkle_hashes", fun j p =>
      l ← jsonlib.Unmarshal_slice HexBytes_ptr_Unmarshal j;
      Ok {| TransactionHashes := TransactionHashes p;
            GeneralizedIndexes := GeneralizedIndexes p;
            MerkleHashes := l |})].

Definition InclusionProof_zero : InclusionProof :=
  {| TransactionHashes := None; GeneralizedIndexes := None; MerkleHashes := None |}.

(** [json.Unmarshal] into a [*InclusionProof]. *)
Definition InclusionProof_ptr_Unmarshal (p : option InclusionProof) (data : json)
  : res (option InclusionProof) :=
  jsonlib.Unmarshal_ptr InclusionProof_zero
    (jsonlib.Unmarshal_struct InclusionProof_fields) p data.

End InclusionProofJSON.

(* ================================================================== *)
(** * The versioned bid envelope *)

(** [bellatrix.SignedBuilderBid], [capella.SignedBuilderBid] and
    [deneb.SignedBuilderBid], over the fork's [BuilderBid]. *)
Record SignedBuilderBid (Bid : Type) := {
  Message : option Bid;          (* *BuilderBid *)
  Signature : BLSSignature;
}.
Arguments Message {Bid} s.
Arguments Signature {Bid} s.

(** The zero value of a [BLSSignature]: 96 zero bytes. *)
Definition BLSSignature_zero : BLSSignature := replicate 96 x00.

(** [builderSpec.VersionedSignedBuilderBid] *)
Record VersionedSignedBuilderBid (BellatrixBid CapellaBid DenebBid : Type) := {
  Version : DataVersion;
  Bellatrix : option (SignedBuilderBid BellatrixBid);
  Capella : option (SignedBuilderBid CapellaBid);
  Deneb : option (SignedBuilderBid DenebBid);
}.
Arguments Version {_ _ _} v.
Arguments Bellatrix {_ _ _} v.
Arguments Capella {_ _ _} v.
Arguments Deneb {_ _ _} v.

Record VersionedSignedBuilderBidWithProofs (BellatrixBid CapellaBid DenebBid : Type) := {
  Proofs : option InclusionProof;
  (* the embedded *builderSpec.VersionedSignedBuilderBid *)
  Embedded : option (VersionedSignedBuilderBid BellatrixBid CapellaBid DenebBid);
}.
Arguments Proofs {_ _ _} v.
Arguments Embedded {_ _ _} v.

(** The JSON methods of the types of go-eth2-client and go-builder-client
    that the envelope relies on. *)
Class Externals (BellatrixBid CapellaBid DenebBid : Type) := {
  DataVersion_json : codec DataVersion;
  Hash32_json : codec Hash32;
  BLSSignature_json : codec BLSSignature;
  BellatrixBid_json : codec BellatrixBid;
  CapellaBid_json : codec CapellaBid;
  DenebBid_json : codec DenebBid;
  BellatrixSigned_json : codec (SignedBuilderBid BellatrixBid);
  CapellaSigned_json : codec (SignedBuilderBid CapellaBid);
  DenebSigned_json : codec (SignedBuilderBid DenebBid);
}.

Section Envelope.

Context {BellatrixBid CapellaBid DenebBid : Type}.
Context `{!Externals BellatrixBid CapellaBid DenebBid}.

#[local] Abbreviation VSBB := (VersionedSignedBuilderBid BellatrixBid CapellaBid DenebBid).
#[local] Abbreviation Envelope := (VersionedSignedBuilderBidWithProofs BellatrixBid CapellaBid DenebBid).

(** [json.Marshal(struct{ Message; Signature; Proofs }{...})], the object
    every branch of [MarshalJSON] emits. *)
Definition Marshal_bid {Bid} (c : codec Bid)
    (message : option Bid) (signature : BLSSignature) (proofs : option InclusionProof)
  : res json :=
  m ← jsonlib.Marshal_ptr (marshal c) message;
  s ← marshal BLSSignature_json signature;
  p ← jsonlib.Marshal_ptr (InclusionProof_Marshal Hash32_json) proofs;
  Ok (JObject [(bs "message", m); (bs "signature", s); (bs "proofs", p)]).

(** [&builderSpec.VersionedSignedBuilderBid{}] *)
Definition VSBB_zero : VSBB :=
  {| Version := DataVersionUnknown; Bellatrix := None; Capella := None; Deneb := None |}.

Definition SignedBuilderBid_zero {Bid} : SignedBuilderBid Bid :=
  {| Message := None; Signature := BLSSignature_zero |}.

(** A pointer to a type with an [UnmarshalJSON] method of its own. *)
Definition Unmarshal_ext_ptr {T} (c : codec T) (data : json) : res (option T) :=
  match data with
  | JNull => Ok None
  | _ => t ← unmarshal c data; Ok (Some t)
  end.

End Envelope.

(** ** The multi-fork revision of proofs.go *)

Module MultiFork.
Section Rev.

Context {BellatrixBid CapellaBid DenebBid : Type}.
Context `{!Externals BellatrixBid CapellaBid DenebBid}.

#[local] Abbreviation VSBB := (VersionedSignedBuilderBid BellatrixBid CapellaBid DenebBid).
#[local] Abbreviation Envelope := (VersionedSignedBuilderBidWithProofs BellatrixBid CapellaBid DenebBid).

(** [func (v *VersionedSignedBuilderBidWithProofs) MarshalJSON() ([]byte, error)] *)
Definition MarshalJSON (v : Envelope) : res json :=
  match Embedded v with
  | None => Panic NilPointerDereference
  | Some b =>
      match Version b with
      | DataVersionBellatrix =>
          match Bellatrix b with
          | None => Panic NilPointerDereference
          | Some sb => Marshal_bid BellatrixBid_json (Message sb) (Signature sb) (Proofs v)
          end
      | DataVersionCapella =>
          match Capella b with
          | None => Panic NilPointerDereference
          | Some sb => Marshal_bid CapellaBid_json (Message sb) (Signature sb) (Proofs v)
          end
      | DataVersionDeneb =>
          match Deneb b with
          | None => Panic NilPointerDereference
          | Some sb => Marshal_bid DenebBid_json (Message sb) (Signature sb) (Proofs v)
          end
      | ver => Err (ErrUnknownDataVersion ver)
      end
  end.

(** [var partialBid struct { Version; Proofs }] *)
Record partialBid := {
  partial_Version : DataVersion;
  partial_Proofs : option InclusionProof;
}.

Definition partialBid_zero : partialBid :=
  {| partial_Version := DataVersionUnknown; partial_Proofs := None |}.

Definition partialBid_fields : jsonlib.fields partialBid :=
  [(bs "version", fun j s =>
      ver ← unmarshal DataVersion_json j;
      Ok {| partial_Version := ver; partial_Proofs := partial_Proofs s |});
   (bs "proofs", fun j s =>
      p ← InclusionProof_ptr_Unmarshal Hash32_json (partial_Proofs s) j;
      Ok {| partial_Version := partial_Version s; partial_Proofs := p |})].

(** The first pass: [json.Unmarshal(data, &partialBid)]. *)
Definition first_pass (data : json) : res partialBid :=
  jsonlib.Unmarshal_struct partialBid_fields partialBid_zero data.

(** [var dataBid struct { Message *SignedBuilderBid `json:"data"` }] and
    the second pass [json.Unmarshal(data, &dataBid)]. *)
Definition dataBid_fields {Bid} (c : codec (SignedBuilderBid Bid))
  : jsonlib.fields (option (SignedBuilderBid Bid)) :=
  [(bs "data", fun j _ => Unmarshal_ext_ptr c j)].

Definition second_pass {Bid} (c : codec (SignedBuilderBid Bid)) (data : json)
  : res (option (SignedBuilderBid Bid)) :=
  jsonlib.Unmarshal_struct (dataBid_fields c) None data.

(** [func (v *VersionedSignedBuilderBidWithProofs) UnmarshalJSON(data []byte) error]:
    the receiver after the call, and the outcome ([Ok tt] is a nil error). *)
Definition UnmarshalJSON (v : Envelope) (data : json) : Envelope * res unit :=
  match first_pass data with
  | Ok partialBid =>
      (* v.VersionedSignedBuilderBid = &builderSpec.VersionedSignedBuilderBid{} *)
      let v := {| Proofs := Proofs v; Embedded := Some VSBB_zero |} in
      if decide (partial_Version partialBid = DataVersionDeneb) then
        match second_pass DenebSigned_json data with
        | Ok message =>
            ({| Proofs := partial_Proofs partialBid;
                Embedded := Some {| Version := partial_Version partialBid;
                                    Bellatrix := None; Capella := None;
                                    Deneb := message |} |}, Ok tt)
        | r => (v, failed r)
        end
      else if decide (partial_Version partialBid = DataVersionCapella) then
        match second_pass CapellaSigned_json data with
        | Ok message =>
            ({| Proofs := partial_Proofs partialBid;
                Embedded := Some {| Version := partial_Version partialBid;
                                    Bellatrix := None; Capella := message;
                                    Deneb := None |} |}, Ok tt)
        | r => (v, failed r)
        end
      else if decide (partial_Version partialBid = DataVersionBellatrix) then
        match second_pass BellatrixSigned_json data with
        | Ok message =>
            ({| Proofs := partial_Proofs partialBid;
                Embedded := Some {| Version := partial_Version partialBid;
                                    Bellatrix := message; Capella := None;
                                    Deneb := None |} |}, Ok tt)
        | r => (v, failed r)
        end
      else
        (* fmt.Errorf("failed to unmarshal VersionedSignedBuilderBidWithProofs: %v", err) *)
        (v, Err (ErrFailedToUnmarshal (partial_Version partialBid)))
  | r => (v, failed r)
  end.

(** The versions [MarshalJSON] and [UnmarshalJSON] have a branch for. *)
Definition supported (ver : DataVersion) : bool :=
  match ver with
  | DataVersionBellatrix | DataVersionCapella | DataVersionDeneb => true
  | _ => false
  end.

End Rev.
End MultiFork.

(** ** The Deneb-only revision of proofs.go *)

Module DenebOnly.
Section Rev.

Context {BellatrixBid CapellaBid DenebBid : Type}.
Context `{!Externals BellatrixBid CapellaBid DenebBid}.

#[local] Abbreviation VSBB := (VersionedSignedBuilderBid BellatrixBid CapellaBid DenebBid).
#[local] Abbreviation Envelope := (VersionedSignedBuilderBidWithProofs BellatrixBid CapellaBid DenebBid).

(** [func (v *VersionedSignedBuilderBidWithProofs) MarshalJSON() ([]byte, error)] *)
Definition MarshalJSON (v : Envelope) : res json :=
  match Embedded v with
  | None => Panic NilPointerDereference
  | Some b =>
      match Version b with
      | DataVersionDeneb =>
          match Deneb b with
          | None => Panic NilPointerDereference
          | Some sb => Marshal_bid DenebBid_json (Message sb) (Signature sb) (Proofs v)
          end
      | ver => Err (ErrUnknownDataVersion ver)
      end
  end.

(** [var partialBid struct { Version }] and the first pass. *)
Definition partialBid_fields : jsonlib.fields DataVersion :=
  [(bs "version", fun j _ => unmarshal DataVersion_json j)].

Definition first_pass (data : json) : res DataVersion :=
  jsonlib.Unmarshal_struct partialBid_fields DataVersionUnknown data.

(** [var dataBid struct { Data struct { Message; Signature; Proofs } `json:"data"` }] *)
Record dataBid := {
  Data_Message : option DenebBid;
  Data_Signature : BLSSignature;
  Data_Proofs : option InclusionProof;
}.

Definition dataBid_zero : dataBid :=
  {| Data_Message := None; Data_Signature := BLSSignature_zero; Data_Proofs := None |}.

Definition Data_fields : jsonlib.fields dataBid :=
  [(bs "message", fun j s =>
      m ← Unmarshal_ext_ptr DenebBid_json j;
      Ok {| Data_Message := m; Data_Signature := Data_Signature s; Data_Proofs := Data_Proofs s |});
   (bs "signature", fun j s =>
      sig ← unmarshal BLSSignature_json j;
      Ok {| Data_Message := Data_Message s; Data_Signature := sig; Data_Proofs := Data_Proofs s |});
   (bs "proofs", fun j s =>
      p ← InclusionProof_ptr_Unmarshal Hash32_json (Data_Proofs s) j;
      Ok {| Data_Message := Data_Message s; Data_Signature := Data_Signature s; Data_Proofs := p |})].

Definition dataBid_fields : jsonlib.fields dataBid :=
  [(bs "data", fun j s => jsonlib.Unmarshal_struct Data_fields s j)].

(** The second pass: [json.Unmarshal(data, &dataBid)]. *)
Definition second_pass (data : json) : res dataBid :=
  jsonlib.Unmarshal_struct dataBid_fields dataBid_zero data.

(** [func (v *VersionedSignedBuilderBidWithProofs) UnmarshalJSON(data []byte) error]:
    the receiver after the call, and the outcome ([Ok tt] is a nil error). *)
Definition UnmarshalJSON (v : Envelope) (data : json) : Envelope * res unit :=
  match first_pass data with
  | Ok version =>
      match version with
      | DataVersionDeneb =>
          match second_pass data with
          | Ok d =>
              ({| Proofs := Data_Proofs d;
                  Embedded := Some {| Version := version;
                                      Bellatrix := None; Capella := None;
                                      Deneb := Some {| Message := Data_Message d;
                                                       Signature := Data_Signature d |} |} |},
               Ok tt)
          | r => (v, failed r)
          end
      | _ => (v, Err (ErrFailedToUnmarshal version))
      end
  | r => (v, failed r)
  end.

Definition supported (ver : DataVersion) : bool :=
  match ver with
  | DataVersionDeneb => true
  | _ => false
  end.

End Rev.
End DenebOnly.

(* ================================================================== *)
(** * hashicorp/golang-lru: the bounded cache *)

Module lru.

(** The entries of the eviction list, the most recently used first. *)
Record Cache (V : Type) := {
  size : Z;
  items : list (Z * V);
}.
Arguments size {V} c.
Arguments items {V} c.

(** [lru.New]: no cache (and an error) unless the size is positive. *)
Definition New {V} (size : Z) : option (Cache V) :=
  if size <=? 0 then None else Some {| size := size; items := [] |}.

Fixpoint find {V} (key : Z) (l : list (Z * V)) : option V :=
  match l with
  | [] => None
  | (k, v) :: l' => if decide (k = key) then Some v else find key l'
  end.

Fixpoint remove {V} (key : Z) (l : list (Z * V)) : list (Z * V) :=
  match l with
  | [] => []
  | (k, v) :: l' => if decide (k = key) then l' else (k, v) :: remove key l'
  end.

(** [Get]: a hit moves the entry to the front. *)
Definition Get {V} (c : Cache V) (key : Z) : Cache V * option V :=
  match find key (items c) with
  | Some v => ({| size := size c; items := (key, v) :: remove key (items c) |}, Some v)
  | None => (c, None)
  end.

(** [removeOldest] *)
Definition removeOldest {V} (l : list (Z * V)) : list (Z * V) := removelast l.

(** [Add]: an entry that exists is moved to the front with the new value;
    a new entry is pushed to the front, and the oldest one is removed when
    the list has grown beyond the size.  The flag tells an eviction. *)
Definition Add {V} (c : Cache V) (key : Z) (value : V) : Cache V * bool :=
  match find key (items c) with
  | Some _ => ({| size := size c; items := (key, value) :: remove key (items c) |}, false)
  | None =>
      let l := (key, value) :: items c in
      let evict := bool_decide (size c < Z.of_nat (length l)) in
      ({| size := size c; items := if evict then removeOldest l else l |}, evict)
  end.

(** [Values]: from the oldest to the newest, no entry is touched. *)
Definition Values {V} (c : Cache V) : list V := rev (map snd (items c)).

(** [Keys]: from the oldest to the newest. *)
Definition Keys {V} (c : Cache V) : list Z := rev (map fst (items c)).

End lru.

(* ================================================================== *)
(** * The constraints cache *)

#[global] Instance byte_countable : Countable byte :=
  inj_countable Byte.to_N Byte.of_N Byte.of_to_N.

(** [gethCommon.Hash] *)
Definition Hash : Type := list byte.

(** Modelled from the spec: the declaration of [HexTransaction] is in a
    file of the package that is not at hand; the specification has it as the
    raw bytes of a transaction. *)
Definition HexTransaction : Type := list byte.

(** [types.Transaction] of go-ethereum and the methods the cache calls. *)
Class TxCodec := {
  Transaction : Type;
  UnmarshalBinary : list byte -> res Transaction;
  WithoutBlobTxSidecar : Transaction -> Transaction;
  MarshalBinary : Transaction -> res (list byte);
  TxHash : Transaction -> Hash;
}.

(** A map value is a reference: a location of the store, or the nil map. *)
Definition loc : Type := positive.
Definition mapref : Type := option loc.

(** [TransactionHashMap = map[gethCommon.Hash]*HexTransaction], as stored. *)
Abbreviation TransactionHashMap := (gmap Hash HexTransaction).

(** A [*ConstraintsCache] with the maps it can reach: [constraints] is
    [None] when [lru.New] returned no cache. *)
Record ConstraintsCache := {
  store : gmap loc TransactionHashMap;
  constraints : option (lru.Cache mapref);
}.

(** [func NewConstraintsCache(cap int) *ConstraintsCache] *)
Definition NewConstraintsCache (cap : Z) : ConstraintsCache :=
  {| store := ∅; constraints := lru.New cap |}.

(** Reading [m[h]]; a nil map has no entry. *)
Definition map_lookup (st : gmap loc TransactionHashMap) (m : mapref) (h : Hash)
  : option HexTransaction :=
  match m with
  | None => None
  | Some l => match st !! l with Some tm => tm !! h | None => None end
  end.

Section Cache.

Context `{TxCodec}.

(** The loop of [AddInclusionConstraints] over the rest of the
    transactions, writing through [m]. *)
Fixpoint add_loop (m : mapref) (transactions : list (option HexTransaction))
    (st : gmap loc TransactionHashMap) : gmap loc TransactionHashMap * res unit :=
  match transactions with
  | [] => (st, Ok tt)
  | None :: _ => (st, Err ErrNilTransaction)
  | Some txRaw :: rest =>
      match UnmarshalBinary txRaw with
      | Ok txDecoded =>
          let txDecoded := WithoutBlobTxSidecar txDecoded in
          match MarshalBinary txDecoded with
          | Ok txWithoutblobSidecarRaw =>
              (* m[txDecoded.Hash()] = &hex *)
              match m with
              | None => (st, Panic NilMapAssignment)
              | Some l =>
                  add_loop m rest
                    (alter (insert (TxHash txDecoded) txWithoutblobSidecarRaw) l st)
              end
          | r => (st, failed r)
          end
      | r => (st, failed r)
      end
  end.

(** [func (c *ConstraintsCache) AddInclusionConstraints(slot uint64,
    transactions []*HexTransaction) error] *)
Definition AddInclusionConstraints (c : ConstraintsCache) (slot : Z)
    (transactions : list (option HexTransaction)) : ConstraintsCache * res unit :=
  if bool_decide (length transactions = 0%nat) then (c, Ok tt)
  else
    match constraints c with
    | None => (c, Panic NilPointerDereference)
    | Some cache =>
        (* m, exists := c.constraints.Get(slot) *)
        let '(cache, got) := lru.Get cache slot in
        let m : mapref := default None got in
        let '(st, cache) :=
          match got with
          | Some _ => (store c, cache)
          | None =>
              (* c.constraints.Add(slot, make(TransactionHashMap)) *)
              let l := fresh (dom (store c)) in
              (<[l := ∅]> (store c), (lru.Add cache slot (Some l)).1)
          end in
        let '(st, r) := add_loop m transactions st in
        ({| store := st; constraints := Some cache |}, r)
    end.

(** [func (c *ConstraintsCache) Get(slot uint64) (TransactionHashMap, bool)] *)
Definition Get (c : ConstraintsCache) (slot : Z) : ConstraintsCache * res (mapref * bool) :=
  match constraints c with
  | None => (c, Panic NilPointerDereference)
  | Some cache =>
      let '(cache, got) := lru.Get cache slot in
      ({| store := store c; constraints := Some cache |},
       Ok (default None got, bool_decide (is_Some got)))
  end.

(** [for _, hashToTx := range values { if tx, exists := hashToTx[txHash];
    exists { return tx, true } }; return nil, false] *)
Fixpoint scan (st : gmap loc TransactionHashMap) (txHash : Hash) (values : list mapref)
  : option HexTransaction :=
  match values with
  | [] => None
  | hashToTx :: rest =>
      match map_lookup st hashToTx txHash with
      | Some tx => Some tx
      | None => scan st txHash rest
      end
  end.

(** [func (c *ConstraintsCache) FindTransactionByHash(txHash gethCommon.Hash)],
    which returns a [*HexTransaction] and a flag: the pointer is [Some]
    exactly when the flag is true. *)
Definition FindTransactionByHash (c : ConstraintsCache) (txHash : Hash)
  : ConstraintsCache * res (option HexTransaction) :=
  match constraints c with
  | None => (c, Panic NilPointerDereference)
  | Some cache => (c, Ok (scan (store c) txHash (lru.Values cache)))
  end.

(** The map a slot is bound to, as a later [Get] would return it. *)
Definition slot_map (c : ConstraintsCache) (slot : Z) : option TransactionHashMap :=
  match (Get c slot).2 with
  | Ok (Some l, true) => store c !! l
  | _ => None
  end.


End Cache.

(* ================================================================== *)
(** * Sample instances of the external codecs

    Concrete stand-ins for the JSON methods of go-eth2-client and
    go-builder-client and for the transaction codec of go-ethereum, used to
    run the definitions on concrete inputs. *)

Module Sample.

(** A string literal around [s]. *)
Definition q (s : string) : list byte := [quote] ++ bs s ++ [quote].

(** [strings.ToLower] on ASCII text. *)
Definition ToLower (s : list byte) : list byte :=
  map (fun c => if (65 <=? code c)%N && (code c <=? 90)%N then byte_of (code c + 32) else c) s.

(** [DataVersion.MarshalJSON] and [DataVersion.UnmarshalJSON]: the name of
    the version, quoted, read back without regard to case. *)
Definition DataVersion_name (v : DataVersion) : list byte :=
  match v with
  | DataVersionUnknown => q "unknown"
  | DataVersionPhase0 => q "phase0"
  | DataVersionAltair => q "altair"
  | DataVersionBellatrix => q "bellatrix"
  | DataVersionCapella => q "capella"
  | DataVersionDeneb => q "deneb"
  | DataVersionElectra => q "electra"
  end.

Definition DataVersion_codec : codec DataVersion :=
  {| marshal v := Ok (JString (DataVersion_name v));
     unmarshal j :=
       let tok := ToLower (jsonlib.raw j) in
       match list_find (fun v => DataVersion_name v = tok)
               [DataVersionPhase0; DataVersionAltair; DataVersionBellatrix;
                DataVersionCapella; DataVersionDeneb; DataVersionElectra] with
       | Some (_, v) => Ok v
       | None => Err (ErrUnrecognisedDataVersion (jsonlib.raw j))
       end |}.

(** Byte arrays printed in hexadecimal, as [HexBytes] are. *)
Definition hex_codec : codec (list byte) :=
  {| marshal h := lit ← HexBytes_MarshalJSON h; jsonlib.of_literal lit;
     unmarshal j :=
       match HexBytes_UnmarshalJSON [] (jsonlib.raw j) with
       | (h, None) => Ok h
       | (_, Some e) => Err e
       end |}.

(** A signed bid as the object of its two members. *)
Definition signed_codec : codec (SignedBuilderBid (list byte)) :=
  {| marshal sb :=
       m ← jsonlib.Marshal_ptr (marshal hex_codec) (Message sb);
       s ← marshal hex_codec (Signature sb);
       Ok (JObject [(bs "message", m); (bs "signature", s)]);
     unmarshal j :=
       jsonlib.Unmarshal_struct
         [(bs "message", fun j sb =>
             m ← Unmarshal_ext_ptr hex_codec j;
             Ok {| Message := m; Signature := Signature sb |});
          (bs "signature", fun j sb =>
             s ← unmarshal hex_codec j;
             Ok {| Message := Message sb; Signature := s |})]
         SignedBuilderBid_zero j |}.

#[global] Instance externals : Externals (list byte) (list byte) (list byte) :=
  {| DataVersion_json := DataVersion_codec;
     Hash32_json := hex_codec;
     BLSSignature_json := hex_codec;
     BellatrixBid_json := hex_codec;
     CapellaBid_json := hex_codec;
     DenebBid_json := hex_codec;
     BellatrixSigned_json := signed_codec;
     CapellaSigned_json := signed_codec;
     DenebSigned_json := signed_codec |}.

Abbreviation Envelope := (VersionedSignedBuilderBidWithProofs (list byte) (list byte) (list byte)).

Definition capella_envelope (message : option (list byte)) (signature : BLSSignature)
    (proofs : option InclusionProof) : Envelope :=
  {| Proofs := proofs;
     Embedded := Some {| Version := DataVersionCapella;
                         Bellatrix := None;
                         Capella := Some {| Message := message; Signature := signature |};
                         Deneb := None |} |}.

(** The receiver of a decoding: [new(VersionedSignedBuilderBidWithProofs)]. *)
Definition blank : Envelope := {| Proofs := None; Embedded := None |}.

Definition proof1 : InclusionProof :=
  {| TransactionHashes := Some [[x11; x22]];
     GeneralizedIndexes := Some [5; 12];
     MerkleHashes := Some [Some [xab; xcd]; None] |}.

(** A transaction codec: a raw transaction is its body, after the byte
    0xff when a sidecar is attached; the hash is taken on the body. *)
Record tx := { body : list byte; sidecar : bool }.

#[global] Instance tx_codec : TxCodec :=
  {| Transaction := tx;
     UnmarshalBinary raw :=
       match raw with
       | [] => Err (ErrExternal (bs "empty transaction"))
       | c :: raw' =>
           if bool_decide (c = xff) then
             match raw' with
             | [] => Err (ErrExternal (bs "empty transaction"))
             | _ => Ok {| body := raw'; sidecar := true |}
             end
           else Ok {| body := raw; sidecar := false |}
       end;
     WithoutBlobTxSidecar t := {| body := body t; sidecar := false |};
     MarshalBinary t := Ok (if sidecar t then xff :: body t else body t);
     TxHash t := body t |}.

(** A cache of capacity 4 in which the slot 5 is bound to an empty map. *)
Definition cache_with_slot_5 : ConstraintsCache :=
  (AddInclusionConstraints (NewConstraintsCache 4) 5 [None]).1.

End Sample.

(* ================================================================== *)
(** * Vocabulary of the statements *)

(** A byte that stands for itself inside a JSON string literal. *)
Definition plain (c : byte) : bool :=
  (32 <=? code c)%N && (code c <? 128)%N
  && negb (bool_decide (c = quote)) && negb (bool_decide (c = backslash)).

(** The wire form of a byte array whose digits are [payload]. *)
Definition hex_literal (payload : list byte) : list byte :=
  [quote] ++ bs "0x" ++ payload ++ [quote].

(** A value that its codec prints and reads back. *)
Definition roundtrips {T} (c : codec T) (x : T) : Prop :=
  exists j, marshal c x = Ok j /\ j <> JNull /\ unmarshal c j = Ok x.

(** An inclusion proof whose parts are read back as they were printed: the
    transaction hashes by their codec, the indices as values of a [uint64],
    and no sibling hash is an empty array. *)
Definition proof_on_wire (Hash32_json : codec Hash32) (p : InclusionProof) : Prop :=
  Forall (roundtrips Hash32_json) (elems (TransactionHashes p))
  /\ Forall (fun n => 0 <= n < 2 ^ 64) (elems (GeneralizedIndexes p))
  /\ Forall (fun h => h <> Some []) (elems (MerkleHashes p)).

(** The wire form [UnmarshalJSON] of the Deneb-only revision reads: the
    version and, under [data], the object of the bid. *)
Definition wrapped (version bid : json) : json :=
  JObject [(bs "version", version); (bs "data", bid)].

(** A Deneb envelope, only that payload populated. *)
Definition deneb_envelope {B C D : Type} (message : option D) (signature : BLSSignature)
    (proofs : option InclusionProof) : VersionedSignedBuilderBidWithProofs B C D :=
  {| Proofs := proofs;
     Embedded := Some {| Version := DataVersionDeneb;
                         Bellatrix := None; Capella := None;
                         Deneb := Some {| Message := message; Signature := signature |} |} |}.

(** The slots of the cache, the most recently used first. *)
Definition cached_slots (c : ConstraintsCache) : list Z :=
  match constraints c with
  | Some cache => map fst (lru.items cache)
  | None => []
  end.

(** A slot is retrievable when [Get] finds it. *)
Definition retrievable (c : ConstraintsCache) (slot : Z) : Prop :=
  exists m, (Get c slot).2 = Ok (m, true).

(** An envelope of a fork, only that payload populated. *)
Definition bellatrix_envelope {B C D : Type} (bid : option (SignedBuilderBid B))
    (proofs : option InclusionProof) : VersionedSignedBuilderBidWithProofs B C D :=
  {| Proofs := proofs;
     Embedded := Some {| Version := DataVersionBellatrix;
                         Bellatrix := bid; Capella := None; Deneb := None |} |}.

Definition capella_envelope {B C D : Type} (bid : option (SignedBuilderBid C))
    (proofs : option InclusionProof) : VersionedSignedBuilderBidWithProofs B C D :=
  {| Proofs := proofs;
     Embedded := Some {| Version := DataVersionCapella;
                         Bellatrix := None; Capella := bid; Deneb := None |} |}.

Definition deneb_envelope_of {B C D : Type} (bid : option (SignedBuilderBid D))
    (proofs : option InclusionProof) : VersionedSignedBuilderBidWithProofs B C D :=
  {| Proofs := proofs;
     Embedded := Some {| Version := DataVersionDeneb;
                         Bellatrix := None; Capella := None; Deneb := bid |} |}.

(** The wire form [UnmarshalJSON] of the multi-fork revision reads: the
    version, the proofs and, under [data], the signed bid. *)
Definition multifork_wire (version proofs bid : json) : json :=
  JObject [(bs "version", version); (bs "proofs", proofs); (bs "data", bid)].

(** What the body of the loop of [AddInclusionConstraints] computes for a
    raw transaction before it writes: the hash and the bytes of the
    transaction without its blob sidecar. *)
Definition normalize `{TxCodec} (txRaw : HexTransaction) : res (Hash * HexTransaction) :=
  match UnmarshalBinary txRaw with
  | Ok txDecoded =>
      match MarshalBinary (WithoutBlobTxSidecar txDecoded) with
      | Ok raw => Ok (TxHash (WithoutBlobTxSidecar txDecoded), raw)
      | Err e => Err e
      | Panic p => Panic p
      end
  | Err e => Err e
  | Panic p => Panic p
  end.

(** Transactions that are all present and all normalized, with the
    bindings they give. *)
Definition normalized `{TxCodec} (transactions : list (option HexTransaction))
    (kvs : list (Hash * HexTransaction)) : Prop :=
  Forall2 (fun tx kv => exists txRaw, tx = Some txRaw /\ normalize txRaw = Ok kv)
          transactions kvs.

(** A map after the bindings [kvs] have been written to it, in order. *)
Definition insert_all (tm : TransactionHashMap) (kvs : list (Hash * HexTransaction))
  : TransactionHashMap :=
  foldl (fun m kv => <[kv.1 := kv.2]> m) tm kvs.

(** The calls a user of the cache can make, and the cache they leave. *)
Inductive call :=
| CallAdd (slot : Z) (transactions : list (option HexTransaction))
| CallGet (slot : Z)
| CallFind (txHash : Hash).

Definition step `{TxCodec} (c : ConstraintsCache) (op : call) : ConstraintsCache :=
  match op with
  | CallAdd slot transactions => (AddInclusionConstraints c slot transactions).1
  | CallGet slot => (Get c slot).1
  | CallFind txHash => (FindTransactionByHash c txHash).1
  end.

Definition run `{TxCodec} (c : ConstraintsCache) (ops : list call) : ConstraintsCache :=
  foldl step c ops.

(** The invariant of a cache of capacity [cap]: at most [cap] slots, no
    slot twice, and every slot bound to a map of the store that no other slot
    is bound to. *)
Definition cache_ok (cap : Z) (c : ConstraintsCache) : Prop :=
  exists cache,
    constraints c = Some cache
    /\ lru.size cache = cap
    /\ 0 < cap
    /\ Z.of_nat (length (lru.items cache)) <= cap
    /\ NoDup (map fst (lru.items cache))
    /\ NoDup (map snd (lru.items cache))
    /\ Forall (fun kv => exists l, kv.2 = Some l /\ is_Some (store c !! l))
              (lru.items cache).

(** A hexadecimal digit, in either case. *)
Definition is_hex (c : byte) : bool :=
  match hex.fromHexChar c with Some _ => true | None => false end.

(** [strings.ToLower] on ASCII text. *)
Definition lower (s : list byte) : list byte :=
  map (fun c => if (65 <=? code c)%N && (code c <=? 90)%N then byte_of (code c + 32) else c) s.

(** A cache that a series of calls on a new cache of capacity [cap] has
    left. *)
Definition reachable `{TxCodec} (cap : Z) (c : ConstraintsCache) : Prop :=
  exists ops, c = run (NewConstraintsCache cap) ops.


(** Sample caches, over the sample transaction codec. *)
Module SampleCache.

(** A cache of capacity 2 that is full: the slot 10, the most recently
    used, holds one transaction, and the slot 20 holds none. *)
Definition ops : list call :=
  [CallAdd 10 [None]; CallAdd 20 [None]; CallAdd 10 [Some [x02; x61]]].

Definition two_slots : ConstraintsCache := run (NewConstraintsCache 2) ops.

(** Two transactions, the second with a sidecar, and their bindings. *)
Definition two_txs : list (option HexTransaction) :=
  [Some [x02; x61]; Some [xff; x03]].

Definition two_bindings : list (Hash * HexTransaction) :=
  [([x02; x61], [x02; x61]); ([x03], [x03])].


(** A cache of capacity 3 in which two slots bind one hash: the slot 10,
    the least recently used, holds no transaction; the slots 20 and 30 hold
    the same transaction, sent to the slot 30 with a sidecar. *)
Definition shared_ops : list call :=
  [CallAdd 10 [None]; CallAdd 20 [None]; CallAdd 30 [None];
   CallAdd 20 [Some [x02; x61]]; CallAdd 30 [Some [xff; x02; x61]]].

Definition shared : ConstraintsCache := run (NewConstraintsCache 3) shared_ops.

(** A codec whose hash is the first byte of the body, so that two
    transactions can be told apart under one hash. *)
Definition short_hash_codec : TxCodec :=
  {| Transaction := Sample.tx;
     UnmarshalBinary := @UnmarshalBinary Sample.tx_codec;
     WithoutBlobTxSidecar := @WithoutBlobTxSidecar Sample.tx_codec;
     MarshalBinary := @MarshalBinary Sample.tx_codec;
     TxHash t := take 1 (Sample.body t) |}.

(** The same cache over that codec: the slots 20 and 30 bind the hash 02
    to different transactions. *)
Definition colliding_ops : list call :=
  [CallAdd 10 [None]; CallAdd 20 [None]; CallAdd 30 [None];
   CallAdd 20 [Some [x02; x62]]; CallAdd 30 [Some [x02; x63]]].

Definition colliding : ConstraintsCache :=
  @run short_hash_codec (NewConstraintsCache 3) colliding_ops.

End SampleCache.

(* ================================================================== *)
(** * HexBytes: properties *)

Lemma list_ind2 {A} (P : list A -> Prop) :
  P [] -> (forall x, P [x]) -> (forall x y l, P l -> P (x :: y :: l)) ->
  forall l, P l.
Proof.
  intros H0 H1 H2.
  assert (forall l, P l /\ forall x, P (x :: l)) as Hboth.
  { induction l as [|y l [IH1 IH2]]; split; auto. }
  intros l. apply Hboth.
Qed.

Lemma HasPrefix_app (p s : list byte) : HasPrefix (p ++ s) p = true.
Proof.
  induction p as [|c p IH]; simpl; [destruct s; reflexivity|].
  rewrite bool_decide_eq_true_2 by reflexivity. exact IH.
Qed.

Lemma TrimPrefix_app (p s : list byte) : TrimPrefix (p ++ s) p = s.
Proof.
  unfold TrimPrefix. rewrite HasPrefix_app. apply drop_app_length.
Qed.

Lemma HasSuffix_app (s t : list byte) : HasSuffix (s ++ t) t = true.
Proof.
  unfold HasSuffix. rewrite rev_app_distr. apply HasPrefix_app.
Qed.

(** A literal made of plain bytes is decoded to those bytes. *)
Lemma unquote_plain (s tl : list byte) :
  forallb plain s = true ->
  jsonstr.unquote 0 (s ++ quote :: tl) = Some (s, tl).
Proof.
  induction s as [|c s IH]; intros Hs.
  - reflexivity.
  - simpl in Hs. apply andb_prop in Hs as [Hc Hs].
    unfold plain in Hc.
    apply andb_prop in Hc as [Hc Hb]. apply andb_prop in Hc as [Hc Hq].
    apply andb_prop in Hc as [Hlo Hhi].
    apply negb_true_iff in Hq, Hb.
    change ((c :: s) ++ quote :: tl) with (c :: (s ++ quote :: tl)).
    cbn [jsonstr.unquote]. rewrite Hq, Hb, Hhi.
    replace (code c <? 32)%N with false
      by (symmetry; apply N.ltb_ge; apply N.leb_le in Hlo; exact Hlo).
    fold (jsonstr.unquote 0 (s ++ quote :: tl)).
    rewrite (IH Hs). reflexivity.
Qed.

Lemma Unmarshal_plain (s : list byte) :
  forallb plain s = true ->
  jsonstr.Unmarshal ([quote] ++ s ++ [quote]) = Some s.
Proof.
  intros Hs. unfold jsonstr.Unmarshal. cbn [app jsonstr.skip_space].
  change (jsonstr.isSpace quote) with false. cbn iota.
  rewrite bool_decide_eq_true_2 by reflexivity.
  rewrite (unquote_plain s [] Hs). reflexivity.
Qed.

(** The digits printed for a byte array are read back; what follows them
    is decoded after it. *)
Lemma DecodeString_digits_app (b rest : list byte) :
  hex.DecodeString (hex.digits b ++ rest)
  = (b ++ (hex.DecodeString rest).1, (hex.DecodeString rest).2).
Proof.
  induction b as [|c b IH].
  - simpl. destruct (hex.DecodeString rest); reflexivity.
  - change (hex.digits (c :: b) ++ rest)
      with (hex.digit (N.shiftr (code c) 4) :: hex.digit (N.land (code c) 15)
            :: (hex.digits b ++ rest)).
    cbn [hex.DecodeString].
    assert (hex.fromHexChar (hex.digit (N.shiftr (code c) 4)) = Some (N.shiftr (code c) 4)
            /\ hex.fromHexChar (hex.digit (N.land (code c) 15)) = Some (N.land (code c) 15)
            /\ hex.join (N.shiftr (code c) 4) (N.land (code c) 15) = c) as (-> & -> & ->)
      by (destruct c; vm_compute; auto).
    fold (hex.DecodeString (hex.digits b ++ rest)). rewrite IH. reflexivity.
Qed.

Lemma DecodeString_digits (b : list byte) :
  hex.DecodeString (hex.digits b) = (b, None).
Proof.
  rewrite <- (app_nil_r (hex.digits b)), DecodeString_digits_app.
  simpl. rewrite app_nil_r. reflexivity.
Qed.

Lemma digits_plain (b : list byte) : forallb plain (hex.digits b) = true.
Proof.
  induction b as [|c b IH]; [reflexivity|].
  cbn [hex.digits forallb]. rewrite IH.
  destruct c; vm_compute; reflexivity.
Qed.

(** What [UnmarshalJSON] does on the wire form with a plain payload. *)
Lemma HexBytes_UnmarshalJSON_literal (h : HexBytes) (payload : list byte) :
  forallb plain payload = true ->
  HexBytes_UnmarshalJSON h (hex_literal payload) = ((hex.DecodeString payload).1, None).
Proof.
  intros Hp. unfold HexBytes_UnmarshalJSON, hex_literal.
  rewrite bool_decide_eq_false_2 by (simpl; discriminate).
  change ([quote] ++ bs "0x" ++ payload ++ [quote])
    with ([quote; x30; x78] ++ payload ++ [quote]) at 1.
  rewrite HasPrefix_app. cbn [negb].
  replace ([quote] ++ bs "0x" ++ payload ++ [quote])
    with (([quote] ++ bs "0x" ++ payload) ++ [quote]) at 1
    by (rewrite <- !app_assoc; reflexivity).
  rewrite HasSuffix_app. cbn [negb].
  replace ([quote] ++ bs "0x" ++ payload ++ [quote])
    with ([quote] ++ (bs "0x" ++ payload) ++ [quote])
    by (rewrite <- !app_assoc; reflexivity).
  rewrite Unmarshal_plain by (simpl; exact Hp).
  cbn [from_option id]. rewrite TrimPrefix_app.
  destruct (hex.DecodeString payload); reflexivity.
Qed.

(** The round trip of a byte array through its own JSON methods: it holds
    for every array but the empty one, which is printed without [0x]. *)
Lemma HexBytes_roundtrip (h0 h : HexBytes) :
  h <> [] ->
  exists lit, HexBytes_MarshalJSON h = Ok lit
              /\ HexBytes_UnmarshalJSON h0 lit = (h, None).
Proof.
  intros Hne. exists (hex_literal (hex.digits h)). split.
  - unfold HexBytes_MarshalJSON, hex.sharp_x, hex_literal.
    destruct h; [congruence|]. rewrite <- !app_assoc. reflexivity.
  - rewrite HexBytes_UnmarshalJSON_literal by apply digits_plain.
    rewrite DecodeString_digits. reflexivity.
Qed.

Example HexBytes_empty_no_roundtrip :
  HexBytes_MarshalJSON [] = Ok [quote; quote]
  /\ HexBytes_UnmarshalJSON [] [quote; quote] = ([], Some ErrInvalidPrefix).
Proof. split; reflexivity. Qed.

(** C4 (amended). An input that passes the three syntactic checks is
    decoded without an error, whatever its payload; when the payload is made
    of plain characters and fails to hex-decode, the receiver is set to the
    bytes that were decoded before the first error, not to an empty array. *)
Theorem C4_failed_hex_decode_keeps_decoded_prefix (h : HexBytes) :
  (forall input : list byte,
      length input <> 0%nat ->
      HasPrefix input [quote; x30; x78] = true ->
      HasSuffix input [quote] = true ->
      (HexBytes_UnmarshalJSON h input).2 = None)
  /\ (forall (payload b : list byte) (e : hex.decode_error),
         forallb plain payload = true ->
         hex.DecodeString payload = (b, Some e) ->
         HexBytes_UnmarshalJSON h (hex_literal payload) = (b, None))
  /\ (forall (b rest : list byte) (e : hex.decode_error),
         forallb plain rest = true ->
         hex.DecodeString rest = ([], Some e) ->
         hex.DecodeString (hex.digits b ++ rest) = (b, Some e)
         /\ HexBytes_UnmarshalJSON h (hex_literal (hex.digits b ++ rest)) = (b, None)).
Proof.
  split; [|split].
  - intros input Hlen Hpre Hsuf. unfold HexBytes_UnmarshalJSON.
    rewrite bool_decide_eq_false_2 by exact Hlen.
    rewrite Hpre, Hsuf. cbn [negb].
    destruct (hex.DecodeString _); reflexivity.
  - intros payload b e Hp Hd.
    rewrite HexBytes_UnmarshalJSON_literal by exact Hp.
    rewrite Hd. reflexivity.
  - intros b rest e Hp Hd.
    assert (hex.DecodeString (hex.digits b ++ rest) = (b, Some e)) as Hall.
    { rewrite DecodeString_digits_app, Hd. cbn [fst snd]. rewrite app_nil_r. reflexivity. }
    split; [exact Hall|].
    rewrite HexBytes_UnmarshalJSON_literal.
    + rewrite Hall. reflexivity.
    + rewrite forallb_app, digits_plain, Hp. reflexivity.
Qed.

(** C4, as stated, fails: the payload [abzz] passes the syntactic checks
    and does not hex-decode, and the receiver becomes the one byte 0xab. *)
Lemma C4_counterexample :
  HasPrefix (hex_literal (bs "abzz")) [quote; x30; x78] = true
  /\ HasSuffix (hex_literal (bs "abzz")) [quote] = true
  /\ hex.DecodeString (bs "abzz") = ([xab], Some (hex.InvalidByteError x7a))
  /\ HexBytes_UnmarshalJSON [] (hex_literal (bs "abzz")) = ([xab], None)
  /\ [xab] <> ([] : HexBytes).
Proof. repeat split; try reflexivity. discriminate. Qed.

Lemma C4_witness :
  (HexBytes_UnmarshalJSON [] (hex_literal (bs "12345"))).2 = None
  /\ HexBytes_UnmarshalJSON [] (hex_literal (bs "12345")) = ([x12; x34], None)
  /\ HexBytes_UnmarshalJSON [x01] (hex_literal (hex.digits [xde; xad] ++ bs "XY"))
     = ([xde; xad], None).
Proof.
  destruct (C4_failed_hex_decode_keeps_decoded_prefix []) as (H1 & H2 & _).
  destruct (C4_failed_hex_decode_keeps_decoded_prefix [x01]) as (_ & _ & H3).
  split; [|split].
  - apply H1; [simpl; lia | reflexivity | reflexivity].
  - apply (H2 (bs "12345") [x12; x34] hex.ErrLength); reflexivity.
  - apply (H3 [xde; xad] (bs "XY") (hex.InvalidByteError x58)); reflexivity.
Defined.

(** C5. [UnmarshalJSON] fails with an error of the kind InvalidHexEncoding
    on an empty input, on an input that does not start with a quote and 0x,
    and on an input that does not end with a quote; it succeeds on the quoted
    string 0x and yields a byte array of length zero. *)
Theorem C5_hex_boundary_cases (h : HexBytes) :
  HexBytes_UnmarshalJSON h [] = (h, Some ErrInputMissing)
  /\ (forall input : list byte,
         input <> [] ->
         HasPrefix input [quote; x30; x78] = false ->
         HexBytes_UnmarshalJSON h input = (h, Some ErrInvalidPrefix))
  /\ (forall input : list byte,
         HasPrefix input [quote; x30; x78] = true ->
         HasSuffix input [quote] = false ->
         HexBytes_UnmarshalJSON h input = (h, Some ErrInvalidSuffix))
  /\ error_kind ErrInputMissing = InvalidHexEncoding
  /\ error_kind ErrInvalidPrefix = InvalidHexEncoding
  /\ error_kind ErrInvalidSuffix = InvalidHexEncoding
  /\ HexBytes_UnmarshalJSON h (hex_literal []) = ([], None)
  /\ length (HexBytes_UnmarshalJSON h (hex_literal [])).1 = 0%nat.
Proof.
  repeat split.
  - intros input Hne Hpre. unfold HexBytes_UnmarshalJSON.
    rewrite bool_decide_eq_false_2 by (destruct input; [congruence | simpl; discriminate]).
    rewrite Hpre. reflexivity.
  - intros input Hpre Hsuf. unfold HexBytes_UnmarshalJSON.
    rewrite bool_decide_eq_false_2
      by (destruct input; [destruct h; discriminate | simpl; discriminate]).
    rewrite Hpre, Hsuf. reflexivity.
Qed.

Lemma C5_witness :
  HexBytes_UnmarshalJSON [x01] [quote; quote] = ([x01], Some ErrInvalidPrefix)
  /\ HexBytes_UnmarshalJSON [x01] ([quote] ++ bs "abcd" ++ [quote]) = ([x01], Some ErrInvalidPrefix)
  /\ HexBytes_UnmarshalJSON [x01] ([quote] ++ bs "0xabcd") = ([x01], Some ErrInvalidSuffix).
Proof.
  destruct (C5_hex_boundary_cases [x01]) as (_ & Hp & Hs & _).
  split; [|split].
  - apply Hp; [discriminate | reflexivity].
  - apply Hp; [discriminate | reflexivity].
  - apply Hs; reflexivity.
Defined.

(* ================================================================== *)
(** * The conversion of a multiproof: properties *)

Lemma make_and_fill_map {A B} (zero : B) (f : A -> B) (src : list A) :
  make_and_fill zero f src = map f src.
Proof.
  unfold make_and_fill.
  enough (forall (rem : list A) (pre : list B),
             foldl (fun dst ix => <[ix.1 := f ix.2]> dst)
                   (pre ++ replicate (length rem) zero)
                   (imap (fun i x => ((length pre + i)%nat, x)) rem)
             = pre ++ map f rem) as Haux.
  { specialize (Haux src []). simpl in Haux. exact Haux. }
  induction rem as [|x rem IH]; intros pre.
  - reflexivity.
  - cbn [length replicate imap foldl map fst snd].
    rewrite Nat.add_0_r.
    replace (<[length pre := f x]> (pre ++ zero :: replicate (length rem) zero))
      with ((pre ++ [f x]) ++ replicate (length rem) zero).
    2:{ rewrite <- (Nat.add_0_r (length pre)) at 1.
        rewrite insert_app_r. rewrite <- app_assoc. reflexivity. }
    rewrite (imap_ext _ (fun i y => ((length (pre ++ [f x]) + i)%nat, y))).
    2:{ intros i y _. unfold compose. rewrite length_app. simpl. f_equal. lia. }
    rewrite IH, <- app_assoc. reflexivity.
Qed.

(** C7 (amended). The proof built from a multiproof carries the sibling
    hashes of the input in the same order and count, the indices of the input
    converted to [uint64] in the same order and count (so equal to them
    wherever they are not negative), and no transaction hashes. *)
Theorem C7_from_multiproof_keeps_hashes_and_indices (mp : Multiproof) :
  exists ip : InclusionProof,
    InclusionProofFromMultiProof (Some mp) = Ok ip
    /\ MerkleHashes ip = Some (map Some (elems (Hashes mp)))
    /\ length (elems (MerkleHashes ip)) = length (elems (Hashes mp))
    /\ GeneralizedIndexes ip = Some (map uint64 (elems (Indices mp)))
    /\ length (elems (GeneralizedIndexes ip)) = length (elems (Indices mp))
    /\ TransactionHashes ip = None
    /\ (Forall (fun idx => 0 <= idx < 2 ^ 63) (elems (Indices mp)) ->
        elems (GeneralizedIndexes ip) = elems (Indices mp)).
Proof.
  eexists. split; [reflexivity|]. cbn [MerkleHashes GeneralizedIndexes TransactionHashes].
  rewrite !make_and_fill_map.
  repeat split.
  - cbn [elems from_option id]. apply length_map.
  - cbn [elems from_option id]. apply length_map.
  - intros Hrange. cbn [from_option id elems].
    induction (elems (Indices mp)) as [|i l IH]; [reflexivity|].
    inversion Hrange; subst. cbn [map]. rewrite IH by assumption.
    f_equal. unfold uint64. apply Z.mod_small. lia.
Qed.

(** C7, as stated, fails on a negative index: the conversion to [uint64]
    wraps it around. *)
Lemma C7_counterexample :
  InclusionProofFromMultiProof
    (Some {| Indices := Some [3; -1]; Leaves := None; Hashes := Some [[xaa]; [xbb]] |})
  = Ok {| TransactionHashes := None;
          GeneralizedIndexes := Some [3; 18446744073709551615];
          MerkleHashes := Some [Some [xaa]; Some [xbb]] |}
  /\ [3; 18446744073709551615] <> [3; -1].
Proof. split; [reflexivity | discriminate]. Qed.

Lemma C7_witness :
  exists ip : InclusionProof,
    InclusionProofFromMultiProof
      (Some {| Indices := Some [5; 12]; Leaves := Some [[x01]]; Hashes := Some [[xaa]; [xbb]] |})
    = Ok ip
    /\ elems (GeneralizedIndexes ip) = [5; 12]
    /\ MerkleHashes ip = Some [Some [xaa]; Some [xbb]]
    /\ TransactionHashes ip = None.
Proof.
  destruct (C7_from_multiproof_keeps_hashes_and_indices
              {| Indices := Some [5; 12]; Leaves := Some [[x01]]; Hashes := Some [[xaa]; [xbb]] |})
    as (ip & Hr & Hm & _ & _ & _ & Ht & Hi).
  exists ip. repeat split; try assumption.
  apply Hi; repeat constructor; lia.
Defined.

(* ================================================================== *)
(** * The versioned bid envelope: properties *)

Section EnvelopeProperties.

Context {BellatrixBid CapellaBid DenebBid : Type}.
Context `{!Externals BellatrixBid CapellaBid DenebBid}.

#[local] Abbreviation Envelope :=
  (VersionedSignedBuilderBidWithProofs BellatrixBid CapellaBid DenebBid).

(** The object [MarshalJSON] emits has the three members of the bid and no
    other. *)
Lemma Marshal_bid_shape {Bid} (c : codec Bid) message signature proofs j :
  Marshal_bid c message signature proofs = Ok j ->
  exists jm js jp,
    j = JObject [(bs "message", jm); (bs "signature", js); (bs "proofs", jp)]
    /\ jsonlib.Marshal_ptr (marshal c) message = Ok jm
    /\ marshal BLSSignature_json signature = Ok js
    /\ jsonlib.Marshal_ptr (InclusionProof_Marshal Hash32_json) proofs = Ok jp.
Proof.
  unfold Marshal_bid. intros Hj.
  destruct (jsonlib.Marshal_ptr (marshal c) message) as [jm| |]; try discriminate.
  destruct (marshal BLSSignature_json signature) as [js| |]; try discriminate.
  destruct (jsonlib.Marshal_ptr (InclusionProof_Marshal Hash32_json) proofs) as [jp| |];
    try discriminate.
  cbn in Hj. injection Hj as <-. eauto 8.
Qed.

Lemma MultiFork_MarshalJSON_shape (e : Envelope) j :
  MultiFork.MarshalJSON e = Ok j ->
  exists jm js jp,
    j = JObject [(bs "message", jm); (bs "signature", js); (bs "proofs", jp)].
Proof.
  unfold MultiFork.MarshalJSON. intros Hj.
  destruct (Embedded e) as [b|]; [|discriminate].
  destruct (Version b); try discriminate.
  - destruct (Bellatrix b); [|discriminate].
    apply Marshal_bid_shape in Hj as (jm & js & jp & -> & _). eauto.
  - destruct (Capella b); [|discriminate].
    apply Marshal_bid_shape in Hj as (jm & js & jp & -> & _). eauto.
  - destruct (Deneb b); [|discriminate].
    apply Marshal_bid_shape in Hj as (jm & js & jp & -> & _). eauto.
Qed.

Lemma DenebOnly_MarshalJSON_shape (e : Envelope) j :
  DenebOnly.MarshalJSON e = Ok j ->
  exists jm js jp,
    j = JObject [(bs "message", jm); (bs "signature", js); (bs "proofs", jp)].
Proof.
  unfold DenebOnly.MarshalJSON. intros Hj.
  destruct (Embedded e) as [b|]; [|discriminate].
  destruct (Version b); try discriminate.
  destruct (Deneb b); [|discriminate].
  apply Marshal_bid_shape in Hj as (jm & js & jp & -> & _). eauto.
Qed.

(** The first pass over the object of a bid finds no version. *)
Lemma DenebOnly_first_pass_bid jm js jp :
  DenebOnly.first_pass
    (JObject [(bs "message", jm); (bs "signature", js); (bs "proofs", jp)])
  = Ok DataVersionUnknown.
Proof. reflexivity. Qed.

Lemma MultiFork_first_pass_bid jm js jp :
  MultiFork.first_pass
    (JObject [(bs "message", jm); (bs "signature", js); (bs "proofs", jp)])
  = p ← InclusionProof_ptr_Unmarshal Hash32_json None jp;
    Ok {| MultiFork.partial_Version := DataVersionUnknown; MultiFork.partial_Proofs := p |}.
Proof. reflexivity. Qed.

(** C8. An envelope whose version has no branch is not encoded: the call
    returns the error and no bytes.  A payload whose version, as the first
    pass reads it, has no branch is not decoded: the call returns the error.
    Both errors are of the kind UnsupportedVersion. *)
Theorem C8_unsupported_version_rejected :
  (forall (e : Envelope) b,
      Embedded e = Some b -> MultiFork.supported (Version b) = false ->
      MultiFork.MarshalJSON e = Err (ErrUnknownDataVersion (Version b)))
  /\ (forall (e : Envelope) b,
         Embedded e = Some b -> DenebOnly.supported (Version b) = false ->
         DenebOnly.MarshalJSON e = Err (ErrUnknownDataVersion (Version b)))
  /\ (forall (v : Envelope) data p,
         MultiFork.first_pass data = Ok p ->
         MultiFork.supported (MultiFork.partial_Version p) = false ->
         (MultiFork.UnmarshalJSON v data).2
         = Err (ErrFailedToUnmarshal (MultiFork.partial_Version p)))
  /\ (forall (v : Envelope) data ver,
         DenebOnly.first_pass data = Ok ver ->
         DenebOnly.supported ver = false ->
         DenebOnly.UnmarshalJSON v data = (v, Err (ErrFailedToUnmarshal ver)))
  /\ (forall ver,
         error_kind (ErrUnknownDataVersion ver) = UnsupportedVersion
         /\ error_kind (ErrFailedToUnmarshal ver) = UnsupportedVersion).
Proof.
  repeat split.
  - intros e b He Hs. unfold MultiFork.MarshalJSON. rewrite He.
    destruct (Version b); try reflexivity; discriminate.
  - intros e b He Hs. unfold DenebOnly.MarshalJSON. rewrite He.
    destruct (Version b); try reflexivity; discriminate.
  - intros v data p Hp Hs. unfold MultiFork.UnmarshalJSON. rewrite Hp.
    destruct (MultiFork.partial_Version p); try discriminate; reflexivity.
  - intros v data ver Hp Hs. unfold DenebOnly.UnmarshalJSON. rewrite Hp.
    destruct ver; try discriminate; reflexivity.
Qed.

(** Decoding what [MarshalJSON] has encoded never succeeds. *)
Lemma MultiFork_decode_encode_fails (e v : Envelope) j :
  MultiFork.MarshalJSON e = Ok j -> (MultiFork.UnmarshalJSON v j).2 <> Ok tt.
Proof.
  intros Hj. apply MultiFork_MarshalJSON_shape in Hj as (jm & js & jp & ->).
  unfold MultiFork.UnmarshalJSON. rewrite MultiFork_first_pass_bid.
  destruct (InclusionProof_ptr_Unmarshal Hash32_json None jp); cbn; discriminate.
Qed.

Lemma DenebOnly_decode_encode_fails (e v : Envelope) j :
  DenebOnly.MarshalJSON e = Ok j ->
  DenebOnly.UnmarshalJSON v j = (v, Err (ErrFailedToUnmarshal DataVersionUnknown)).
Proof.
  intros Hj. apply DenebOnly_MarshalJSON_shape in Hj as (jm & js & jp & ->).
  unfold DenebOnly.UnmarshalJSON. rewrite DenebOnly_first_pass_bid. reflexivity.
Qed.

End EnvelopeProperties.

(* ================================================================== *)
(** * The wire form of an inclusion proof: round trip *)

Lemma mapM_roundtrip {A} (enc : A -> res json) (dec : json -> res A) (l : list A) :
  Forall (fun x => exists j, enc x = Ok j /\ dec j = Ok x) l ->
  exists js, mapM enc l = Ok js /\ mapM dec js = Ok l.
Proof.
  induction 1 as [|x l (j & He & Hd) _ (js & Hes & Hds)].
  - exists []. split; reflexivity.
  - exists (j :: js). cbn. rewrite He. cbn. rewrite Hes. cbn.
    rewrite Hd. cbn. rewrite Hds. split; reflexivity.
Qed.

Lemma slice_roundtrip {A} (enc : A -> res json) (dec : json -> res A) (s : slice A) :
  Forall (fun x => exists j, enc x = Ok j /\ dec j = Ok x) (elems s) ->
  exists j, jsonlib.Marshal_slice enc s = Ok j /\ jsonlib.Unmarshal_slice dec j = Ok s.
Proof.
  destruct s as [l|]; cbn [elems from_option id]; intros Hl.
  - destruct (mapM_roundtrip enc dec l Hl) as (js & He & Hd).
    exists (JArray js). cbn. rewrite He. cbn. rewrite Hd. split; reflexivity.
  - exists JNull. split; reflexivity.
Qed.

Lemma uint_digits_roundtrip (u : Decimal.uint) :
  jsonlib.uint_of_digits (jsonlib.digits_of_uint u) = Some u.
Proof. induction u; cbn; [reflexivity | rewrite IHu; reflexivity ..]. Qed.

Lemma digits_of_uint_nonempty (n : N) : jsonlib.digits_of_uint (N.to_uint n) <> [].
Proof.
  destruct n as [|p]; [discriminate|].
  cbn [N.to_uint]. pose proof (DecimalPos.Unsigned.to_uint_nonnil p) as Hp.
  destruct (Pos.to_uint p); [congruence | discriminate ..].
Qed.

Lemma uint64_roundtrip (n : Z) :
  0 <= n < 2 ^ 64 ->
  exists j, jsonlib.Marshal_uint64 n = Ok j /\ jsonlib.Unmarshal_uint64 j = Ok n.
Proof.
  intros Hn. exists (JNumber (jsonlib.digits_of_uint (N.to_uint (Z.to_N n)))).
  split; [reflexivity|].
  unfold jsonlib.Unmarshal_uint64.
  pose proof (digits_of_uint_nonempty (Z.to_N n)) as Hne.
  destruct (jsonlib.digits_of_uint (N.to_uint (Z.to_N n))) as [|c l] eqn:E; [congruence|].
  rewrite <- E, uint_digits_roundtrip.
  rewrite DecimalN.Unsigned.of_to, Z2N.id by lia.
  destruct (Z.ltb_spec n (2 ^ 64)); [reflexivity | lia].
Qed.

Lemma HexBytes_ptr_roundtrip (o : option HexBytes) :
  o <> Some [] ->
  exists j, HexBytes_ptr_Marshal o = Ok j /\ HexBytes_ptr_Unmarshal j = Ok o.
Proof.
  intros Ho. destruct o as [h|].
  - assert (h <> []) as Hh by (intros ->; apply Ho; reflexivity).
    exists (JString (hex_literal (hex.digits h))). split.
    + unfold HexBytes_ptr_Marshal, jsonlib.Marshal_ptr, HexBytes_MarshalJSON.
      cbn [mbind res_bind]. unfold jsonlib.of_literal.
      replace ([quote] ++ hex.sharp_x h ++ [quote]) with (hex_literal (hex.digits h))
        by (destruct h; [congruence | unfold hex_literal, hex.sharp_x;
                                      rewrite <- !app_assoc; reflexivity]).
      unfold hex_literal.
      replace ([quote] ++ bs "0x" ++ hex.digits h ++ [quote])
        with ([quote] ++ (bs "0x" ++ hex.digits h) ++ [quote])
        by (rewrite <- !app_assoc; reflexivity).
      rewrite Unmarshal_plain by (simpl; apply digits_plain). reflexivity.
    + unfold HexBytes_ptr_Unmarshal, jsonlib.Unmarshal_ptr.
      cbn [jsonlib.raw from_option id].
      rewrite HexBytes_UnmarshalJSON_literal by apply digits_plain.
      rewrite DecodeString_digits. reflexivity.
  - exists JNull. split; reflexivity.
Qed.

Section ProofRoundTrip.

Variable Hash32_json : codec Hash32.

Lemma InclusionProof_roundtrip (p : InclusionProof) :
  proof_on_wire Hash32_json p ->
  exists j, InclusionProof_Marshal Hash32_json p = Ok j
            /\ j <> JNull
            /\ jsonlib.Unmarshal_struct (InclusionProof_fields Hash32_json)
                 InclusionProof_zero j = Ok p.
Proof.
  intros (Hth & Hgi & Hmh).
  destruct (slice_roundtrip (marshal Hash32_json) (unmarshal Hash32_json)
              (TransactionHashes p)) as (jth & Eth & Dth).
  { eapply Forall_impl; [exact Hth|]. intros h (j & ? & ? & ?). eauto. }
  destruct (slice_roundtrip jsonlib.Marshal_uint64 jsonlib.Unmarshal_uint64
              (GeneralizedIndexes p)) as (jgi & Egi & Dgi).
  { eapply Forall_impl; [exact Hgi|]. intros n Hn. apply uint64_roundtrip, Hn. }
  destruct (slice_roundtrip HexBytes_ptr_Marshal HexBytes_ptr_Unmarshal
              (MerkleHashes p)) as (jmh & Emh & Dmh).
  { eapply Forall_impl; [exact Hmh|]. intros o Ho. apply HexBytes_ptr_roundtrip, Ho. }
  eexists. split; [|split].
  - unfold InclusionProof_Marshal. rewrite Eth, Egi, Emh. reflexivity.
  - discriminate.
  - unfold jsonlib.Unmarshal_struct. cbn [foldl fst snd].
    change (jsonlib.select (InclusionProof_fields Hash32_json) (bs "transaction_hashes"))
      with (Some (snd (nth 0 (InclusionProof_fields Hash32_json) (bs "", fun _ p => Ok p)))).
    change (jsonlib.select (InclusionProof_fields Hash32_json) (bs "generalized_indexes"))
      with (Some (snd (nth 1 (InclusionProof_fields Hash32_json) (bs "", fun _ p => Ok p)))).
    change (jsonlib.select (InclusionProof_fields Hash32_json) (bs "merkle_hashes"))
      with (Some (snd (nth 2 (InclusionProof_fields Hash32_json) (bs "", fun _ p => Ok p)))).
    cbn [InclusionProof_fields nth snd mbind res_bind].
    rewrite Dth. cbn [mbind res_bind]. rewrite Dgi. cbn [mbind res_bind].
    rewrite Dmh. cbn. destruct p; reflexivity.
Qed.

Lemma InclusionProof_ptr_roundtrip (pf : option InclusionProof) :
  (forall p, pf = Some p -> proof_on_wire Hash32_json p) ->
  exists j, jsonlib.Marshal_ptr (InclusionProof_Marshal Hash32_json) pf = Ok j
            /\ InclusionProof_ptr_Unmarshal Hash32_json None j = Ok pf.
Proof.
  intros Hpf. destruct pf as [p|].
  - destruct (InclusionProof_roundtrip p (Hpf p eq_refl)) as (j & He & Hn & Hd).
    exists j. split; [exact He|].
    unfold InclusionProof_ptr_Unmarshal, jsonlib.Unmarshal_ptr.
    destruct j; try congruence; cbn [from_option id]; rewrite Hd; reflexivity.
  - exists JNull. split; reflexivity.
Qed.

End ProofRoundTrip.

(* ================================================================== *)
(** * The versioned bid envelope: encoding and decoding *)

Section EnvelopeRoundTrip.

Context {BellatrixBid CapellaBid DenebBid : Type}.
Context `{!Externals BellatrixBid CapellaBid DenebBid}.

#[local] Abbreviation Envelope :=
  (VersionedSignedBuilderBidWithProofs BellatrixBid CapellaBid DenebBid).

(** The Deneb-only revision reads an envelope back from the wrapped form
    of what it has encoded. *)
Lemma DenebOnly_wrapped_roundtrip (v : Envelope) message signature proofs version :
  unmarshal DataVersion_json version = Ok DataVersionDeneb ->
  (forall b, message = Some b -> roundtrips DenebBid_json b) ->
  roundtrips BLSSignature_json signature ->
  (forall p, proofs = Some p -> proof_on_wire Hash32_json p) ->
  exists j,
    DenebOnly.MarshalJSON (deneb_envelope message signature proofs) = Ok j
    /\ DenebOnly.UnmarshalJSON v (wrapped version j)
       = (deneb_envelope message signature proofs, Ok tt).
Proof.
  intros Hver Hmsg (js & Es & _ & Ds) Hpf.
  destruct (InclusionProof_ptr_roundtrip Hash32_json proofs Hpf) as (jp & Ep & Dp).
  assert (exists jm, jsonlib.Marshal_ptr (marshal DenebBid_json) message = Ok jm
                     /\ Unmarshal_ext_ptr DenebBid_json jm = Ok message) as (jm & Em & Dm).
  { destruct message as [b|].
    - destruct (Hmsg b eq_refl) as (jm & Em & Hn & Dm). exists jm. split; [exact Em|].
      unfold Unmarshal_ext_ptr. destruct jm; try congruence; rewrite Dm; reflexivity.
    - exists JNull. split; reflexivity. }
  exists (JObject [(bs "message", jm); (bs "signature", js); (bs "proofs", jp)]).
  split.
  - unfold DenebOnly.MarshalJSON, deneb_envelope, Marshal_bid.
    cbn [Embedded Version Deneb Message Signature Proofs].
    rewrite Em, Es, Ep. reflexivity.
  - unfold DenebOnly.UnmarshalJSON.
    assert (DenebOnly.first_pass
              (wrapped version (JObject [(bs "message", jm); (bs "signature", js);
                                         (bs "proofs", jp)]))
            = Ok DataVersionDeneb) as ->.
    { unfold DenebOnly.first_pass, wrapped, jsonlib.Unmarshal_struct. cbn [foldl fst snd].
      change (jsonlib.select DenebOnly.partialBid_fields (bs "version"))
        with (Some (fun (j : json) (_ : DataVersion) => unmarshal DataVersion_json j)).
      change (jsonlib.select DenebOnly.partialBid_fields (bs "data"))
        with (@None (json -> DataVersion -> res DataVersion)).
      cbn [mbind res_bind]. rewrite Hver. reflexivity. }
    assert (DenebOnly.second_pass
              (wrapped version (JObject [(bs "message", jm); (bs "signature", js);
                                         (bs "proofs", jp)]))
            = Ok {| DenebOnly.Data_Message := message;
                    DenebOnly.Data_Signature := signature;
                    DenebOnly.Data_Proofs := proofs |}) as ->.
    { unfold DenebOnly.second_pass, wrapped, jsonlib.Unmarshal_struct at 1.
      cbn [foldl fst snd].
      change (jsonlib.select DenebOnly.dataBid_fields (bs "version"))
        with (@None (json -> @DenebOnly.dataBid DenebBid -> res (@DenebOnly.dataBid DenebBid))).
      change (jsonlib.select DenebOnly.dataBid_fields (bs "data"))
        with (Some (fun (j : json) (s : @DenebOnly.dataBid DenebBid) =>
                      jsonlib.Unmarshal_struct DenebOnly.Data_fields s j)).
      cbn [mbind res_bind].
      unfold jsonlib.Unmarshal_struct. cbn [foldl fst snd].
      change (jsonlib.select DenebOnly.Data_fields (bs "message"))
        with (Some (snd (nth 0 DenebOnly.Data_fields (bs "", fun _ s => Ok s)))).
      change (jsonlib.select DenebOnly.Data_fields (bs "signature"))
        with (Some (snd (nth 1 DenebOnly.Data_fields (bs "", fun _ s => Ok s)))).
      change (jsonlib.select DenebOnly.Data_fields (bs "proofs"))
        with (Some (snd (nth 2 DenebOnly.Data_fields (bs "", fun _ s => Ok s)))).
      cbn [DenebOnly.Data_fields nth snd mbind res_bind].
      rewrite Dm. cbn [mbind res_bind]. rewrite Ds. cbn [mbind res_bind].
      cbn [DenebOnly.Data_Proofs DenebOnly.Data_Message DenebOnly.Data_Signature
           DenebOnly.dataBid_zero].
      rewrite Dp. reflexivity. }
    reflexivity.
Qed.

(** C1 (amended). [MarshalJSON] emits the object of the bid, which carries
    no version, and [UnmarshalJSON] reads the version first: decoding what was
    encoded never succeeds (in the Deneb-only revision it fails with the error
    of an unsupported version and leaves the receiver alone).  The Deneb-only
    revision yields the envelope again when what was encoded is wrapped as the
    data of an object that names the version, provided the members of the bid
    are read back as they were printed and no sibling hash is empty. *)
Theorem C1_decode_after_encode :
  (forall (e v : Envelope) j,
      MultiFork.MarshalJSON e = Ok j -> (MultiFork.UnmarshalJSON v j).2 <> Ok tt)
  /\ (forall (e v : Envelope) j,
         DenebOnly.MarshalJSON e = Ok j ->
         DenebOnly.UnmarshalJSON v j = (v, Err (ErrFailedToUnmarshal DataVersionUnknown)))
  /\ (forall (v : Envelope) message signature proofs version,
         unmarshal DataVersion_json version = Ok DataVersionDeneb ->
         (forall b, message = Some b -> roundtrips DenebBid_json b) ->
         roundtrips BLSSignature_json signature ->
         (forall p, proofs = Some p -> proof_on_wire Hash32_json p) ->
         exists j,
           DenebOnly.MarshalJSON (deneb_envelope message signature proofs) = Ok j
           /\ DenebOnly.UnmarshalJSON v (wrapped version j)
              = (deneb_envelope message signature proofs, Ok tt)).
Proof.
  split; [|split].
  - apply MultiFork_decode_encode_fails.
  - apply DenebOnly_decode_encode_fails.
  - apply DenebOnly_wrapped_roundtrip.
Qed.

End EnvelopeRoundTrip.

(** C1, as stated, fails: a Deneb envelope, with a proof or without one,
    is encoded, and decoding the result returns an error in both revisions. *)
Lemma C1_counterexample :
  (j ← DenebOnly.MarshalJSON (deneb_envelope (Some [x01]) [x02] (Some Sample.proof1));
   Ok (DenebOnly.UnmarshalJSON Sample.blank j))
  = Ok (Sample.blank, Err (ErrFailedToUnmarshal DataVersionUnknown))
  /\ (j ← DenebOnly.MarshalJSON (deneb_envelope (Some [x01]) [x02] None);
      Ok (DenebOnly.UnmarshalJSON Sample.blank j))
     = Ok (Sample.blank, Err (ErrFailedToUnmarshal DataVersionUnknown))
  /\ (j ← MultiFork.MarshalJSON (deneb_envelope (Some [x01]) [x02] (Some Sample.proof1));
      Ok (MultiFork.UnmarshalJSON Sample.blank j).2)
     = Ok (Err (ErrFailedToUnmarshal DataVersionUnknown))
  /\ (j ← MultiFork.MarshalJSON (Sample.capella_envelope (Some [x01]) [x02] None);
      Ok (MultiFork.UnmarshalJSON Sample.blank j).2)
     = Ok (Err (ErrFailedToUnmarshal DataVersionUnknown)).
Proof. repeat split; vm_compute; reflexivity. Qed.

Lemma C1_witness :
  exists j,
    DenebOnly.MarshalJSON (deneb_envelope (Some [x01]) [x02] (Some Sample.proof1)) = Ok j
    /\ DenebOnly.UnmarshalJSON Sample.blank j
       = (Sample.blank, Err (ErrFailedToUnmarshal DataVersionUnknown))
    /\ (MultiFork.UnmarshalJSON Sample.blank j).2 <> Ok tt
    /\ DenebOnly.UnmarshalJSON Sample.blank (wrapped (JString (Sample.q "deneb")) j)
       = (deneb_envelope (Some [x01]) [x02] (Some Sample.proof1), Ok tt).
Proof.
  destruct (@C1_decode_after_encode _ _ _ Sample.externals) as (H1 & H2 & H3).
  destruct (H3 Sample.blank (Some [x01]) [x02] (Some Sample.proof1)
              (JString (Sample.q "deneb"))) as (j & Hj & Hd).
  - vm_compute. reflexivity.
  - intros b [= <-]. eexists.
    split; [vm_compute; reflexivity | split; [discriminate | vm_compute; reflexivity]].
  - eexists.
    split; [vm_compute; reflexivity | split; [discriminate | vm_compute; reflexivity]].
  - intros p [= <-]. split; [|split].
    + repeat constructor. eexists.
      split; [vm_compute; reflexivity | split; [discriminate | vm_compute; reflexivity]].
    + repeat constructor; vm_compute; congruence.
    + repeat constructor; discriminate.
  - exists j. repeat split.
    + exact Hj.
    + apply (H2 (deneb_envelope (Some [x01]) [x02] (Some Sample.proof1))). exact Hj.
    + apply (H1 (deneb_envelope (Some [x01]) [x02] (Some Sample.proof1))).
      revert Hj. vm_compute. intros H; exact H.
    + exact Hd.
Defined.

(** C8 on the sample codecs. *)
Lemma C8_witness :
  MultiFork.MarshalJSON
    ({| Proofs := None;
        Embedded := Some {| Version := DataVersionAltair; Bellatrix := None;
                            Capella := None; Deneb := None |} |} : Sample.Envelope)
  = Err (ErrUnknownDataVersion DataVersionAltair)
  /\ DenebOnly.MarshalJSON (Sample.capella_envelope (Some [x01]) [x02] None)
     = Err (ErrUnknownDataVersion DataVersionCapella)
  /\ (MultiFork.UnmarshalJSON Sample.blank
        (wrapped (JString (Sample.q "phase0")) (JObject []))).2
     = Err (ErrFailedToUnmarshal DataVersionPhase0)
  /\ DenebOnly.UnmarshalJSON Sample.blank
       (wrapped (JString (Sample.q "capella")) (JObject []))
     = (Sample.blank, Err (ErrFailedToUnmarshal DataVersionCapella))
  /\ DenebOnly.UnmarshalJSON Sample.blank (JObject [(bs "data", JObject [])])
     = (Sample.blank, Err (ErrFailedToUnmarshal DataVersionUnknown)).
Proof.
  destruct (@C8_unsupported_version_rejected _ _ _ Sample.externals)
    as (H1 & H2 & H3 & H4 & _).
  split; [|split; [|split; [|split]]].
  - apply (H1 _ {| Version := DataVersionAltair; Bellatrix := None;
                   Capella := None; Deneb := None |}); reflexivity.
  - apply (H2 _ {| Version := DataVersionCapella; Bellatrix := None;
                   Capella := Some {| Message := Some [x01]; Signature := [x02] |};
                   Deneb := None |}); reflexivity.
  - apply (H3 Sample.blank _
             {| MultiFork.partial_Version := DataVersionPhase0;
                MultiFork.partial_Proofs := None |}); reflexivity.
  - apply H4; reflexivity.
  - apply H4; reflexivity.
Defined.

(* ================================================================== *)
(** * The bounded cache: properties *)

Lemma lru_find_None {V} (key : Z) (l : list (Z * V)) :
  lru.find key l = None <-> key ∉ map fst l.
Proof.
  induction l as [|[k v] l IH]; cbn [lru.find map fst].
  - split; [intros _; apply not_elem_of_nil | reflexivity].
  - destruct (decide (k = key)) as [->|Hne].
    + split; [discriminate | intros Hn; exfalso; apply Hn; left].
    + rewrite IH, not_elem_of_cons. split; [intros ?; split; congruence | intros [_ ?]; assumption].
Qed.

Lemma lru_find_Some {V} (key : Z) (l : list (Z * V)) :
  is_Some (lru.find key l) <-> key ∈ map fst l.
Proof.
  rewrite <- not_eq_None_Some, lru_find_None.
  split; [apply dec_stable | intros H ?; contradiction].
Qed.

Lemma elem_of_rev {A} (x : A) (l : list A) : x ∈ rev l <-> x ∈ l.
Proof. rewrite !list_elem_of_In. symmetry. apply in_rev. Qed.

Lemma removelast_take {A} (l : list A) :
  removelast l = take (length l - 1) l.
Proof.
  induction l as [|x [|y l] IH]; [reflexivity ..|].
  change (removelast (x :: y :: l)) with (x :: removelast (y :: l)).
  rewrite IH.
  replace (length (x :: y :: l) - 1)%nat with (S (length (y :: l) - 1))
    by (cbn [length]; lia).
  reflexivity.
Qed.

(** Adding a key that is not cached puts it in front and keeps at most
    [size] entries, the most recent ones. *)
Lemma lru_Add_fresh {V} (c : lru.Cache V) (key : Z) (v : V) :
  lru.find key (lru.items c) = None ->
  0 < lru.size c ->
  (Z.of_nat (length (lru.items c)) <= lru.size c) ->
  (lru.Add c key v).1
  = {| lru.size := lru.size c;
       lru.items := take (Z.to_nat (lru.size c)) ((key, v) :: lru.items c) |}.
Proof.
  intros Hf Hpos Hlen. unfold lru.Add. rewrite Hf. cbn [fst]. f_equal.
  case_bool_decide as Hev.
  - unfold lru.removeOldest. rewrite removelast_take. f_equal.
    cbn [length] in *. lia.
  - rewrite take_ge; [reflexivity|]. cbn [length] in *. lia.
Qed.

(* ================================================================== *)
(** * The constraints cache: properties *)

Section CacheProperties.

Context `{TxCodec}.

(** Through the nil map nothing is written. *)
Lemma add_loop_nil_store (transactions : list (option HexTransaction)) st :
  (add_loop None transactions st).1 = st.
Proof.
  destruct transactions as [|[txRaw|] rest]; cbn [add_loop]; [reflexivity| |reflexivity].
  destruct (UnmarshalBinary txRaw); [|reflexivity ..].
  destruct (MarshalBinary _); reflexivity.
Qed.

(** A non-empty call on a slot that is not cached: the slot is bound to a
    fresh empty map, and the loop runs on the nil map the lookup returned. *)
Lemma add_on_new_slot (c : ConstraintsCache) cache slot transactions :
  constraints c = Some cache ->
  lru.find slot (lru.items cache) = None ->
  transactions <> [] ->
  AddInclusionConstraints c slot transactions
  = ({| store := <[fresh (dom (store c)) := ∅]> (store c);
        constraints := Some (lru.Add cache slot (Some (fresh (dom (store c))))).1 |},
     (add_loop None transactions (<[fresh (dom (store c)) := ∅]> (store c))).2).
Proof.
  intros Hc Hf Hne. unfold AddInclusionConstraints.
  rewrite bool_decide_eq_false_2 by (destruct transactions; [congruence | discriminate]).
  rewrite Hc. unfold lru.Get. rewrite Hf. cbn [from_option id].
  pose proof (add_loop_nil_store transactions
                (<[fresh (dom (store c)) := ∅]> (store c))) as Hst.
  destruct (add_loop None transactions _) as [st r]. cbn [fst snd] in *.
  rewrite Hst. reflexivity.
Qed.

(** A call on a slot that is cached: the entry moves to the front and the
    loop writes through the map it holds. *)
Lemma add_on_cached_slot (c : ConstraintsCache) cache slot m transactions :
  constraints c = Some cache ->
  lru.find slot (lru.items cache) = Some m ->
  transactions <> [] ->
  AddInclusionConstraints c slot transactions
  = ({| store := (add_loop m transactions (store c)).1;
        constraints := Some {| lru.size := lru.size cache;
                               lru.items := (slot, m) :: lru.remove slot (lru.items cache) |} |},
     (add_loop m transactions (store c)).2).
Proof.
  intros Hc Hf Hne. unfold AddInclusionConstraints.
  rewrite bool_decide_eq_false_2 by (destruct transactions; [congruence | discriminate]).
  rewrite Hc. unfold lru.Get. rewrite Hf. cbn [from_option id].
  destruct (add_loop m transactions (store c)) as [st r]. reflexivity.
Qed.

Lemma slot_map_cached (c : ConstraintsCache) cache slot l :
  constraints c = Some cache ->
  lru.find slot (lru.items cache) = Some (Some l) ->
  slot_map c slot = store c !! l.
Proof.
  intros Hc Hf. unfold slot_map, Get. rewrite Hc. unfold lru.Get. rewrite Hf.
  reflexivity.
Qed.

Lemma slot_map_inv (c : ConstraintsCache) slot tm :
  slot_map c slot = Some tm ->
  exists cache l,
    constraints c = Some cache
    /\ lru.find slot (lru.items cache) = Some (Some l)
    /\ store c !! l = Some tm.
Proof.
  unfold slot_map, Get. destruct (constraints c) as [cache|]; [|discriminate].
  unfold lru.Get. destruct (lru.find slot (lru.items cache)) as [[l|]|] eqn:Hf;
    cbn; try discriminate.
  intros Hl. eauto.
Qed.

(** After a non-empty call on a slot that was not cached, the slot is
    bound to an empty map. *)
Lemma new_slot_bound_to_empty_map (c : ConstraintsCache) cache slot transactions :
  constraints c = Some cache ->
  0 < lru.size cache ->
  lru.find slot (lru.items cache) = None ->
  transactions <> [] ->
  slot_map (AddInclusionConstraints c slot transactions).1 slot = Some ∅.
Proof.
  intros Hc Hpos Hf Hne. rewrite (add_on_new_slot c cache) by assumption.
  cbn [fst]. erewrite slot_map_cached; [| reflexivity |].
  - cbn [store]. apply lookup_insert_eq.
  - unfold lru.Add. rewrite Hf. cbn [fst lru.items].
    case_bool_decide as Hev.
    + destruct (lru.items cache) as [|kv items]; [cbn [length] in Hev; lia|].
      unfold lru.removeOldest.
      change (removelast ((slot, Some (fresh (dom (store c)))) :: kv :: items))
        with ((slot, Some (fresh (dom (store c)))) :: removelast (kv :: items)).
      cbn [lru.find]. rewrite decide_True by reflexivity. reflexivity.
    + cbn [lru.find]. rewrite decide_True by reflexivity. reflexivity.
Qed.

(** C9. A call with no transaction returns no error and leaves the cache,
    the order of its slots included, as it was. *)
Theorem C9_empty_input_is_a_noop (c : ConstraintsCache) (slot : Z) :
  AddInclusionConstraints c slot [] = (c, Ok tt).
Proof. reflexivity. Qed.

(** C10. [FindTransactionByHash] leaves the cache as it was: the slots,
    their maps and the order of the slots; whatever is called next behaves as
    if the search had not taken place. *)
Theorem C10_find_leaves_the_cache_alone (c : ConstraintsCache) (txHash : Hash) :
  (FindTransactionByHash c txHash).1 = c
  /\ cached_slots (FindTransactionByHash c txHash).1 = cached_slots c
  /\ (forall slot transactions,
         AddInclusionConstraints (FindTransactionByHash c txHash).1 slot transactions
         = AddInclusionConstraints c slot transactions)
  /\ (forall slot, Get (FindTransactionByHash c txHash).1 slot = Get c slot).
Proof.
  assert ((FindTransactionByHash c txHash).1 = c) as ->
      by (unfold FindTransactionByHash; destruct (constraints c); reflexivity).
  repeat split.
Qed.

(** By contrast, [Get] records an access: the slot it finds becomes the
    most recent one. *)
Lemma Get_moves_slot_to_front (c : ConstraintsCache) slot :
  slot ∈ cached_slots c ->
  exists rest, cached_slots (Get c slot).1 = slot :: rest.
Proof.
  unfold cached_slots, Get. destruct (constraints c) as [cache|]; [|intros []%elem_of_nil].
  intros [m Hm]%lru_find_Some. unfold lru.Get. rewrite Hm. cbn. eauto.
Qed.

(** C3 (amended). On a cache built with a positive capacity, a call whose
    only transaction is nil returns the error of a malformed input; when the
    slot had no entry before the call, it has one after it, bound to an empty
    map; when the slot had an entry and the nil transaction comes second
    after a valid one, the error is the same and the first transaction is in
    the map of the slot after the call. *)
Theorem C3_nil_transaction (c : ConstraintsCache) (cache : lru.Cache mapref) (slot : Z) :
  constraints c = Some cache ->
  0 < lru.size cache ->
  (AddInclusionConstraints c slot [None]).2 = Err ErrNilTransaction
  /\ error_kind ErrNilTransaction = MalformedInput
  /\ (slot ∉ cached_slots c ->
      slot_map (AddInclusionConstraints c slot [None]).1 slot = Some ∅)
  /\ (forall tm txRaw tx raw,
         slot_map c slot = Some tm ->
         UnmarshalBinary txRaw = Ok tx ->
         MarshalBinary (WithoutBlobTxSidecar tx) = Ok raw ->
         (AddInclusionConstraints c slot [Some txRaw; None]).2 = Err ErrNilTransaction
         /\ slot_map (AddInclusionConstraints c slot [Some txRaw; None]).1 slot
            = Some (<[TxHash (WithoutBlobTxSidecar tx) := raw]> tm)).
Proof.
  intros Hc Hpos. split; [|split; [reflexivity|split]].
  - unfold AddInclusionConstraints. cbn [length]. rewrite bool_decide_eq_false_2 by discriminate.
    rewrite Hc. destruct (lru.Get cache slot) as [cache' [m|]]; reflexivity.
  - intros Hf. unfold cached_slots in Hf. rewrite Hc in Hf. apply lru_find_None in Hf.
    apply (new_slot_bound_to_empty_map c cache); [assumption ..|discriminate].
  - intros tm txRaw tx raw Htm Htx Hraw.
    apply slot_map_inv in Htm as (cache0 & l & Hc0 & Hf & Hl).
    rewrite Hc in Hc0. injection Hc0 as <-.
    rewrite (add_on_cached_slot c cache slot (Some l)) by (assumption || discriminate).
    cbn [add_loop]. rewrite Htx, Hraw. cbn [fst snd]. split; [reflexivity|].
    erewrite slot_map_cached; [| reflexivity |].
    + cbn [store]. rewrite lookup_alter_eq, Hl. reflexivity.
    + cbn [lru.items lru.find]. rewrite decide_True by reflexivity. reflexivity.
Qed.

(** What the specification promises of a successful call holds on a slot
    that is cached already: the transaction is in the map of the slot, under
    its hash and in its normalized form, and the search by hash returns it
    (no other map binds the hash to other bytes). *)
Lemma scan_finds (st : gmap loc TransactionHashMap) txHash raw (values : list mapref) :
  (exists m, m ∈ values /\ map_lookup st m txHash = Some raw) ->
  (forall m b, m ∈ values -> map_lookup st m txHash = Some b -> b = raw) ->
  scan st txHash values = Some raw.
Proof.
  induction values as [|m values IH]; intros (m0 & Hin & Hm0) Hall.
  - apply elem_of_nil in Hin as [].
  - cbn [scan]. destruct (map_lookup st m txHash) as [b|] eqn:Hm.
    + f_equal. apply (Hall m b); [left | exact Hm].
    + apply IH.
      * apply elem_of_cons in Hin as [->|Hin]; [congruence | eauto].
      * intros m' b' Hin'. apply Hall. right. exact Hin'.
Qed.

Lemma add_on_cached_slot_succeeds (c : ConstraintsCache) slot tm txRaw tx raw :
  slot_map c slot = Some tm ->
  UnmarshalBinary txRaw = Ok tx ->
  MarshalBinary (WithoutBlobTxSidecar tx) = Ok raw ->
  (forall l tm', store c !! l = Some tm' ->
                 tm' !! TxHash (WithoutBlobTxSidecar tx) = None
                 \/ tm' !! TxHash (WithoutBlobTxSidecar tx) = Some raw) ->
  let c' := (AddInclusionConstraints c slot [Some txRaw]).1 in
  (AddInclusionConstraints c slot [Some txRaw]).2 = Ok tt
  /\ slot_map c' slot = Some (<[TxHash (WithoutBlobTxSidecar tx) := raw]> tm)
  /\ (FindTransactionByHash c' (TxHash (WithoutBlobTxSidecar tx))).2 = Ok (Some raw).
Proof.
  intros Htm Htx Hraw Hother c'. subst c'.
  apply slot_map_inv in Htm as (cache & l & Hc & Hf & Hl).
  rewrite (add_on_cached_slot c cache slot (Some l)) by (assumption || discriminate).
  cbn [add_loop]. rewrite Htx, Hraw. cbn [fst snd].
  split; [reflexivity|]. split.
  - erewrite slot_map_cached; [| reflexivity |].
    + cbn [store]. rewrite lookup_alter_eq, Hl. reflexivity.
    + cbn [lru.items lru.find]. rewrite decide_True by reflexivity. reflexivity.
  - unfold FindTransactionByHash. cbn [constraints store snd]. f_equal.
    apply scan_finds.
    + exists (Some l). split.
      * unfold lru.Values. cbn [lru.items map snd]. apply elem_of_rev. left.
      * cbn [map_lookup]. rewrite lookup_alter_eq, Hl. cbn. apply lookup_insert_eq.
    + intros [l'|] b _; cbn [map_lookup]; [|discriminate].
      destruct (decide (l' = l)) as [->|Hne].
      * rewrite lookup_alter_eq, Hl. cbn. rewrite lookup_insert_eq.
        intros Hb. injection Hb as <-. reflexivity.
      * rewrite lookup_alter_ne by congruence.
        destruct (store c !! l') as [tm'|] eqn:Hl'; [|discriminate].
        intros Hb. destruct (Hother l' tm' Hl') as [Hn|Hs].
        -- pose proof (eq_trans (eq_sym Hb) Hn) as E. discriminate E.
        -- pose proof (eq_trans (eq_sym Hb) Hs) as E. injection E as <-. reflexivity.
Qed.


End CacheProperties.

(** C3, as stated, fails: the slot 5 has no entry in a new cache, the call
    with the nil transaction returns the error, and the slot has an entry
    after it. *)
Lemma C3_counterexample :
  slot_map (NewConstraintsCache 4) 5 = None
  /\ (Get (NewConstraintsCache 4) 5).2 = Ok (None, false)
  /\ (AddInclusionConstraints (NewConstraintsCache 4) 5 [None]).2 = Err ErrNilTransaction
  /\ cached_slots (AddInclusionConstraints (NewConstraintsCache 4) 5 [None]).1 = [5]
  /\ (Get (AddInclusionConstraints (NewConstraintsCache 4) 5 [None]).1 5).2
     = Ok (Some 1%positive, true)
  /\ slot_map (AddInclusionConstraints (NewConstraintsCache 4) 5 [None]).1 5 = Some ∅.
Proof. repeat split; vm_compute; reflexivity. Qed.

Lemma C3_witness :
  (AddInclusionConstraints (NewConstraintsCache 4) 7 [None]).2 = Err ErrNilTransaction
  /\ slot_map (AddInclusionConstraints (NewConstraintsCache 4) 7 [None]).1 7 = Some ∅
  /\ (AddInclusionConstraints Sample.cache_with_slot_5 5 [Some [xff; x02; x61]; None]).2
     = Err ErrNilTransaction
  /\ slot_map (AddInclusionConstraints Sample.cache_with_slot_5 5
                 [Some [xff; x02; x61]; None]).1 5
     = Some (<[[x02; x61] := [x02; x61]]> ∅).
Proof.
  destruct (C3_nil_transaction (NewConstraintsCache 4)
              {| lru.size := 4; lru.items := [] |} 7 eq_refl ltac:(reflexivity))
    as (H1 & _ & H2 & _).
  destruct (C3_nil_transaction Sample.cache_with_slot_5
              {| lru.size := 4; lru.items := [(5, Some 1%positive)] |} 5
              eq_refl ltac:(reflexivity))
    as (_ & _ & _ & H3).
  destruct (H3 ∅ [xff; x02; x61] {| Sample.body := [x02; x61]; Sample.sidecar := true |}
              [x02; x61]) as (H4 & H5); [vm_compute; reflexivity | reflexivity ..|].
  split; [exact H1|]. split; [|split; [exact H4 | exact H5]].
  apply H2. vm_compute. intros Hin. inversion Hin.
Defined.

(** C2: the code at the failing input.  The first call for a slot, with a
    transaction that decodes, panics on the write to the nil map; the slot is
    left bound to an empty map and the transaction is not found. *)
Theorem C2_first_call_for_a_slot_panics :
  UnmarshalBinary [x02; x61] = Ok {| Sample.body := [x02; x61]; Sample.sidecar := false |}
  /\ (AddInclusionConstraints (NewConstraintsCache 4) 5 [Some [x02; x61]]).2
     = Panic NilMapAssignment
  /\ slot_map (AddInclusionConstraints (NewConstraintsCache 4) 5 [Some [x02; x61]]).1 5
     = Some ∅
  /\ (FindTransactionByHash
        (AddInclusionConstraints (NewConstraintsCache 4) 5 [Some [x02; x61]]).1
        [x02; x61]).2 = Ok None.
Proof. repeat split; vm_compute; reflexivity. Qed.

(* ================================================================== *)
(** * The slots that can be retrieved *)

Section Retrievable.

Context `{TxCodec}.

Lemma retrievable_iff (c : ConstraintsCache) slot :
  retrievable c slot <-> slot ∈ cached_slots c.
Proof.
  unfold retrievable, cached_slots, Get. destruct (constraints c) as [cache|].
  - rewrite <- lru_find_Some. unfold lru.Get.
    destruct (lru.find slot (lru.items cache)) as [m|]; cbn.
    + split; [eauto | intros _; exists m; reflexivity].
    + split; [intros [m [=]] | intros [? [=]]].
  - split; [intros [m [=]] | intros []%elem_of_nil].
Qed.

End Retrievable.

(* ================================================================== *)
(** * HexBytes: more properties *)

Lemma bytes_Equal_eq (a b : list byte) : bytes_Equal a b = true <-> a = b.
Proof.
  revert b. induction a as [|x a IH]; intros [|y b]; cbn [bytes_Equal];
    try (split; [discriminate | congruence]); [split; reflexivity|].
  rewrite andb_true_iff, bool_decide_eq_true, IH.
  split; [intros [-> ->]; reflexivity | intros [= -> ->]; split; reflexivity].
Qed.

(** X1. A byte array that is not empty is read back from what
    [MarshalJSON] prints, whatever the receiver held, and the result is
    [Equal] to it; the empty array is printed as two quotes, which
    [UnmarshalJSON] rejects for its prefix, leaving the receiver as it was. *)
Theorem X1_HexBytes_roundtrip_unless_empty (h0 h : HexBytes) (lit : list byte) :
  HexBytes_MarshalJSON h = Ok lit ->
  (h <> [] ->
   HexBytes_UnmarshalJSON h0 lit = (h, None)
   /\ HexBytes_Equal h (HexBytes_UnmarshalJSON h0 lit).1 = true)
  /\ (h = [] -> HexBytes_UnmarshalJSON h0 lit = (h0, Some ErrInvalidPrefix)).
Proof.
  intros Hm. split.
  - intros Hne. destruct (HexBytes_roundtrip h0 h Hne) as (lit' & Hm' & Hu).
    rewrite Hm in Hm'. injection Hm' as <-. rewrite Hu. split; [reflexivity|].
    apply bytes_Equal_eq. reflexivity.
  - intros ->. injection Hm as <-. reflexivity.
Qed.

Lemma X1_witness :
  HexBytes_UnmarshalJSON [x01] (hex_literal (bs "dead")) = ([xde; xad], None)
  /\ HexBytes_Equal [xde; xad]
       (HexBytes_UnmarshalJSON [x01] (hex_literal (bs "dead"))).1 = true
  /\ HexBytes_UnmarshalJSON [x01] [quote; quote] = ([x01], Some ErrInvalidPrefix).
Proof.
  destruct (X1_HexBytes_roundtrip_unless_empty [x01] [xde; xad] (hex_literal (bs "dead"))
              eq_refl) as (H1 & _).
  destruct (X1_HexBytes_roundtrip_unless_empty [x01] [] [quote; quote] eq_refl)
    as (_ & H2).
  destruct H1 as (Ha & Hb); [discriminate|].
  split; [exact Ha|]. split; [exact Hb|]. apply H2. reflexivity.
Defined.

(** X2. [MarshalJSON] tells byte arrays apart: two different arrays are
    never printed alike. *)
Theorem X2_HexBytes_MarshalJSON_injective (h1 h2 : HexBytes) :
  h1 <> h2 -> HexBytes_MarshalJSON h1 <> HexBytes_MarshalJSON h2.
Proof.
  intros Hne Heq. apply Hne. unfold HexBytes_MarshalJSON in Heq.
  injection Heq as Heq. apply app_inv_tail in Heq.
  destruct h1 as [|c1 h1], h2 as [|c2 h2]; try reflexivity; try discriminate Heq.
  unfold hex.sharp_x in Heq. apply app_inv_head in Heq.
  pose proof (DecodeString_digits (c1 :: h1)) as H1.
  rewrite Heq, DecodeString_digits in H1. congruence.
Qed.

Lemma X2_witness :
  HexBytes_MarshalJSON [x0a; xbc] <> HexBytes_MarshalJSON [xab; x0c]
  /\ HexBytes_MarshalJSON [] <> HexBytes_MarshalJSON [x00].
Proof.
  split; apply X2_HexBytes_MarshalJSON_injective; discriminate.
Defined.

Lemma is_hex_plain (payload : list byte) :
  forallb is_hex payload = true -> forallb plain payload = true.
Proof.
  induction payload as [|c payload IH]; [reflexivity|]. cbn [forallb].
  intros [Hc Hp]%andb_prop. rewrite (IH Hp), andb_true_r.
  revert Hc. destruct c; vm_compute; intros; congruence.
Qed.

Lemma fromHexChar_digit (c : byte) (a : N) :
  hex.fromHexChar c = Some a ->
  (a < 16)%N /\ [hex.digit a] = lower [c].
Proof.
  destruct c; vm_compute; intros [= <-]; split; reflexivity.
Qed.

Lemma join_split (a b : N) :
  (a < 16)%N -> (b < 16)%N ->
  N.shiftr (code (hex.join a b)) 4 = a /\ N.land (code (hex.join a b)) 15 = b.
Proof.
  intros Ha Hb.
  assert (a = 0 \/ a = 1 \/ a = 2 \/ a = 3 \/ a = 4 \/ a = 5 \/ a = 6 \/ a = 7
          \/ a = 8 \/ a = 9 \/ a = 10 \/ a = 11 \/ a = 12 \/ a = 13 \/ a = 14
          \/ a = 15)%N as Ha' by lia.
  assert (b = 0 \/ b = 1 \/ b = 2 \/ b = 3 \/ b = 4 \/ b = 5 \/ b = 6 \/ b = 7
          \/ b = 8 \/ b = 9 \/ b = 10 \/ b = 11 \/ b = 12 \/ b = 13 \/ b = 14
          \/ b = 15)%N as Hb' by lia.
  clear Ha Hb.
  repeat (destruct Ha' as [->|Ha']; [|]); try subst a;
    repeat (destruct Hb' as [->|Hb']; [|]); try subst b; split; reflexivity.
Qed.

Lemma DecodeString_hex (payload : list byte) :
  forallb is_hex payload = true ->
  Nat.even (length payload) = true ->
  exists b, hex.DecodeString payload = (b, None)
            /\ hex.digits b = lower payload
            /\ length payload = (2 * length b)%nat.
Proof.
  induction payload as [|c|c d payload IH] using list_ind2; intros Hh He.
  - exists []. repeat split.
  - discriminate He.
  - cbn [forallb] in Hh. apply andb_prop in Hh as [Hc Hh].
    apply andb_prop in Hh as [Hd Hh].
    destruct (IH Hh He) as (b & Hdec & Hdig & Hlen).
    unfold is_hex in Hc, Hd.
    destruct (hex.fromHexChar c) as [x|] eqn:Ex; [|discriminate].
    destruct (hex.fromHexChar d) as [y|] eqn:Ey; [|discriminate].
    destruct (fromHexChar_digit c x Ex) as [Hx Hcx].
    destruct (fromHexChar_digit d y Ey) as [Hy Hdy].
    destruct (join_split x y Hx Hy) as [Hhi Hlo].
    exists (hex.join x y :: b). split; [|split].
    + cbn [hex.DecodeString]. rewrite Ex, Ey.
      fold (hex.DecodeString payload). rewrite Hdec. reflexivity.
    + cbn [hex.digits]. rewrite Hhi, Hlo, Hdig.
      injection Hcx as Hcx. injection Hdy as Hdy. cbn [lower map].
      rewrite Hcx, Hdy. reflexivity.
    + cbn [length]. lia.
Qed.

(** X3. A payload made of an even, positive number of hexadecimal digits
    in either case is decoded without an error to half as many bytes, and
    [MarshalJSON] prints these as the payload in lower case: decoding accepts
    both cases and encoding is the canonical form. *)
Theorem X3_HexBytes_decode_then_encode_lowers (h0 : HexBytes) (payload : list byte) :
  payload <> [] ->
  forallb is_hex payload = true ->
  Nat.even (length payload) = true ->
  exists b,
    HexBytes_UnmarshalJSON h0 (hex_literal payload) = (b, None)
    /\ length payload = (2 * length b)%nat
    /\ HexBytes_MarshalJSON b = Ok (hex_literal (lower payload)).
Proof.
  intros Hne Hh He. destruct (DecodeString_hex payload Hh He) as (b & Hdec & Hdig & Hlen).
  exists b. split; [|split; [exact Hlen|]].
  - rewrite HexBytes_UnmarshalJSON_literal by (apply is_hex_plain; exact Hh).
    rewrite Hdec. reflexivity.
  - unfold HexBytes_MarshalJSON, hex_literal, hex.sharp_x.
    destruct b as [|c b]; [destruct payload; [congruence | discriminate Hlen]|].
    rewrite Hdig, <- !app_assoc. reflexivity.
Qed.

Lemma X3_witness :
  exists b,
    HexBytes_UnmarshalJSON [] (hex_literal (bs "DeadBEEF")) = (b, None)
    /\ length (bs "DeadBEEF") = (2 * length b)%nat
    /\ HexBytes_MarshalJSON b = Ok (hex_literal (bs "deadbeef")).
Proof.
  apply (X3_HexBytes_decode_then_encode_lowers [] (bs "DeadBEEF"));
    [discriminate | reflexivity | reflexivity].
Defined.

(* ================================================================== *)
(** * InclusionProof: more properties *)

(** A pointer to a byte array is always printed; it is read back unless it
    points to the empty array, for which the reading fails on the prefix. *)
Lemma HexBytes_ptr_Marshal_total (o : option HexBytes) :
  exists j, HexBytes_ptr_Marshal o = Ok j
            /\ (o <> Some [] -> HexBytes_ptr_Unmarshal j = Ok o)
            /\ (o = Some [] -> HexBytes_ptr_Unmarshal j = Err ErrInvalidPrefix).
Proof.
  destruct (decide (o = Some [])) as [->|Hne].
  - exists (JString [quote; quote]). split; [reflexivity|].
    split; [congruence | reflexivity].
  - destruct (HexBytes_ptr_roundtrip o Hne) as (j & He & Hd).
    exists j. split; [exact He|]. split; [intros _; exact Hd | congruence].
Qed.

Lemma mapM_HexBytes_ptr_empty (l : list (option HexBytes)) :
  Some [] ∈ l ->
  exists js, mapM HexBytes_ptr_Marshal l = Ok js
             /\ mapM HexBytes_ptr_Unmarshal js = Err ErrInvalidPrefix.
Proof.
  assert (forall l : list (option HexBytes),
             exists js, mapM HexBytes_ptr_Marshal l = Ok js) as Htotal.
  { induction l0 as [|o l0 [js Hjs]]; [exists []; reflexivity|].
    destruct (HexBytes_ptr_Marshal_total o) as (j & Hj & _).
    exists (j :: js). cbn. rewrite Hj. cbn. rewrite Hjs. reflexivity. }
  induction l as [|o l IH]; intros Hin; [apply elem_of_nil in Hin as []|].
  destruct (HexBytes_ptr_Marshal_total o) as (j & Hj & Hok & Hbad).
  destruct (decide (o = Some [])) as [Ho|Ho].
  - destruct (Htotal l) as [js Hjs]. exists (j :: js). split.
    + cbn. rewrite Hj. cbn. rewrite Hjs. reflexivity.
    + cbn. rewrite (Hbad Ho). reflexivity.
  - apply elem_of_cons in Hin as [Hin|Hin]; [congruence|].
    destruct (IH Hin) as (js & Hjs & Hd). exists (j :: js). split.
    + cbn. rewrite Hj. cbn. rewrite Hjs. reflexivity.
    + cbn. rewrite (Hok Ho). cbn. rewrite Hd. reflexivity.
Qed.

Section ProofProperties.

Variable Hash32_json : codec Hash32.

(** X4. An inclusion proof whose transaction hashes are read back by
    their codec, whose indices are values of a [uint64] and which has no empty
    sibling hash is read back, by [json.Unmarshal] into a nil pointer, from
    what [json.Marshal] prints for it. *)
Theorem X4_InclusionProof_json_roundtrip (p : InclusionProof) :
  proof_on_wire Hash32_json p ->
  exists j,
    InclusionProof_Marshal Hash32_json p = Ok j
    /\ InclusionProof_ptr_Unmarshal Hash32_json None j = Ok (Some p).
Proof.
  intros Hp.
  destruct (InclusionProof_ptr_roundtrip Hash32_json (Some p)) as (j & He & Hd).
  - intros ? [= <-]. exact Hp.
  - exists j. split; assumption.
Qed.

(** X5. A proof with an empty sibling hash is printed all the same, and
    what is printed cannot be read back: the reading fails with the error of
    an invalid prefix. *)
Theorem X5_empty_sibling_hash_is_not_read_back (p : InclusionProof) :
  Forall (roundtrips Hash32_json) (elems (TransactionHashes p)) ->
  Forall (fun n => 0 <= n < 2 ^ 64) (elems (GeneralizedIndexes p)) ->
  Some [] ∈ elems (MerkleHashes p) ->
  exists j,
    InclusionProof_Marshal Hash32_json p = Ok j
    /\ InclusionProof_ptr_Unmarshal Hash32_json None j = Err ErrInvalidPrefix
    /\ error_kind ErrInvalidPrefix = InvalidHexEncoding.
Proof.
  intros Hth Hgi Hmh.
  destruct (slice_roundtrip (marshal Hash32_json) (unmarshal Hash32_json)
              (TransactionHashes p)) as (jth & Eth & Dth).
  { eapply Forall_impl; [exact Hth|]. intros h (j & ? & ? & ?). eauto. }
  destruct (slice_roundtrip jsonlib.Marshal_uint64 jsonlib.Unmarshal_uint64
              (GeneralizedIndexes p)) as (jgi & Egi & Dgi).
  { eapply Forall_impl; [exact Hgi|]. intros n Hn. apply uint64_roundtrip, Hn. }
  destruct (MerkleHashes p) as [mh|] eqn:Emh; [|apply elem_of_nil in Hmh as []].
  cbn [elems from_option id] in Hmh.
  destruct (mapM_HexBytes_ptr_empty mh Hmh) as (js & Ejs & Djs).
  exists (JObject [(bs "transaction_hashes", jth); (bs "generalized_indexes", jgi);
                   (bs "merkle_hashes", JArray js)]).
  split; [|split; [|reflexivity]].
  - unfold InclusionProof_Marshal. rewrite Eth, Egi, Emh.
    cbn [mbind res_bind jsonlib.Marshal_slice]. rewrite Ejs. reflexivity.
  - unfold InclusionProof_ptr_Unmarshal, jsonlib.Unmarshal_ptr, jsonlib.Unmarshal_struct.
    cbn [foldl fst snd from_option id].
    change (jsonlib.select (InclusionProof_fields Hash32_json) (bs "transaction_hashes"))
      with (Some (snd (nth 0 (InclusionProof_fields Hash32_json) (bs "", fun _ p => Ok p)))).
    change (jsonlib.select (InclusionProof_fields Hash32_json) (bs "generalized_indexes"))
      with (Some (snd (nth 1 (InclusionProof_fields Hash32_json) (bs "", fun _ p => Ok p)))).
    change (jsonlib.select (InclusionProof_fields Hash32_json) (bs "merkle_hashes"))
      with (Some (snd (nth 2 (InclusionProof_fields Hash32_json) (bs "", fun _ p => Ok p)))).
    cbn [InclusionProof_fields nth snd mbind res_bind].
    rewrite Dth. cbn [mbind res_bind]. rewrite Dgi. cbn [mbind res_bind].
    cbn [jsonlib.Unmarshal_slice]. rewrite Djs. reflexivity.
Qed.

(** X6. The proof built from a multiproof is read back from what is
    printed for it, with any codec of the transaction hashes (it has none),
    when no sibling hash of the multiproof is empty and its indices are not
    negative. *)
Theorem X6_proof_of_multiproof_json_roundtrip (mp : Multiproof) :
  Forall (fun h => h <> []) (elems (Hashes mp)) ->
  Forall (fun idx => 0 <= idx < 2 ^ 63) (elems (Indices mp)) ->
  exists p j,
    InclusionProofFromMultiProof (Some mp) = Ok p
    /\ InclusionProof_Marshal Hash32_json p = Ok j
    /\ InclusionProof_ptr_Unmarshal Hash32_json None j = Ok (Some p)
    /\ elems (GeneralizedIndexes p) = elems (Indices mp).
Proof.
  intros Hh Hi.
  assert (elems (Some (make_and_fill 0 uint64 (elems (Indices mp)))) = elems (Indices mp))
    as Hidx.
  { cbn [elems from_option id]. rewrite make_and_fill_map.
    induction Hi as [|idx l Hidx _ IH]; [reflexivity|]. cbn [map]. rewrite IH.
    f_equal. unfold uint64. apply Z.mod_small. lia. }
  eexists.
  destruct (InclusionProof_ptr_roundtrip Hash32_json
              (Some {| TransactionHashes := None;
                       GeneralizedIndexes :=
                         Some (make_and_fill 0 uint64 (elems (Indices mp)));
                       MerkleHashes :=
                         Some (make_and_fill None (fun h => Some (h : HexBytes))
                                 (elems (Hashes mp))) |})) as (j & He & Hd).
  - intros ? [= <-]. split; [constructor|]. cbn [GeneralizedIndexes MerkleHashes]. split.
    + rewrite Hidx. eapply Forall_impl; [exact Hi|]. cbn. intros idx ?. lia.
    + cbn [elems from_option id]. rewrite make_and_fill_map.
      apply Forall_forall. intros o [h [<- Hin]]%list_elem_of_In%in_map_iff.
      rewrite Forall_forall in Hh. intros [= ->].
      apply (Hh []); [apply list_elem_of_In; exact Hin | reflexivity].
  - exists j. split; [reflexivity|]. split; [exact He|]. split; [exact Hd | exact Hidx].
Qed.

End ProofProperties.

Lemma X4_witness :
  exists j,
    InclusionProof_Marshal Sample.hex_codec Sample.proof1 = Ok j
    /\ InclusionProof_ptr_Unmarshal Sample.hex_codec None j = Ok (Some Sample.proof1).
Proof.
  apply X4_InclusionProof_json_roundtrip. split; [|split].
  - repeat constructor. eexists.
    split; [vm_compute; reflexivity | split; [discriminate | vm_compute; reflexivity]].
  - repeat constructor; vm_compute; congruence.
  - repeat constructor; discriminate.
Defined.

Lemma X5_witness :
  exists j,
    InclusionProof_Marshal Sample.hex_codec
      {| TransactionHashes := None; GeneralizedIndexes := Some [7];
         MerkleHashes := Some [Some [xab]; Some []] |} = Ok j
    /\ InclusionProof_ptr_Unmarshal Sample.hex_codec None j = Err ErrInvalidPrefix
    /\ error_kind ErrInvalidPrefix = InvalidHexEncoding.
Proof.
  apply X5_empty_sibling_hash_is_not_read_back.
  - constructor.
  - repeat constructor; vm_compute; congruence.
  - apply (bool_decide_unpack _). vm_compute. exact I.
Defined.

Lemma X6_witness :
  exists p j,
    InclusionProofFromMultiProof
      (Some {| Indices := Some [5; 12]; Leaves := Some [[x01]];
               Hashes := Some [[xaa]; [xbb; xcc]] |}) = Ok p
    /\ InclusionProof_Marshal Sample.hex_codec p = Ok j
    /\ InclusionProof_ptr_Unmarshal Sample.hex_codec None j = Ok (Some p)
    /\ elems (GeneralizedIndexes p) = [5; 12].
Proof.
  apply (X6_proof_of_multiproof_json_roundtrip Sample.hex_codec
           {| Indices := Some [5; 12]; Leaves := Some [[x01]];
              Hashes := Some [[xaa]; [xbb; xcc]] |}).
  - repeat constructor; discriminate.
  - repeat constructor; vm_compute; congruence.
Defined.

(* ================================================================== *)
(** * The versioned bid envelope: more properties *)

Section EnvelopeMore.

Context {BellatrixBid CapellaBid DenebBid : Type}.
Context `{!Externals BellatrixBid CapellaBid DenebBid}.

#[local] Abbreviation Envelope :=
  (VersionedSignedBuilderBidWithProofs BellatrixBid CapellaBid DenebBid).

(** X7. On an envelope whose version is Deneb the two revisions of
    [MarshalJSON] return the same: the same bytes, the same error or the same
    panic. *)
Theorem X7_revisions_encode_deneb_alike (e : Envelope) :
  (forall b, Embedded e = Some b -> Version b = DataVersionDeneb) ->
  MultiFork.MarshalJSON e = DenebOnly.MarshalJSON e.
Proof.
  intros Hv. unfold MultiFork.MarshalJSON, DenebOnly.MarshalJSON.
  destruct (Embedded e) as [b|]; [|reflexivity].
  rewrite (Hv b eq_refl). reflexivity.
Qed.

(** X8. The Deneb-only [UnmarshalJSON] leaves the receiver as it was
    whenever it does not succeed.  When it succeeds, the envelope is of the
    version Deneb with that payload populated and no other, it does not depend
    on what the receiver held, and [MarshalJSON] encodes it again without a
    panic and without the error of an unsupported version. *)
Theorem X8_DenebOnly_decode_outcome (v : Envelope) (data : json) :
  ((DenebOnly.UnmarshalJSON v data).2 <> Ok tt ->
   (DenebOnly.UnmarshalJSON v data).1 = v)
  /\ ((DenebOnly.UnmarshalJSON v data).2 = Ok tt ->
      exists message signature proofs,
        (forall v' : Envelope,
            DenebOnly.UnmarshalJSON v' data
            = (deneb_envelope message signature proofs, Ok tt))
        /\ DenebOnly.MarshalJSON (deneb_envelope message signature proofs)
           = Marshal_bid DenebBid_json message signature proofs).
Proof.
  unfold DenebOnly.UnmarshalJSON.
  destruct (DenebOnly.first_pass data) as [ver| |]; [|split; [reflexivity | discriminate] ..].
  destruct ver; try (split; [reflexivity | discriminate]).
  destruct (DenebOnly.second_pass data) as [d| |];
    [|split; [reflexivity | discriminate] ..].
  split; [intros Hn; exfalso; apply Hn; reflexivity|].
  intros _. exists (DenebOnly.Data_Message d), (DenebOnly.Data_Signature d),
              (DenebOnly.Data_Proofs d).
  split; reflexivity.
Qed.

(** X9. The multi-fork [UnmarshalJSON] leaves the receiver as it was when
    the first pass fails.  Once the first pass has succeeded, a call that does
    not succeed (unsupported version, or a failure of the second pass) has
    already replaced the bid of the receiver by an empty one; the proofs of the
    receiver are kept. *)
Theorem X9_MultiFork_receiver_after_failure (v : Envelope) (data : json) :
  (forall e, MultiFork.first_pass data = Err e ->
             MultiFork.UnmarshalJSON v data = (v, Err e))
  /\ (forall p, MultiFork.first_pass data = Ok p ->
                (MultiFork.UnmarshalJSON v data).2 <> Ok tt ->
                (MultiFork.UnmarshalJSON v data).1
                = {| Proofs := Proofs v; Embedded := Some VSBB_zero |}).
Proof.
  unfold MultiFork.UnmarshalJSON. split.
  - intros e ->. reflexivity.
  - intros p ->.
    repeat case_decide;
      repeat match goal with
             | |- context [MultiFork.second_pass ?c data] =>
                 destruct (MultiFork.second_pass c data)
             end;
      cbn [fst snd]; intros Hn; try reflexivity; exfalso; apply Hn; reflexivity.
Qed.

(** X10. An envelope that the multi-fork [UnmarshalJSON] has decoded with
    success has a supported version, the proofs the first pass has read, and
    no payload populated but the one of its version. *)
Theorem X10_MultiFork_decoded_shape (v v' : Envelope) (data : json) :
  MultiFork.UnmarshalJSON v data = (v', Ok tt) ->
  exists p b,
    MultiFork.first_pass data = Ok p
    /\ Proofs v' = MultiFork.partial_Proofs p
    /\ Embedded v' = Some b
    /\ Version b = MultiFork.partial_Version p
    /\ MultiFork.supported (Version b) = true
    /\ (Version b <> DataVersionBellatrix -> Bellatrix b = None)
    /\ (Version b <> DataVersionCapella -> Capella b = None)
    /\ (Version b <> DataVersionDeneb -> Deneb b = None).
Proof.
  unfold MultiFork.UnmarshalJSON.
  destruct (MultiFork.first_pass data) as [p| |]; [|discriminate ..].
  repeat case_decide;
    repeat match goal with
           | |- context [MultiFork.second_pass ?c data] =>
               destruct (MultiFork.second_pass c data)
           end;
    try discriminate; intros [= <-]; eexists p, _;
    (split; [reflexivity|]); (split; [reflexivity|]); (split; [reflexivity|]);
    cbn [Version Bellatrix Capella Deneb];
    (split; [reflexivity|]);
    match goal with H : MultiFork.partial_Version p = _ |- _ => rewrite H end;
    repeat split; congruence.
Qed.

(** X11. When the payload names a supported version and the second pass
    finds no bid (the member [data] is missing or null), the multi-fork
    [UnmarshalJSON] succeeds all the same, with a nil bid of that version; and
    [MarshalJSON] panics on the envelope so decoded. *)
Theorem X11_MultiFork_decodes_a_nil_bid (v : Envelope) (data : json) (p : MultiFork.partialBid) :
  MultiFork.first_pass data = Ok p ->
  (MultiFork.partial_Version p = DataVersionDeneb ->
   MultiFork.second_pass DenebSigned_json data = Ok None ->
   MultiFork.UnmarshalJSON v data
   = (deneb_envelope_of None (MultiFork.partial_Proofs p), Ok tt)
   /\ MultiFork.MarshalJSON
        (deneb_envelope_of None (MultiFork.partial_Proofs p) : Envelope)
      = Panic NilPointerDereference)
  /\ (MultiFork.partial_Version p = DataVersionCapella ->
      MultiFork.second_pass CapellaSigned_json data = Ok None ->
      MultiFork.UnmarshalJSON v data
      = (capella_envelope None (MultiFork.partial_Proofs p), Ok tt)
      /\ MultiFork.MarshalJSON
           (capella_envelope None (MultiFork.partial_Proofs p) : Envelope)
         = Panic NilPointerDereference)
  /\ (MultiFork.partial_Version p = DataVersionBellatrix ->
      MultiFork.second_pass BellatrixSigned_json data = Ok None ->
      MultiFork.UnmarshalJSON v data
      = (bellatrix_envelope None (MultiFork.partial_Proofs p), Ok tt)
      /\ MultiFork.MarshalJSON
           (bellatrix_envelope None (MultiFork.partial_Proofs p) : Envelope)
         = Panic NilPointerDereference).
Proof.
  intros Hp. unfold MultiFork.UnmarshalJSON. rewrite Hp.
  split; [|split]; intros Hv Hs; rewrite Hv; cbn; rewrite Hs; split; reflexivity.
Qed.

(** The two passes of the multi-fork revision over its wire form. *)
Lemma MultiFork_passes {Bid} (c : codec (SignedBuilderBid Bid)) version jp jd ver pf sb :
  unmarshal DataVersion_json version = Ok ver ->
  InclusionProof_ptr_Unmarshal Hash32_json None jp = Ok pf ->
  Unmarshal_ext_ptr c jd = Ok sb ->
  MultiFork.first_pass (multifork_wire version jp jd)
  = Ok {| MultiFork.partial_Version := ver; MultiFork.partial_Proofs := pf |}
  /\ MultiFork.second_pass c (multifork_wire version jp jd) = Ok sb.
Proof.
  intros Hver Hpf Hsb. split.
  - unfold MultiFork.first_pass, multifork_wire, jsonlib.Unmarshal_struct.
    cbn [foldl fst snd].
    change (jsonlib.select MultiFork.partialBid_fields (bs "version"))
      with (Some (snd (nth 0 MultiFork.partialBid_fields (bs "", fun _ s => Ok s)))).
    change (jsonlib.select MultiFork.partialBid_fields (bs "proofs"))
      with (Some (snd (nth 1 MultiFork.partialBid_fields (bs "", fun _ s => Ok s)))).
    change (jsonlib.select MultiFork.partialBid_fields (bs "data"))
      with (@None (json -> MultiFork.partialBid -> res MultiFork.partialBid)).
    cbn [MultiFork.partialBid_fields nth snd mbind res_bind].
    rewrite Hver. cbn [mbind res_bind MultiFork.partial_Proofs MultiFork.partialBid_zero].
    rewrite Hpf. reflexivity.
  - unfold MultiFork.second_pass, multifork_wire, jsonlib.Unmarshal_struct.
    cbn [foldl fst snd].
    change (jsonlib.select (MultiFork.dataBid_fields c) (bs "version"))
      with (@None (json -> option (SignedBuilderBid Bid)
                   -> res (option (SignedBuilderBid Bid)))).
    change (jsonlib.select (MultiFork.dataBid_fields c) (bs "proofs"))
      with (@None (json -> option (SignedBuilderBid Bid)
                   -> res (option (SignedBuilderBid Bid)))).
    change (jsonlib.select (MultiFork.dataBid_fields c) (bs "data"))
      with (Some (fun (j : json) (_ : option (SignedBuilderBid Bid)) =>
                    Unmarshal_ext_ptr c j)).
    cbn [mbind res_bind]. exact Hsb.
Qed.

Lemma roundtrips_ext_ptr {T} (c : codec T) (x : T) :
  roundtrips c x ->
  exists j, marshal c x = Ok j /\ Unmarshal_ext_ptr c j = Ok (Some x).
Proof.
  intros (j & Hm & Hn & Hu). exists j. split; [exact Hm|].
  unfold Unmarshal_ext_ptr. destruct j; try congruence; rewrite Hu; reflexivity.
Qed.

(** X12. For each of the three versions it supports, the multi-fork
    [UnmarshalJSON] yields the envelope of a signed bid and of proofs from the
    object that holds the name of the version, the proofs as printed and,
    under [data], the signed bid as printed, provided the codecs read back
    what they print and no sibling hash is empty. *)
Theorem X12_MultiFork_reads_its_wire_form (v : Envelope) (proofs : option InclusionProof)
    (version : json) :
  (forall p, proofs = Some p -> proof_on_wire Hash32_json p) ->
  exists jp,
    jsonlib.Marshal_ptr (InclusionProof_Marshal Hash32_json) proofs = Ok jp
    /\ (forall sb,
           unmarshal DataVersion_json version = Ok DataVersionDeneb ->
           roundtrips DenebSigned_json sb ->
           exists jd, marshal DenebSigned_json sb = Ok jd
                      /\ MultiFork.UnmarshalJSON v (multifork_wire version jp jd)
                         = (deneb_envelope_of (Some sb) proofs, Ok tt))
    /\ (forall sb,
           unmarshal DataVersion_json version = Ok DataVersionCapella ->
           roundtrips CapellaSigned_json sb ->
           exists jd, marshal CapellaSigned_json sb = Ok jd
                      /\ MultiFork.UnmarshalJSON v (multifork_wire version jp jd)
                         = (capella_envelope (Some sb) proofs, Ok tt))
    /\ (forall sb,
           unmarshal DataVersion_json version = Ok DataVersionBellatrix ->
           roundtrips BellatrixSigned_json sb ->
           exists jd, marshal BellatrixSigned_json sb = Ok jd
                      /\ MultiFork.UnmarshalJSON v (multifork_wire version jp jd)
                         = (bellatrix_envelope (Some sb) proofs, Ok tt)).
Proof.
  intros Hpf.
  destruct (InclusionProof_ptr_roundtrip Hash32_json proofs Hpf) as (jp & Ep & Dp).
  exists jp. split; [exact Ep|].
  split; [|split]; intros sb Hver Hsb;
    destruct (roundtrips_ext_ptr _ sb Hsb) as (jd & Em & Dm);
    exists jd; (split; [exact Em|]);
    destruct (MultiFork_passes _ version jp jd _ proofs (Some sb) Hver Dp Dm) as [H1 H2];
    unfold MultiFork.UnmarshalJSON; rewrite H1;
    cbn -[MultiFork.second_pass multifork_wire]; rewrite H2; reflexivity.
Qed.

End EnvelopeMore.

Lemma X7_witness :
  MultiFork.MarshalJSON (deneb_envelope (Some [x01]) [x02] (Some Sample.proof1) : Sample.Envelope)
  = DenebOnly.MarshalJSON (deneb_envelope (Some [x01]) [x02] (Some Sample.proof1)).
Proof.
  apply X7_revisions_encode_deneb_alike. intros b [= <-]. reflexivity.
Defined.

Lemma X8_witness :
  (DenebOnly.UnmarshalJSON (deneb_envelope (Some [x01]) [x02] None : Sample.Envelope)
     (JObject [(bs "version", JString (Sample.q "capella"))])).1
  = deneb_envelope (Some [x01]) [x02] None
  /\ exists message signature proofs,
       (forall v' : Sample.Envelope,
           DenebOnly.UnmarshalJSON v'
             (wrapped (JString (Sample.q "deneb"))
                (JObject [(bs "signature", JString (hex_literal (bs "0a")))]))
           = (deneb_envelope message signature proofs, Ok tt))
       /\ DenebOnly.MarshalJSON
            (deneb_envelope message signature proofs : Sample.Envelope)
          = Marshal_bid Sample.hex_codec message signature proofs.
Proof.
  split.
  - apply (proj1 (X8_DenebOnly_decode_outcome _ _)). vm_compute. discriminate.
  - refine (proj2 (X8_DenebOnly_decode_outcome Sample.blank
                     (wrapped (JString (Sample.q "deneb"))
                        (JObject [(bs "signature", JString (hex_literal (bs "0a")))]))) _).
    vm_compute. reflexivity.
Defined.

Lemma X9_witness :
  MultiFork.UnmarshalJSON (deneb_envelope (Some [x01]) [x02] (Some Sample.proof1) : Sample.Envelope)
     (JObject [(bs "version", JString (Sample.q "nofork"))])
  = (deneb_envelope (Some [x01]) [x02] (Some Sample.proof1),
     Err (ErrUnrecognisedDataVersion (Sample.q "nofork")))
  /\ (MultiFork.UnmarshalJSON
        (deneb_envelope (Some [x01]) [x02] (Some Sample.proof1) : Sample.Envelope)
        (JObject [(bs "version", JString (Sample.q "altair"))])).1
     = {| Proofs := Some Sample.proof1; Embedded := Some VSBB_zero |}.
Proof.
  split.
  - refine (proj1 (X9_MultiFork_receiver_after_failure
                     (deneb_envelope (Some [x01]) [x02] (Some Sample.proof1))
                     (JObject [(bs "version", JString (Sample.q "nofork"))])) _ _).
    reflexivity.
  - refine (proj2 (X9_MultiFork_receiver_after_failure
                     (deneb_envelope (Some [x01]) [x02] (Some Sample.proof1))
                     (JObject [(bs "version", JString (Sample.q "altair"))]))
              {| MultiFork.partial_Version := DataVersionAltair;
                 MultiFork.partial_Proofs := None |} _ _).
    + reflexivity.
    + vm_compute. discriminate.
Defined.

Lemma X10_witness :
  exists p b,
    MultiFork.first_pass
      (multifork_wire (JString (Sample.q "capella")) JNull
         (JObject [(bs "signature", JString (hex_literal (bs "0a")))])) = Ok p
    /\ Proofs (capella_envelope (Some {| Message := None; Signature := [x0a] |}) None
                : Sample.Envelope) = MultiFork.partial_Proofs p
    /\ Embedded (capella_envelope (Some {| Message := None; Signature := [x0a] |}) None
                  : Sample.Envelope) = Some b
    /\ Version b = MultiFork.partial_Version p
    /\ MultiFork.supported (Version b) = true
    /\ (Version b <> DataVersionBellatrix -> Bellatrix b = None)
    /\ (Version b <> DataVersionCapella -> Capella b = None)
    /\ (Version b <> DataVersionDeneb -> Deneb b = None).
Proof.
  apply (X10_MultiFork_decoded_shape Sample.blank). vm_compute. reflexivity.
Defined.

Lemma X11_witness :
  MultiFork.UnmarshalJSON Sample.blank (JObject [(bs "version", JString (Sample.q "deneb"))])
  = (deneb_envelope_of None None, Ok tt)
  /\ MultiFork.MarshalJSON (deneb_envelope_of None None : Sample.Envelope)
     = Panic NilPointerDereference.
Proof.
  refine (proj1 (X11_MultiFork_decodes_a_nil_bid Sample.blank
                   (JObject [(bs "version", JString (Sample.q "deneb"))])
                   {| MultiFork.partial_Version := DataVersionDeneb;
                      MultiFork.partial_Proofs := None |} _) _ _).
  - vm_compute. reflexivity.
  - reflexivity.
  - vm_compute. reflexivity.
Defined.

Lemma X12_witness :
  exists jp,
    jsonlib.Marshal_ptr (InclusionProof_Marshal Sample.hex_codec) (Some Sample.proof1) = Ok jp
    /\ exists jd,
         marshal Sample.signed_codec {| Message := Some [x01]; Signature := [x02] |} = Ok jd
         /\ MultiFork.UnmarshalJSON Sample.blank
              (multifork_wire (JString (Sample.q "Capella")) jp jd)
            = (capella_envelope (Some {| Message := Some [x01]; Signature := [x02] |})
                 (Some Sample.proof1), Ok tt).
Proof.
  destruct (X12_MultiFork_reads_its_wire_form Sample.blank (Some Sample.proof1)
              (JString (Sample.q "Capella"))) as (jp & Hp & _ & Hc & _).
  - intros p [= <-]. split; [|split].
    + repeat constructor. eexists.
      split; [vm_compute; reflexivity | split; [discriminate | vm_compute; reflexivity]].
    + repeat constructor; vm_compute; congruence.
    + repeat constructor; discriminate.
  - exists jp. split; [exact Hp|].
    apply Hc; [vm_compute; reflexivity|]. eexists.
    split; [vm_compute; reflexivity | split; [discriminate | vm_compute; reflexivity]].
Defined.

(* ================================================================== *)
(** * The bounded cache: more lemmas *)

Lemma lru_find_remove_ne {V} (k k' : Z) (l : list (Z * V)) :
  k <> k' -> lru.find k' (lru.remove k l) = lru.find k' l.
Proof.
  intros Hne. induction l as [|[k0 v0] l IH]; [reflexivity|].
  cbn [lru.remove lru.find]. destruct (decide (k0 = k)) as [->|Hk].
  - rewrite decide_False by congruence. reflexivity.
  - cbn [lru.find]. rewrite IH. reflexivity.
Qed.

Lemma lru_remove_perm {V} (k : Z) (v : V) (l : list (Z * V)) :
  lru.find k l = Some v -> (k, v) :: lru.remove k l ≡ₚ l.
Proof.
  induction l as [|[k0 v0] l IH]; [discriminate|].
  cbn [lru.find lru.remove]. destruct (decide (k0 = k)) as [->|Hk].
  - intros [= ->]. reflexivity.
  - intros Hf. rewrite <- (IH Hf) at 2. apply perm_swap.
Qed.

Lemma lru_find_elem {V} (k : Z) (v : V) (l : list (Z * V)) :
  NoDup (map fst l) -> (k, v) ∈ l -> lru.find k l = Some v.
Proof.
  induction l as [|[k0 v0] l IH]; intros Hnd Hin; [apply elem_of_nil in Hin as []|].
  cbn [map fst] in Hnd. apply NoDup_cons in Hnd as [Hk0 Hnd].
  cbn [lru.find]. apply elem_of_cons in Hin as [[= -> ->]|Hin].
  - rewrite decide_True by reflexivity. reflexivity.
  - destruct (decide (k0 = k)) as [->|Hk]; [|apply IH; assumption].
    exfalso. apply Hk0. apply list_elem_of_In, in_map_iff.
    exists (k, v). split; [reflexivity | apply list_elem_of_In; exact Hin].
Qed.

Lemma lru_find_in {V} (k : Z) (v : V) (l : list (Z * V)) :
  lru.find k l = Some v -> (k, v) ∈ l.
Proof.
  induction l as [|[k0 v0] l IH]; [discriminate|]. cbn [lru.find].
  destruct (decide (k0 = k)) as [->|Hk].
  - intros [= ->]. left.
  - intros Hf. right. apply IH, Hf.
Qed.

Lemma filter_all {A} (P : A -> Prop) `{forall x, Decision (P x)} (l : list A) :
  Forall P l -> filter P l = l.
Proof.
  induction 1 as [|x l Hx _ IH]; [reflexivity|].
  rewrite filter_cons_True by exact Hx. rewrite IH. reflexivity.
Qed.

Lemma lru_remove_keys {V} (k : Z) (l : list (Z * V)) :
  NoDup (map fst l) ->
  map fst (lru.remove k l) = filter (fun s => s <> k) (map fst l).
Proof.
  induction l as [|[k0 v0] l IH]; intros Hnd; [reflexivity|].
  cbn [map fst] in Hnd. apply NoDup_cons in Hnd as [Hk0 Hnd].
  cbn [lru.remove map fst]. destruct (decide (k0 = k)) as [->|Hk].
  - rewrite filter_cons_False by (intros Hn; apply Hn; reflexivity).
    symmetry. apply filter_all. apply Forall_forall.
    intros s Hs ->. contradiction.
  - rewrite filter_cons_True by exact Hk. cbn [map fst]. rewrite IH by assumption.
    reflexivity.
Qed.

(* ================================================================== *)
(** * The constraints cache: the loop and the invariant *)

Lemma insert_all_cons (tm : TransactionHashMap) kv kvs :
  insert_all tm (kv :: kvs) = insert_all (<[kv.1 := kv.2]> tm) kvs.
Proof. reflexivity. Qed.

Lemma insert_all_lookup_other (kvs : list (Hash * HexTransaction)) :
  forall (tm : TransactionHashMap) (h : Hash),
    h ∉ map fst kvs -> insert_all tm kvs !! h = tm !! h.
Proof.
  induction kvs as [|[h0 b0] kvs IH]; intros tm h Hh; [reflexivity|].
  cbn [map fst] in Hh. apply not_elem_of_cons in Hh as [Hne Hh].
  rewrite insert_all_cons, IH by exact Hh. cbn [fst snd].
  apply lookup_insert_ne. congruence.
Qed.

Lemma insert_all_is_Some (kvs : list (Hash * HexTransaction)) :
  forall (tm : TransactionHashMap) (h : Hash),
    is_Some (tm !! h) -> is_Some (insert_all tm kvs !! h).
Proof.
  induction kvs as [|[h0 b0] kvs IH]; intros tm h Hh; [exact Hh|].
  rewrite insert_all_cons. apply IH. cbn [fst snd].
  destruct (decide (h0 = h)) as [->|Hne].
  - rewrite lookup_insert_eq. eauto.
  - rewrite lookup_insert_ne by exact Hne. exact Hh.
Qed.

Lemma insert_all_lookup_bound (kvs : list (Hash * HexTransaction)) :
  forall (tm : TransactionHashMap) (h : Hash) (b : HexTransaction),
    (h, b) ∈ kvs -> is_Some (insert_all tm kvs !! h).
Proof.
  induction kvs as [|[h0 b0] kvs IH]; intros tm h b Hin; [apply elem_of_nil in Hin as []|].
  rewrite insert_all_cons. apply elem_of_cons in Hin as [[= -> ->]|Hin].
  - apply insert_all_is_Some. cbn [fst snd]. rewrite lookup_insert_eq. eauto.
  - eapply IH. exact Hin.
Qed.

Lemma insert_all_lookup_NoDup (kvs : list (Hash * HexTransaction)) :
  forall (tm : TransactionHashMap) (h : Hash) (b : HexTransaction),
    NoDup (map fst kvs) -> (h, b) ∈ kvs -> insert_all tm kvs !! h = Some b.
Proof.
  induction kvs as [|[h0 b0] kvs IH]; intros tm h b Hnd Hin;
    [apply elem_of_nil in Hin as []|].
  cbn [map fst] in Hnd. apply NoDup_cons in Hnd as [Hh0 Hnd].
  rewrite insert_all_cons. apply elem_of_cons in Hin as [[= -> ->]|Hin].
  - rewrite insert_all_lookup_other by exact Hh0. cbn [fst snd]. apply lookup_insert_eq.
  - apply IH; assumption.
Qed.

Lemma insert_alter_same (st : gmap loc TransactionHashMap) l f x :
  <[l := x]> (alter f l st) = <[l := x]> st.
Proof.
  apply map_eq. intros i. destruct (decide (i = l)) as [->|Hne].
  - rewrite !lookup_insert_eq. reflexivity.
  - rewrite !lookup_insert_ne by congruence. apply lookup_alter_ne. congruence.
Qed.

Section CacheLoop.

Context `{TxCodec}.


(** The loop on a transaction whose normalization is known. *)
Lemma add_loop_step m txRaw rest st :
  add_loop m (Some txRaw :: rest) st
  = match normalize txRaw with
    | Ok kv =>
        match m with
        | None => (st, Panic NilMapAssignment)
        | Some l => add_loop m rest (alter (insert kv.1 kv.2) l st)
        end
    | Err e => (st, Err e)
    | Panic p => (st, Panic p)
    end.
Proof.
  cbn [add_loop]. unfold normalize.
  destruct (UnmarshalBinary txRaw) as [tx| |]; [|reflexivity ..].
  destruct (MarshalBinary (WithoutBlobTxSidecar tx)); reflexivity.
Qed.

(** Transactions that are normalized are all written, one after the other,
    to the map the loop holds. *)
Lemma add_loop_normalized l good kvs :
  normalized good kvs ->
  forall tail st tm,
    st !! l = Some tm ->
    add_loop (Some l) (good ++ tail) st
    = add_loop (Some l) tail (<[l := insert_all tm kvs]> st).
Proof.
  induction 1 as [|tx kv good kvs (txRaw & -> & Hn) _ IH]; intros tail st tm Hl.
  - cbn [app insert_all foldl]. rewrite insert_id by exact Hl. reflexivity.
  - change ((Some txRaw :: good) ++ tail) with (Some txRaw :: (good ++ tail)).
    rewrite add_loop_step, Hn.
    rewrite (IH tail _ (<[kv.1 := kv.2]> tm))
      by (rewrite lookup_alter_eq, Hl; reflexivity).
    rewrite insert_alter_same, insert_all_cons. reflexivity.
Qed.

(** The loop leaves the other maps of the store alone, and adds or removes
    no map. *)
Lemma add_loop_lookup_other m transactions :
  forall st l', m <> Some l' -> (add_loop m transactions st).1 !! l' = st !! l'.
Proof.
  induction transactions as [|[txRaw|] rest IH]; intros st l' Hne; [reflexivity| |reflexivity].
  rewrite add_loop_step. destruct (normalize txRaw) as [kv| |]; [|reflexivity ..].
  destruct m as [l|]; [|reflexivity].
  rewrite IH by exact Hne. apply lookup_alter_ne. congruence.
Qed.

Lemma add_loop_is_Some m transactions :
  forall st l', is_Some ((add_loop m transactions st).1 !! l') <-> is_Some (st !! l').
Proof.
  induction transactions as [|[txRaw|] rest IH]; intros st l'; [reflexivity| |reflexivity].
  rewrite add_loop_step. destruct (normalize txRaw) as [kv| |]; [|reflexivity ..].
  destruct m as [l|]; [|reflexivity].
  rewrite IH. destruct (decide (l = l')) as [->|Hne].
  - rewrite lookup_alter_eq. destruct (st !! l'); cbn; split; intros [? ?]; eauto; discriminate.
  - rewrite lookup_alter_ne by exact Hne. reflexivity.
Qed.

(** ** The invariant *)

Lemma cache_ok_New (cap : Z) : 0 < cap -> cache_ok cap (NewConstraintsCache cap).
Proof.
  intros Hpos. exists {| lru.size := cap; lru.items := [] |}.
  unfold NewConstraintsCache, lru.New. cbn [constraints].
  destruct (Z.leb_spec cap 0); [lia|].
  repeat split; cbn; try lia; constructor.
Qed.

Lemma cache_ok_moved (cap : Z) (c : ConstraintsCache) cache slot m st :
  constraints c = Some cache ->
  lru.size cache = cap -> 0 < cap ->
  Z.of_nat (length (lru.items cache)) <= cap ->
  NoDup (map fst (lru.items cache)) ->
  NoDup (map snd (lru.items cache)) ->
  Forall (fun kv => exists l, kv.2 = Some l /\ is_Some (store c !! l)) (lru.items cache) ->
  lru.find slot (lru.items cache) = Some m ->
  (forall l, is_Some (st !! l) <-> is_Some (store c !! l)) ->
  cache_ok cap
    {| store := st;
       constraints := Some {| lru.size := lru.size cache;
                              lru.items := (slot, m) :: lru.remove slot (lru.items cache) |} |}.
Proof.
  intros Hc Hsz Hpos Hlen Hk Hv Hall Hf Hst.
  pose proof (lru_remove_perm slot m _ Hf) as Hperm.
  eexists. split; [reflexivity|]. cbn [lru.size lru.items store].
  split; [exact Hsz|]. split; [exact Hpos|]. split; [|split; [|split]].
  - rewrite (Permutation_length Hperm). exact Hlen.
  - apply (NoDup_Permutation_proper _ _ (Permutation_map fst Hperm)). exact Hk.
  - apply (NoDup_Permutation_proper _ _ (Permutation_map snd Hperm)). exact Hv.
  - rewrite Hperm.
    eapply Forall_impl; [exact Hall|]. cbn. intros kv (l & Hkv & Hl).
    exists l. split; [exact Hkv | apply Hst, Hl].
Qed.

Lemma cache_ok_Get cap c slot : cache_ok cap c -> cache_ok cap (Get c slot).1.
Proof.
  intros (cache & Hc & Hsz & Hpos & Hlen & Hk & Hv & Hall).
  unfold Get. rewrite Hc. unfold lru.Get.
  destruct (lru.find slot (lru.items cache)) as [m|] eqn:Hf; cbn [fst].
  - eapply cache_ok_moved; eauto; reflexivity.
  - exists cache. repeat split; assumption.
Qed.

Lemma cache_ok_Find cap c txHash :
  cache_ok cap c -> cache_ok cap (FindTransactionByHash c txHash).1.
Proof.
  intros Hok. unfold FindTransactionByHash. destruct (constraints c); exact Hok.
Qed.

Lemma cache_ok_Add cap c slot transactions :
  cache_ok cap c -> cache_ok cap (AddInclusionConstraints c slot transactions).1.
Proof.
  intros Hok. destruct transactions as [|tx rest]; [exact Hok|].
  destruct Hok as (cache & Hc & Hsz & Hpos & Hlen & Hk & Hv & Hall).
  destruct (lru.find slot (lru.items cache)) as [m|] eqn:Hf.
  - rewrite (add_on_cached_slot c cache slot m) by (assumption || discriminate).
    cbn [fst]. eapply cache_ok_moved; eauto; intros l; apply add_loop_is_Some.
  - rewrite (add_on_new_slot c cache slot) by (assumption || discriminate).
    cbn [fst]. rewrite lru_Add_fresh by (assumption || lia).
    set (lf := fresh (dom (store c))).
    assert (store c !! lf = None) as Hfresh
        by (apply not_elem_of_dom; apply is_fresh).
    eexists. split; [reflexivity|]. cbn [lru.size lru.items store].
    split; [exact Hsz|]. split; [exact Hpos|]. split; [|split; [|split]].
    + rewrite length_take. lia.
    + rewrite <- firstn_map. cbn [map fst].
      apply (sublist_NoDup _ (slot :: map fst (lru.items cache)));
        [|apply sublist_take].
      apply NoDup_cons. split; [apply lru_find_None; exact Hf | exact Hk].
    + rewrite <- firstn_map. cbn [map snd].
      apply (sublist_NoDup _ (Some lf :: map snd (lru.items cache)));
        [|apply sublist_take].
      apply NoDup_cons. split; [|exact Hv].
      intros [kv [Hkv Hin]]%list_elem_of_In%in_map_iff.
      rewrite Forall_forall in Hall.
      destruct (Hall kv (proj2 (list_elem_of_In _ _) Hin)) as (l & Hl & Hsome).
      pose proof (eq_trans (eq_sym Hkv) Hl) as E. injection E as <-.
      rewrite Hfresh in Hsome. destruct Hsome as [? [=]].
    + apply Forall_take. constructor.
      * exists lf. split; [reflexivity|]. rewrite lookup_insert_eq. eauto.
      * eapply Forall_impl; [exact Hall|]. cbn. intros kv (l & Hkv & Hl).
        exists l. split; [exact Hkv|].
        destruct (decide (lf = l)) as [->|Hne];
          [rewrite lookup_insert_eq; eauto | rewrite lookup_insert_ne by exact Hne; exact Hl].
Qed.

Lemma cache_ok_run cap ops :
  forall c, cache_ok cap c -> cache_ok cap (run c ops).
Proof.
  induction ops as [|op ops IH]; intros c Hok; [exact Hok|].
  apply IH. destruct op; [apply cache_ok_Add | apply cache_ok_Get | apply cache_ok_Find];
    exact Hok.
Qed.

End CacheLoop.

(* ================================================================== *)
(** * The constraints cache: more properties *)

Section CacheMore.

Context `{TxCodec}.

Lemma slot_map_unfold (c : ConstraintsCache) slot :
  slot_map c slot
  = match constraints c with
    | Some cache =>
        match lru.find slot (lru.items cache) with
        | Some (Some l) => store c !! l
        | _ => None
        end
    | None => None
    end.
Proof.
  unfold slot_map, Get. destruct (constraints c) as [cache|]; [|reflexivity].
  unfold lru.Get. destruct (lru.find slot (lru.items cache)) as [[l|]|]; reflexivity.
Qed.

(** On a slot that is cached, the transactions that are normalized are
    written before the first one that is not is looked at. *)
Lemma add_on_cached_slot_prefix (c : ConstraintsCache) slot tm good kvs tail r :
  slot_map c slot = Some tm ->
  normalized good kvs ->
  good ++ tail <> [] ->
  (forall m st, add_loop m tail st = (st, r)) ->
  (AddInclusionConstraints c slot (good ++ tail)).2 = r
  /\ slot_map (AddInclusionConstraints c slot (good ++ tail)).1 slot
     = Some (insert_all tm kvs).
Proof.
  intros Htm Hgood Hne Htail.
  apply slot_map_inv in Htm as (cache & l & Hc & Hf & Hl).
  rewrite (add_on_cached_slot c cache slot (Some l)) by assumption.
  rewrite (add_loop_normalized l good kvs Hgood tail (store c) tm Hl), Htail.
  cbn [fst snd]. split; [reflexivity|].
  rewrite slot_map_unfold. cbn [constraints lru.items lru.find store].
  rewrite decide_True by reflexivity. apply lookup_insert_eq.
Qed.

(** X13. On a slot that is cached, a call whose transactions are all
    present and all decoded returns no error, and the map of the slot is the
    map it was with the bindings of the transactions written in order: a hash
    that is not in the call keeps its binding, every hash of the call is
    bound, and it is bound to the normalized bytes of its transaction when no
    hash occurs twice in the call. *)
Theorem X13_add_to_cached_slot_succeeds (c : ConstraintsCache) slot tm transactions kvs :
  slot_map c slot = Some tm ->
  transactions <> [] ->
  normalized transactions kvs ->
  (AddInclusionConstraints c slot transactions).2 = Ok tt
  /\ slot_map (AddInclusionConstraints c slot transactions).1 slot
     = Some (insert_all tm kvs)
  /\ (forall h, h ∉ map fst kvs -> insert_all tm kvs !! h = tm !! h)
  /\ (forall h raw, (h, raw) ∈ kvs -> is_Some (insert_all tm kvs !! h))
  /\ (NoDup (map fst kvs) ->
      forall h raw, (h, raw) ∈ kvs -> insert_all tm kvs !! h = Some raw).
Proof.
  intros Htm Hne Hn.
  destruct (add_on_cached_slot_prefix c slot tm transactions kvs [] (Ok tt) Htm Hn)
    as [Hr Hm].
  - rewrite app_nil_r. exact Hne.
  - reflexivity.
  - rewrite app_nil_r in Hr, Hm. split; [exact Hr|]. split; [exact Hm|].
    split; [apply insert_all_lookup_other|].
    split; [apply insert_all_lookup_bound|].
    intros Hnd h raw. apply insert_all_lookup_NoDup. exact Hnd.
Qed.

(** X14. On a slot that is cached, a call that meets a nil transaction,
    or one that is not decoded, after transactions that are decoded returns
    the error of that transaction, and the transactions before it have been
    written to the map of the slot: what was inserted before the failure is
    kept. *)
Theorem X14_add_keeps_what_precedes_the_failure
    (c : ConstraintsCache) slot tm good kvs bad rest e :
  slot_map c slot = Some tm ->
  normalized good kvs ->
  (bad = None /\ e = ErrNilTransaction)
  \/ (exists txRaw, bad = Some txRaw /\ normalize txRaw = Err e) ->
  (AddInclusionConstraints c slot (good ++ bad :: rest)).2 = Err e
  /\ slot_map (AddInclusionConstraints c slot (good ++ bad :: rest)).1 slot
     = Some (insert_all tm kvs).
Proof.
  intros Htm Hn Hbad.
  apply (add_on_cached_slot_prefix c slot tm good kvs (bad :: rest) (Err e) Htm Hn).
  - destruct good; discriminate.
  - intros m st. destruct Hbad as [[-> ->]|(txRaw & -> & Hraw)]; [reflexivity|].
    rewrite add_loop_step, Hraw. reflexivity.
Qed.

(** X15. On a slot that is not cached, a call with transactions never
    returns success, and its outcome is decided by the first transaction
    alone: the error of a nil transaction, the error of the codec, or, when
    the transaction is decoded, the panic of a write to a nil map.  No map that
    was in the store is changed. *)
Theorem X15_add_to_new_slot_never_succeeds
    (c : ConstraintsCache) cache slot transactions :
  constraints c = Some cache ->
  slot ∉ cached_slots c ->
  transactions <> [] ->
  (AddInclusionConstraints c slot transactions).2
  = match transactions with
    | [] => Ok tt
    | None :: _ => Err ErrNilTransaction
    | Some txRaw :: _ =>
        match normalize txRaw with
        | Ok _ => Panic NilMapAssignment
        | Err e => Err e
        | Panic p => Panic p
        end
    end
  /\ (AddInclusionConstraints c slot transactions).2 <> Ok tt
  /\ (forall l tm, store c !! l = Some tm ->
                   store (AddInclusionConstraints c slot transactions).1 !! l = Some tm).
Proof.
  intros Hc Hslot Hne. unfold cached_slots in Hslot. rewrite Hc in Hslot.
  apply lru_find_None in Hslot.
  rewrite (add_on_new_slot c cache slot transactions Hc Hslot Hne). cbn [fst snd store].
  assert ((add_loop None transactions (<[fresh (dom (store c)):=∅]> (store c))).2
          = match transactions with
            | [] => Ok tt
            | None :: _ => Err ErrNilTransaction
            | Some txRaw :: _ =>
                match normalize txRaw with
                | Ok _ => Panic NilMapAssignment
                | Err e => Err e
                | Panic p => Panic p
                end
            end) as Hr.
  { destruct transactions as [|[txRaw|] rest]; [reflexivity| |reflexivity].
    rewrite add_loop_step. destruct (normalize txRaw); reflexivity. }
  split; [exact Hr|]. split.
  - rewrite Hr. destruct transactions as [|[txRaw|] rest]; [congruence| |discriminate].
    destruct (normalize txRaw); discriminate.
  - intros l tm Hl. rewrite lookup_insert_ne; [exact Hl|].
    intros <-. pose proof (is_fresh (dom (store c))) as Hfresh.
    apply Hfresh. apply elem_of_dom. eauto.
Qed.

(** X16. After a call with transactions for a slot that was not cached,
    whatever its outcome, a second call for the slot whose transactions are
    all present and all decoded returns no error, and the map of the slot
    holds exactly the bindings of the second call. *)
Theorem X16_second_call_for_a_slot_succeeds
    (c : ConstraintsCache) cache slot first second kvs :
  constraints c = Some cache ->
  0 < lru.size cache ->
  slot ∉ cached_slots c ->
  first <> [] ->
  second <> [] ->
  normalized second kvs ->
  (AddInclusionConstraints (AddInclusionConstraints c slot first).1 slot second).2 = Ok tt
  /\ slot_map (AddInclusionConstraints (AddInclusionConstraints c slot first).1
                 slot second).1 slot
     = Some (insert_all ∅ kvs).
Proof.
  intros Hc Hpos Hslot Hfirst Hsecond Hn.
  unfold cached_slots in Hslot. rewrite Hc in Hslot. apply lru_find_None in Hslot.
  pose proof (new_slot_bound_to_empty_map c cache slot first Hc Hpos Hslot Hfirst) as Hm.
  destruct (add_on_cached_slot_prefix _ slot ∅ second kvs [] (Ok tt) Hm Hn) as [Hr Hm'].
  - rewrite app_nil_r. exact Hsecond.
  - reflexivity.
  - rewrite app_nil_r in Hr, Hm'. split; assumption.
Qed.

End CacheMore.

(* ================================================================== *)
(** * The constraints cache: the caches that calls leave *)

Lemma snd_NoDup_key {V} (l : list (Z * V)) k1 k2 v :
  NoDup (map snd l) -> (k1, v) ∈ l -> (k2, v) ∈ l -> k1 = k2.
Proof.
  induction l as [|[k0 v0] l IH]; intros Hnd H1 H2; [apply elem_of_nil in H1 as []|].
  cbn [map snd] in Hnd. apply NoDup_cons in Hnd as [Hv0 Hnd].
  assert (forall k, (k, v0) ∈ l -> False) as Hno.
  { intros k Hin. apply Hv0. apply list_elem_of_In, in_map_iff.
    exists (k, v0). split; [reflexivity | apply list_elem_of_In; exact Hin]. }
  apply elem_of_cons in H1 as [E1|H1]; apply elem_of_cons in H2 as [E2|H2].
  - congruence.
  - injection E1 as -> ->. destruct (Hno _ H2).
  - injection E2 as -> ->. destruct (Hno _ H1).
  - apply IH; assumption.
Qed.

Lemma lru_find_moved {V} (k k' : Z) (v : V) (l : list (Z * V)) :
  lru.find k l = Some v -> lru.find k' ((k, v) :: lru.remove k l) = lru.find k' l.
Proof.
  intros Hf. cbn [lru.find]. destruct (decide (k = k')) as [<-|Hne].
  - symmetry. exact Hf.
  - apply lru_find_remove_ne. exact Hne.
Qed.

Lemma map_fst_split {V} (l : list (Z * V)) a k b :
  map fst l = a ++ k :: b ->
  exists l1 v l2, l = l1 ++ (k, v) :: l2 /\ map fst l1 = a /\ map fst l2 = b.
Proof.
  revert l. induction a as [|x a IH]; intros [|[k0 v0] l]; cbn [map fst app];
    intros E; try discriminate E.
  - injection E as -> <-. exists [], v0, l. split; [reflexivity | split; reflexivity].
  - injection E as -> E. destruct (IH l E) as (l1 & v & l2 & -> & <- & <-).
    exists ((x, v0) :: l1), v, l2. split; [reflexivity | split; reflexivity].
Qed.

Lemma scan_app st h (a b : list mapref) :
  scan st h (a ++ b)
  = match scan st h a with Some tx => Some tx | None => scan st h b end.
Proof.
  induction a as [|m a IH]; [reflexivity|]. cbn [app scan].
  destruct (map_lookup st m h); [reflexivity | exact IH].
Qed.

Lemma scan_Some st h (values : list mapref) tx :
  scan st h values = Some tx ->
  exists m, m ∈ values /\ map_lookup st m h = Some tx.
Proof.
  induction values as [|m values IH]; [discriminate|]. cbn [scan].
  destruct (map_lookup st m h) as [b|] eqn:Hm.
  - intros [= ->]. exists m. split; [left | exact Hm].
  - intros Hs. destruct (IH Hs) as (m' & Hin & Hm'). exists m'. split; [right|]; assumption.
Qed.

Lemma scan_None st h (values : list mapref) :
  scan st h values = None <-> forall m, m ∈ values -> map_lookup st m h = None.
Proof.
  induction values as [|m values IH]; cbn [scan].
  - split; [intros _ m []%elem_of_nil | reflexivity].
  - destruct (map_lookup st m h) as [b|] eqn:Hm.
    + split; [discriminate|]. intros Hall.
      rewrite (Hall m) in Hm by left. discriminate Hm.
    + rewrite IH. split.
      * intros Hall m' [->|Hin]%elem_of_cons; [exact Hm | apply Hall, Hin].
      * intros Hall m' Hin. apply Hall. right. exact Hin.
Qed.

Section CacheReachable.

Context `{TxCodec}.

Lemma reachable_ok cap c : 0 < cap -> reachable cap c -> cache_ok cap c.
Proof. intros Hpos [ops ->]. apply cache_ok_run, cache_ok_New, Hpos. Qed.

Lemma run_without_cache c ops : constraints c = None -> run c ops = c.
Proof.
  intros Hc. induction ops as [|op ops IH]; [reflexivity|].
  unfold run in *. cbn [foldl].
  replace (step c op) with c; [exact IH|].
  destruct op as [slot transactions|slot|txHash]; cbn [step].
  - unfold AddInclusionConstraints. rewrite Hc.
    destruct (bool_decide (length transactions = 0%nat)); reflexivity.
  - unfold Get. rewrite Hc. reflexivity.
  - unfold FindTransactionByHash. rewrite Hc. reflexivity.
Qed.

Lemma cache_ok_find cap c cache slot m :
  cache_ok cap c ->
  constraints c = Some cache ->
  lru.find slot (lru.items cache) = Some m ->
  exists l, m = Some l /\ is_Some (store c !! l).
Proof.
  intros (cache0 & Hc0 & _ & _ & _ & _ & _ & Hall) Hc Hf.
  rewrite Hc in Hc0. injection Hc0 as <-.
  rewrite Forall_forall in Hall. apply lru_find_in in Hf.
  destruct (Hall _ Hf) as (l & Hl & Hsome). exists l. split; assumption.
Qed.

Lemma Get_hit_inv (c : ConstraintsCache) cache slot l :
  constraints c = Some cache ->
  (Get c slot).2 = Ok (Some l, true) ->
  lru.find slot (lru.items cache) = Some (Some l).
Proof.
  intros Hc. unfold Get. rewrite Hc. unfold lru.Get.
  destruct (lru.find slot (lru.items cache)) as [[l'|]|]; cbn; intros E;
    try discriminate E.
  injection E as ->. reflexivity.
Qed.

Lemma Get_keeps_maps (c : ConstraintsCache) slot s :
  store (Get c slot).1 = store c /\ slot_map (Get c slot).1 s = slot_map c s.
Proof.
  rewrite !slot_map_unfold. unfold Get. destruct (constraints c) as [cache|] eqn:Hc.
  - unfold lru.Get. destruct (lru.find slot (lru.items cache)) as [m|] eqn:Hf;
      cbn [fst store constraints lru.items].
    + rewrite (lru_find_moved slot s m _ Hf). split; reflexivity.
    + split; reflexivity.
  - cbn [fst]. rewrite Hc. split; reflexivity.
Qed.

Lemma Get_hit_slots cap c slot :
  cache_ok cap c ->
  slot ∈ cached_slots c ->
  cached_slots (Get c slot).1 = slot :: filter (fun s => s <> slot) (cached_slots c).
Proof.
  intros (cache & Hc & _ & _ & _ & Hk & _ & _). unfold cached_slots, Get. rewrite Hc.
  intros [m Hm]%lru_find_Some. unfold lru.Get. rewrite Hm.
  cbn [fst constraints lru.items map]. rewrite lru_remove_keys by exact Hk. reflexivity.
Qed.

(** The cache after a call with transactions on a slot that is not
    cached. *)
Lemma add_new_slot_state cap c cache slot transactions :
  cache_ok cap c ->
  constraints c = Some cache ->
  slot ∉ cached_slots c ->
  transactions <> [] ->
  (AddInclusionConstraints c slot transactions).1
  = {| store := <[fresh (dom (store c)) := ∅]> (store c);
       constraints :=
         Some {| lru.size := cap;
                 lru.items := take (Z.to_nat cap)
                                ((slot, Some (fresh (dom (store c)))) :: lru.items cache) |} |}.
Proof.
  intros (cache0 & Hc0 & Hsz & Hpos & Hlen & _) Hc Hslot Hne.
  rewrite Hc in Hc0. injection Hc0 as <-.
  unfold cached_slots in Hslot. rewrite Hc in Hslot. apply lru_find_None in Hslot.
  rewrite (add_on_new_slot c cache slot transactions Hc Hslot Hne). cbn [fst].
  rewrite lru_Add_fresh by (assumption || lia). rewrite Hsz. reflexivity.
Qed.

Lemma add_new_slot_keys cap c slot transactions :
  cache_ok cap c ->
  slot ∉ cached_slots c ->
  transactions <> [] ->
  cached_slots (AddInclusionConstraints c slot transactions).1
  = take (Z.to_nat cap) (slot :: cached_slots c).
Proof.
  intros Hok Hslot Hne. pose proof Hok as (cache & Hc & _).
  rewrite (add_new_slot_state cap c cache slot transactions Hok Hc Hslot Hne).
  unfold cached_slots. rewrite Hc. cbn [constraints lru.items].
  rewrite <- firstn_map. reflexivity.
Qed.

Lemma add_new_slot_maps cap c slot transactions s :
  cache_ok cap c ->
  slot ∉ cached_slots c ->
  transactions <> [] ->
  s <> slot ->
  s ∈ cached_slots (AddInclusionConstraints c slot transactions).1 ->
  slot_map (AddInclusionConstraints c slot transactions).1 s = slot_map c s.
Proof.
  intros Hok Hslot Hne Hs Hin.
  pose proof Hok as (cache & Hc & Hsz & Hpos & Hlen & Hk & Hv & Hall).
  pose proof (add_new_slot_state cap c cache slot transactions Hok Hc Hslot Hne) as Hst.
  rewrite Hst in Hin |- *.
  assert (store c !! fresh (dom (store c)) = None) as Hfresh
      by (apply not_elem_of_dom; apply is_fresh).
  set (lf := fresh (dom (store c))) in *.
  unfold cached_slots in Hin, Hslot. cbn [constraints lru.items] in Hin. rewrite Hc in Hslot.
  apply list_elem_of_In, in_map_iff in Hin as ([s' m] & Hfst & Hin).
  cbn [fst] in Hfst. subst s'. apply list_elem_of_In in Hin.
  assert ((s, m) ∈ lru.items cache) as Hin0.
  { apply subseteq_take in Hin. apply elem_of_cons in Hin as [E|Hin]; [|exact Hin].
    exfalso. apply Hs. congruence. }
  assert (NoDup (map fst (take (Z.to_nat cap) ((slot, Some lf) :: lru.items cache)))) as Hk'.
  { rewrite <- firstn_map. cbn [map fst].
    apply (sublist_NoDup _ (slot :: map fst (lru.items cache))); [|apply sublist_take].
    apply NoDup_cons. split; assumption. }
  pose proof (lru_find_elem s m _ Hk' Hin) as Hf'.
  pose proof (lru_find_elem s m _ Hk Hin0) as Hf.
  destruct (cache_ok_find cap c cache s m Hok Hc Hf) as (l & -> & Hsome).
  rewrite !slot_map_unfold. cbn [constraints lru.items store]. rewrite Hf', Hc, Hf.
  apply lookup_insert_ne. intros E. rewrite <- E, Hfresh in Hsome.
  destruct Hsome as [? [=]].
Qed.

(** X17. On a cache that any series of calls has left from a new cache
    of a positive capacity: there are no more slots than the capacity, no slot
    is cached twice, a slot that [Get] finds is bound to a map (never to the
    nil map), and no two slots are bound to the same map. *)
Theorem X17_reachable_cache_invariants (cap : Z) (c : ConstraintsCache) :
  0 < cap ->
  reachable cap c ->
  Z.of_nat (length (cached_slots c)) <= cap
  /\ NoDup (cached_slots c)
  /\ (forall slot, retrievable c slot <-> is_Some (slot_map c slot))
  /\ (forall s1 s2 l,
         (Get c s1).2 = Ok (Some l, true) ->
         (Get c s2).2 = Ok (Some l, true) ->
         s1 = s2).
Proof.
  intros Hpos Hr. pose proof (reachable_ok cap c Hpos Hr) as Hok.
  pose proof Hok as (cache & Hc & Hsz & _ & Hlen & Hk & Hv & Hall).
  unfold cached_slots. rewrite Hc.
  split; [rewrite length_map; exact Hlen|]. split; [exact Hk|]. split.
  - intros slot. rewrite retrievable_iff. unfold cached_slots. rewrite Hc.
    rewrite <- lru_find_Some. split.
    + intros [m Hf]. destruct (cache_ok_find cap c cache slot m Hok Hc Hf) as (l & -> & Hl).
      rewrite (slot_map_cached c cache slot l Hc Hf). exact Hl.
    + intros [tm Htm]. apply slot_map_inv in Htm as (cache0 & l & Hc0 & Hf & _).
      rewrite Hc in Hc0. injection Hc0 as <-. eauto.
  - intros s1 s2 l H1 H2.
    apply (Get_hit_inv c cache) in H1; [|exact Hc].
    apply (Get_hit_inv c cache) in H2; [|exact Hc].
    apply (snd_NoDup_key (lru.items cache) s1 s2 (Some l) Hv); apply lru_find_in; assumption.
Qed.

(** X18. A cache built with a capacity that is not positive holds no
    cache: [Get], [FindTransactionByHash] and a call of
    [AddInclusionConstraints] with transactions all panic on the nil pointer,
    and no series of calls changes anything. *)
Theorem X18_without_a_cache_every_call_panics (cap : Z) (ops : list call) :
  cap <= 0 ->
  (forall slot,
      Get (NewConstraintsCache cap) slot
      = (NewConstraintsCache cap, Panic NilPointerDereference))
  /\ (forall txHash,
         FindTransactionByHash (NewConstraintsCache cap) txHash
         = (NewConstraintsCache cap, Panic NilPointerDereference))
  /\ (forall slot transactions,
         transactions <> [] ->
         AddInclusionConstraints (NewConstraintsCache cap) slot transactions
         = (NewConstraintsCache cap, Panic NilPointerDereference))
  /\ run (NewConstraintsCache cap) ops = NewConstraintsCache cap.
Proof.
  intros Hcap.
  assert (constraints (NewConstraintsCache cap) = None) as Hc.
  { unfold NewConstraintsCache, lru.New. cbn [constraints].
    destruct (Z.leb_spec cap 0); [reflexivity | lia]. }
  split; [|split; [|split]].
  - intros slot. unfold Get. rewrite Hc. reflexivity.
  - intros txHash. unfold FindTransactionByHash. rewrite Hc. reflexivity.
  - intros slot transactions Hne. unfold AddInclusionConstraints.
    rewrite bool_decide_eq_false_2 by (destruct transactions; [congruence | discriminate]).
    rewrite Hc. reflexivity.
  - apply run_without_cache, Hc.
Qed.

(** X19. A call with transactions for a slot that is not cached puts the
    slot in front of the others and keeps as many of the most recent slots as
    the capacity; the slots that stay keep their maps.  When the cache was not
    full every slot stays; when it was full the least recently used slot, and
    only that one, can no longer be retrieved. *)
Theorem X19_new_slot_evicts_the_least_recently_used
    (cap : Z) (c : ConstraintsCache) slot transactions :
  0 < cap ->
  reachable cap c ->
  slot ∉ cached_slots c ->
  transactions <> [] ->
  cached_slots (AddInclusionConstraints c slot transactions).1
  = take (Z.to_nat cap) (slot :: cached_slots c)
  /\ (forall s,
         s <> slot ->
         s ∈ cached_slots (AddInclusionConstraints c slot transactions).1 ->
         slot_map (AddInclusionConstraints c slot transactions).1 s = slot_map c s)
  /\ (Z.of_nat (length (cached_slots c)) < cap ->
      forall s, s ∈ cached_slots c ->
                retrievable (AddInclusionConstraints c slot transactions).1 s)
  /\ (Z.of_nat (length (cached_slots c)) = cap ->
      forall oldest,
        last (cached_slots c) = Some oldest ->
        ~ retrievable (AddInclusionConstraints c slot transactions).1 oldest
        /\ (forall s, s ∈ cached_slots c -> s <> oldest ->
                      retrievable (AddInclusionConstraints c slot transactions).1 s)).
Proof.
  intros Hpos Hr Hslot Hne. pose proof (reachable_ok cap c Hpos Hr) as Hok.
  pose proof (add_new_slot_keys cap c slot transactions Hok Hslot Hne) as Hkeys.
  assert (NoDup (cached_slots c)) as Hnd.
  { destruct Hok as (cache & Hc & _ & _ & _ & Hk & _). unfold cached_slots.
    rewrite Hc. exact Hk. }
  split; [exact Hkeys|]. split; [|split].
  - intros s Hs Hin. apply (add_new_slot_maps cap); assumption.
  - intros Hlen s Hs. apply retrievable_iff. rewrite Hkeys.
    rewrite take_ge by (cbn [length]; lia). right. exact Hs.
  - intros Hlen oldest Hlast. apply last_Some in Hlast as [init Hinit].
    assert (take (Z.to_nat cap) (slot :: cached_slots c) = slot :: init) as Htake.
    { rewrite Hinit. change (slot :: init ++ [oldest]) with ((slot :: init) ++ [oldest]).
      apply take_app_length'. rewrite Hinit, length_app in Hlen. cbn [length] in *. lia. }
    rewrite Hinit in Hnd, Hslot. split.
    + rewrite retrievable_iff, Hkeys, Htake. intros [->|Hin]%elem_of_cons.
      * apply Hslot. apply elem_of_app. right. left.
      * apply NoDup_app in Hnd as (_ & Hdisj & _). apply (Hdisj oldest Hin). left.
    + intros s Hs Hso. apply retrievable_iff. rewrite Hkeys, Htake. right.
      rewrite Hinit in Hs. apply elem_of_app in Hs as [Hs|Hs]; [exact Hs|].
      apply elem_of_cons in Hs as [->|[]%elem_of_nil]. contradiction.
Qed.

(** X20. A call with transactions for a slot that is cached counts as a
    use of the slot, whatever its outcome: the slot becomes the most recently
    used one, the others keep their order, no slot is evicted, and the maps
    of the other slots are as they were. *)
Theorem X20_write_to_a_cached_slot_is_a_use
    (cap : Z) (c : ConstraintsCache) slot transactions :
  0 < cap ->
  reachable cap c ->
  slot ∈ cached_slots c ->
  transactions <> [] ->
  cached_slots (AddInclusionConstraints c slot transactions).1
  = slot :: filter (fun s => s <> slot) (cached_slots c)
  /\ (forall s, retrievable (AddInclusionConstraints c slot transactions).1 s
                <-> retrievable c s)
  /\ (forall s, s <> slot ->
                slot_map (AddInclusionConstraints c slot transactions).1 s = slot_map c s).
Proof.
  intros Hpos Hr Hslot Hne. pose proof (reachable_ok cap c Hpos Hr) as Hok.
  pose proof Hok as (cache & Hc & _ & _ & _ & Hk & Hv & _).
  assert (exists m, lru.find slot (lru.items cache) = Some m) as [m Hm].
  { unfold cached_slots in Hslot. rewrite Hc in Hslot. apply lru_find_Some in Hslot.
    exact Hslot. }
  rewrite (add_on_cached_slot c cache slot m transactions Hc Hm Hne). cbn [fst].
  assert (cached_slots
            {| store := (add_loop m transactions (store c)).1;
               constraints := Some {| lru.size := lru.size cache;
                                      lru.items := (slot, m) :: lru.remove slot (lru.items cache) |} |}
          = slot :: filter (fun s => s <> slot) (cached_slots c)) as Hkeys.
  { unfold cached_slots. rewrite Hc. cbn [constraints lru.items map fst].
    rewrite lru_remove_keys by exact Hk. reflexivity. }
  split; [exact Hkeys|]. split.
  - intros s. rewrite !retrievable_iff, Hkeys. rewrite elem_of_cons, list_elem_of_filter.
    split.
    + intros [->|[_ Hin]]; assumption.
    + intros Hin. destruct (decide (s = slot)) as [->|Hs]; [left; reflexivity | right; split; assumption].
  - intros s Hs. rewrite !slot_map_unfold. cbn [constraints lru.items store]. rewrite Hc.
    rewrite (lru_find_moved slot s m _ Hm).
    destruct (lru.find s (lru.items cache)) as [[l'|]|] eqn:Hf'; [|reflexivity ..].
    apply add_loop_lookup_other. intros E. subst m. apply Hs.
    apply (snd_NoDup_key (lru.items cache) s slot (Some l') Hv); apply lru_find_in; assumption.
Qed.

(** X21. [Get] changes no map and not what any slot is bound to.  On a
    slot that is cached it returns the map of the slot and makes the slot the
    most recently used one, the others keeping their order; on a slot that is
    not cached it returns the nil map with a false flag and leaves the cache
    as it was. *)
Theorem X21_Get_returns_the_map_and_marks_the_slot
    (cap : Z) (c : ConstraintsCache) slot :
  0 < cap ->
  reachable cap c ->
  store (Get c slot).1 = store c
  /\ (forall s, slot_map (Get c slot).1 s = slot_map c s)
  /\ (slot ∈ cached_slots c ->
      exists l tm,
        (Get c slot).2 = Ok (Some l, true)
        /\ store c !! l = Some tm
        /\ slot_map c slot = Some tm
        /\ cached_slots (Get c slot).1
           = slot :: filter (fun s => s <> slot) (cached_slots c))
  /\ (slot ∉ cached_slots c -> Get c slot = (c, Ok (None, false))).
Proof.
  intros Hpos Hr. pose proof (reachable_ok cap c Hpos Hr) as Hok.
  pose proof Hok as (cache & Hc & _).
  split; [apply (Get_keeps_maps c slot slot)|].
  split; [intros s; apply (Get_keeps_maps c slot s)|]. split.
  - intros Hslot. pose proof (Get_hit_slots cap c slot Hok Hslot) as Hkeys.
    unfold cached_slots in Hslot. rewrite Hc in Hslot.
    apply lru_find_Some in Hslot as [m Hm].
    destruct (cache_ok_find cap c cache slot m Hok Hc Hm) as (l & -> & [tm Hl]).
    exists l, tm. split; [|split; [exact Hl|split; [|exact Hkeys]]].
    + unfold Get. rewrite Hc. unfold lru.Get. rewrite Hm. reflexivity.
    + rewrite (slot_map_cached c cache slot l Hc Hm). exact Hl.
  - intros Hslot. unfold cached_slots in Hslot. rewrite Hc in Hslot.
    apply lru_find_None in Hslot. unfold Get. rewrite Hc. unfold lru.Get. rewrite Hslot.
    cbn. rewrite <- Hc. destruct c; reflexivity.
Qed.

(** X22. On a cache of capacity two or more, a slot that [Get] has just
    found survives the next call for a new slot, with its map as it was,
    however long it had not been used before. *)
Theorem X22_Get_protects_from_the_next_eviction
    (cap : Z) (c : ConstraintsCache) slot new transactions :
  2 <= cap ->
  reachable cap c ->
  slot ∈ cached_slots c ->
  new ∉ cached_slots c ->
  transactions <> [] ->
  retrievable (AddInclusionConstraints (Get c slot).1 new transactions).1 slot
  /\ slot_map (AddInclusionConstraints (Get c slot).1 new transactions).1 slot
     = slot_map c slot.
Proof.
  intros Hcap Hr Hslot Hnew Hne.
  assert (0 < cap) as Hpos by lia.
  pose proof (reachable_ok cap c Hpos Hr) as Hok.
  pose proof (cache_ok_Get cap c slot Hok) as Hok1.
  pose proof (Get_hit_slots cap c slot Hok Hslot) as Hk1.
  assert (new <> slot) as Hns by (intros ->; contradiction).
  assert (new ∉ cached_slots (Get c slot).1) as Hnew1.
  { rewrite Hk1. intros [E|Hin]%elem_of_cons; [contradiction|].
    apply list_elem_of_filter in Hin as [_ Hin]. contradiction. }
  pose proof (add_new_slot_keys cap _ new transactions Hok1 Hnew1 Hne) as Hk2.
  assert (slot ∈ cached_slots (AddInclusionConstraints (Get c slot).1 new transactions).1)
    as Hin2.
  { rewrite Hk2, Hk1. destruct (Z.to_nat cap) as [|[|n]] eqn:En; [lia | lia |].
    cbn [firstn]. right. left. }
  split.
  - apply retrievable_iff. exact Hin2.
  - rewrite (add_new_slot_maps cap _ new transactions slot Hok1 Hnew1 Hne
               (not_eq_sym Hns) Hin2).
    apply (Get_keeps_maps c slot slot).
Qed.

Lemma value_of_slot cap c cache m :
  cache_ok cap c ->
  constraints c = Some cache ->
  m ∈ lru.Values cache ->
  exists slot l,
    m = Some l
    /\ lru.find slot (lru.items cache) = Some (Some l)
    /\ slot_map c slot = store c !! l.
Proof.
  intros Hok Hc Hin. pose proof Hok as (cache0 & Hc0 & _ & _ & _ & Hk & _).
  rewrite Hc in Hc0. injection Hc0 as <-.
  unfold lru.Values in Hin. apply (proj1 (elem_of_rev _ _)) in Hin.
  apply list_elem_of_In, in_map_iff in Hin as ([slot m'] & Hsnd & Hin).
  cbn [snd] in Hsnd. subst m'. apply list_elem_of_In in Hin.
  pose proof (lru_find_elem slot m _ Hk Hin) as Hf.
  destruct (cache_ok_find cap c cache slot m Hok Hc Hf) as (l & -> & _).
  exists slot, l. split; [reflexivity|]. split; [exact Hf|].
  apply (slot_map_cached c cache slot l Hc Hf).
Qed.

Lemma slot_of_value {V} (cache : lru.Cache V) slot v :
  lru.find slot (lru.items cache) = Some v -> v ∈ lru.Values cache.
Proof.
  intros Hf. apply lru_find_in in Hf. unfold lru.Values. apply elem_of_rev.
  apply list_elem_of_In, in_map_iff. exists (slot, v).
  split; [reflexivity | apply list_elem_of_In; exact Hf].
Qed.

(** X23. [FindTransactionByHash] is exact on the slots that are cached:
    a transaction it returns is bound to the hash in the map of a slot that
    [Get] finds, and it returns none only when the map of no slot binds the
    hash. *)
Theorem X23_Find_is_sound_and_complete (cap : Z) (c : ConstraintsCache) txHash :
  0 < cap ->
  reachable cap c ->
  exists r,
    (FindTransactionByHash c txHash).2 = Ok r
    /\ (forall tx,
           r = Some tx ->
           exists slot tm,
             retrievable c slot /\ slot_map c slot = Some tm /\ tm !! txHash = Some tx)
    /\ (r = None <-> forall slot tm, slot_map c slot = Some tm -> tm !! txHash = None).
Proof.
  intros Hpos Hr. pose proof (reachable_ok cap c Hpos Hr) as Hok.
  pose proof Hok as (cache & Hc & _).
  unfold FindTransactionByHash. rewrite Hc. cbn [snd].
  eexists. split; [reflexivity|]. split.
  - intros tx Htx. apply scan_Some in Htx as (m & Hin & Hlk).
    destruct (value_of_slot cap c cache m Hok Hc Hin) as (slot & l & -> & Hf & Hsm).
    cbn [map_lookup] in Hlk. destruct (store c !! l) as [tm|] eqn:Hl; [|discriminate].
    exists slot, tm. split; [|split; [exact Hsm | exact Hlk]].
    apply retrievable_iff. unfold cached_slots. rewrite Hc. apply lru_find_Some. eauto.
  - rewrite scan_None. split.
    + intros Hall slot tm Htm. apply slot_map_inv in Htm as (cache0 & l & Hc0 & Hf & Hl).
      rewrite Hc in Hc0. injection Hc0 as <-.
      specialize (Hall (Some l) (slot_of_value cache slot (Some l) Hf)).
      cbn [map_lookup] in Hall. rewrite Hl in Hall. exact Hall.
    + intros Hall m Hin.
      destruct (value_of_slot cap c cache m Hok Hc Hin) as (slot & l & -> & Hf & Hsm).
      cbn [map_lookup]. destruct (store c !! l) as [tm|] eqn:Hl; [|reflexivity].
      apply (Hall slot tm). exact Hsm.
Qed.

(** X24. When several slots bind a hash, [FindTransactionByHash] returns
    the binding of the least recently used of them: the transaction of a slot
    is returned when no slot used less recently binds the hash, whatever the
    slots used more recently hold. *)
Theorem X24_Find_returns_the_oldest_binding
    (cap : Z) (c : ConstraintsCache) txHash newer slot older tm tx :
  0 < cap ->
  reachable cap c ->
  cached_slots c = newer ++ slot :: older ->
  slot_map c slot = Some tm ->
  tm !! txHash = Some tx ->
  (forall s tm', s ∈ older -> slot_map c s = Some tm' -> tm' !! txHash = None) ->
  (FindTransactionByHash c txHash).2 = Ok (Some tx).
Proof.
  intros Hpos Hr Hsplit Htm Htx Hold. pose proof (reachable_ok cap c Hpos Hr) as Hok.
  pose proof Hok as (cache & Hc & _ & _ & _ & Hk & _).
  unfold cached_slots in Hsplit. rewrite Hc in Hsplit.
  apply map_fst_split in Hsplit as (i1 & m & i2 & Hitems & Hi1 & Hi2).
  apply slot_map_inv in Htm as (cache0 & l & Hc0 & Hf & Hl).
  rewrite Hc in Hc0. injection Hc0 as <-.
  assert (m = Some l) as ->.
  { assert (lru.find slot (lru.items cache) = Some m) as Hf'.
    { apply lru_find_elem; [exact Hk|]. rewrite Hitems. apply elem_of_app. right. left. }
    rewrite Hf in Hf'. injection Hf' as <-. reflexivity. }
  unfold FindTransactionByHash. rewrite Hc. cbn [snd]. f_equal.
  unfold lru.Values. rewrite Hitems, map_app, rev_app_distr. cbn [map rev snd].
  rewrite <- app_assoc. cbn [app]. rewrite scan_app.
  replace (scan (store c) txHash (rev (map snd i2))) with (@None HexTransaction).
  - cbn [scan map_lookup]. rewrite Hl, Htx. reflexivity.
  - symmetry. apply scan_None. intros m' Hin. apply (proj1 (elem_of_rev _ _)) in Hin.
    apply list_elem_of_In, in_map_iff in Hin as ([s m''] & Hsnd & Hin).
    cbn [snd] in Hsnd. subst m''. apply list_elem_of_In in Hin.
    assert (s ∈ older) as Hs.
    { rewrite <- Hi2. apply list_elem_of_In, in_map_iff. exists (s, m').
      split; [reflexivity | apply list_elem_of_In; exact Hin]. }
    assert (lru.find s (lru.items cache) = Some m') as Hfs.
    { apply lru_find_elem; [exact Hk|]. rewrite Hitems. apply elem_of_app. right. right.
      exact Hin. }
    destruct (cache_ok_find cap c cache s m' Hok Hc Hfs) as (l' & -> & _).
    cbn [map_lookup]. destruct (store c !! l') as [tm'|] eqn:Hl'; [|reflexivity].
    apply (Hold s tm' Hs). rewrite (slot_map_cached c cache s l' Hc Hfs). exact Hl'.
Qed.

End CacheReachable.

Lemma X13_witness :
  (AddInclusionConstraints Sample.cache_with_slot_5 5 SampleCache.two_txs).2 = Ok tt
  /\ slot_map (AddInclusionConstraints Sample.cache_with_slot_5 5 SampleCache.two_txs).1 5
     = Some (insert_all ∅ SampleCache.two_bindings).
Proof.
  destruct (X13_add_to_cached_slot_succeeds Sample.cache_with_slot_5 5 ∅
              SampleCache.two_txs SampleCache.two_bindings) as (Hr & Hm & _).
  - vm_compute. reflexivity.
  - discriminate.
  - constructor; [eexists; split; [reflexivity | vm_compute; reflexivity]|].
    constructor; [eexists; split; [reflexivity | vm_compute; reflexivity]|].
    constructor.
  - split; assumption.
Defined.

Lemma X14_witness :
  (AddInclusionConstraints Sample.cache_with_slot_5 5
     ([Some [x02; x61]] ++ None :: [Some [x03]])).2 = Err ErrNilTransaction
  /\ slot_map (AddInclusionConstraints Sample.cache_with_slot_5 5
                 ([Some [x02; x61]] ++ None :: [Some [x03]])).1 5
     = Some (insert_all ∅ [([x02; x61], [x02; x61])]).
Proof.
  apply (X14_add_keeps_what_precedes_the_failure Sample.cache_with_slot_5 5 ∅
           [Some [x02; x61]] [([x02; x61], [x02; x61])] None [Some [x03]]
           ErrNilTransaction).
  - vm_compute. reflexivity.
  - constructor; [eexists; split; [reflexivity | vm_compute; reflexivity]|].
    constructor.
  - left. split; reflexivity.
Defined.

Lemma X15_witness :
  (AddInclusionConstraints (NewConstraintsCache 4) 7 SampleCache.two_txs).2
  = Panic NilMapAssignment
  /\ (AddInclusionConstraints (NewConstraintsCache 4) 7 SampleCache.two_txs).2 <> Ok tt.
Proof.
  destruct (X15_add_to_new_slot_never_succeeds (NewConstraintsCache 4)
              {| lru.size := 4; lru.items := [] |} 7 SampleCache.two_txs)
    as (Hr & Hno & _).
  - reflexivity.
  - apply not_elem_of_nil.
  - discriminate.
  - split; [exact Hr | exact Hno].
Defined.

Lemma X16_witness :
  (AddInclusionConstraints
     (AddInclusionConstraints (NewConstraintsCache 4) 7 [Some [x02; x61]]).1
     7 SampleCache.two_txs).2 = Ok tt
  /\ slot_map (AddInclusionConstraints
                 (AddInclusionConstraints (NewConstraintsCache 4) 7 [Some [x02; x61]]).1
                 7 SampleCache.two_txs).1 7
     = Some (insert_all ∅ SampleCache.two_bindings).
Proof.
  apply (X16_second_call_for_a_slot_succeeds (NewConstraintsCache 4)
           {| lru.size := 4; lru.items := [] |} 7 [Some [x02; x61]]
           SampleCache.two_txs SampleCache.two_bindings).
  - reflexivity.
  - cbn. lia.
  - apply not_elem_of_nil.
  - discriminate.
  - discriminate.
  - constructor; [eexists; split; [reflexivity | vm_compute; reflexivity]|].
    constructor; [eexists; split; [reflexivity | vm_compute; reflexivity]|].
    constructor.
Defined.

Lemma X17_witness :
  Z.of_nat (length (cached_slots SampleCache.two_slots)) <= 2
  /\ NoDup (cached_slots SampleCache.two_slots).
Proof.
  destruct (X17_reachable_cache_invariants 2 SampleCache.two_slots) as (Hlen & Hnd & _).
  - lia.
  - exists SampleCache.ops. reflexivity.
  - split; assumption.
Defined.

Lemma X18_witness :
  run (NewConstraintsCache 0) SampleCache.ops = NewConstraintsCache 0.
Proof.
  destruct (X18_without_a_cache_every_call_panics 0 SampleCache.ops) as (_ & _ & _ & Hrun).
  - lia.
  - exact Hrun.
Defined.

Lemma X19_witness :
  cached_slots (AddInclusionConstraints SampleCache.two_slots 30 [None]).1
  = take (Z.to_nat 2) (30 :: cached_slots SampleCache.two_slots)
  /\ ~ retrievable (AddInclusionConstraints SampleCache.two_slots 30 [None]).1 20.
Proof.
  destruct (X19_new_slot_evicts_the_least_recently_used 2 SampleCache.two_slots 30 [None])
    as (Hk & _ & _ & Hfull).
  - lia.
  - exists SampleCache.ops. reflexivity.
  - apply (bool_decide_unpack _). vm_compute. exact I.
  - discriminate.
  - split; [exact Hk|]. refine (proj1 (Hfull _ 20 _)); vm_compute; reflexivity.
Defined.

Lemma X20_witness :
  cached_slots (AddInclusionConstraints SampleCache.two_slots 20 [None]).1
  = 20 :: filter (fun s => s <> 20) (cached_slots SampleCache.two_slots)
  /\ slot_map (AddInclusionConstraints SampleCache.two_slots 20 [None]).1 10
     = slot_map SampleCache.two_slots 10.
Proof.
  destruct (X20_write_to_a_cached_slot_is_a_use 2 SampleCache.two_slots 20 [None])
    as (Hk & _ & Hm).
  - lia.
  - exists SampleCache.ops. reflexivity.
  - apply (bool_decide_unpack _). vm_compute. exact I.
  - discriminate.
  - split; [exact Hk|]. apply Hm. discriminate.
Defined.

Lemma X21_witness :
  slot_map (Get SampleCache.two_slots 20).1 10 = slot_map SampleCache.two_slots 10
  /\ cached_slots (Get SampleCache.two_slots 20).1
     = 20 :: filter (fun s => s <> 20) (cached_slots SampleCache.two_slots)
  /\ Get SampleCache.two_slots 30 = (SampleCache.two_slots, Ok (None, false)).
Proof.
  destruct (X21_Get_returns_the_map_and_marks_the_slot 2 SampleCache.two_slots 20)
    as (_ & Hm & Hhit & _).
  - lia.
  - exists SampleCache.ops. reflexivity.
  - destruct Hhit as (l & tm & _ & _ & _ & Hk).
    + apply (bool_decide_unpack _). vm_compute. exact I.
    + split; [apply Hm|]. split; [exact Hk|]. vm_compute. reflexivity.
Defined.

Lemma X22_witness :
  retrievable
    (AddInclusionConstraints (Get SampleCache.two_slots 20).1 30 [None]).1 20.
Proof.
  apply (X22_Get_protects_from_the_next_eviction 2 SampleCache.two_slots 20 30 [None]).
  - lia.
  - exists SampleCache.ops. reflexivity.
  - apply (bool_decide_unpack _). vm_compute. exact I.
  - apply (bool_decide_unpack _). vm_compute. exact I.
  - discriminate.
Defined.

Lemma X23_witness :
  exists r, (FindTransactionByHash SampleCache.two_slots [x02; x61]).2 = Ok r.
Proof.
  destruct (X23_Find_is_sound_and_complete 2 SampleCache.two_slots [x02; x61])
    as (r & Hr & _).
  - lia.
  - exists SampleCache.ops. reflexivity.
  - exists r. exact Hr.
Defined.

Lemma X24_witness :
  ((exists tm, slot_map SampleCache.shared 30 = Some tm
               /\ tm !! ([x02; x61] : Hash) = Some [x02; x61])
   /\ (FindTransactionByHash SampleCache.shared [x02; x61]).2 = Ok (Some [x02; x61]))
  /\ ((exists tm, slot_map SampleCache.colliding 30 = Some tm
                  /\ tm !! ([x02] : Hash) = Some [x02; x63])
      /\ (FindTransactionByHash SampleCache.colliding [x02]).2 = Ok (Some [x02; x62])).
Proof.
  split; split.
  - eexists. split; vm_compute; reflexivity.
  - apply (X24_Find_returns_the_oldest_binding 3 SampleCache.shared [x02; x61]
             [30] 20 [10] (<[[x02; x61] := [x02; x61]]> ∅) [x02; x61]).
    + lia.
    + exists SampleCache.shared_ops. reflexivity.
    + vm_compute. reflexivity.
    + vm_compute. reflexivity.
    + vm_compute. reflexivity.
    + intros s tm' Hs Hm. apply elem_of_cons in Hs as [->|[]%elem_of_nil].
      assert (slot_map SampleCache.shared 10 = Some ∅) as E by (vm_compute; reflexivity).
      rewrite E in Hm. injection Hm as <-. apply lookup_empty.
  - eexists. split; vm_compute; reflexivity.
  - apply (@X24_Find_returns_the_oldest_binding SampleCache.short_hash_codec
             3 SampleCache.colliding [x02]
             [30] 20 [10] (<[[x02] := [x02; x62]]> ∅) [x02; x62]).
    + lia.
    + exists SampleCache.colliding_ops. reflexivity.
    + vm_compute. reflexivity.
    + vm_compute. reflexivity.
    + vm_compute. reflexivity.
    + intros s tm' Hs Hm. apply elem_of_cons in Hs as [->|[]%elem_of_nil].
      assert (slot_map SampleCache.colliding 10 = Some ∅) as E by (vm_compute; reflexivity).
      rewrite E in Hm. injection Hm as <-. apply lookup_empty.
Defined.

(* ================================================================== *)
(** * Insertions for slots that are not cached *)

Section NewSlots.

Context `{TxCodec}.





End NewSlots.

